(** * FlowDay: the node tree, the drag-and-drop protocol and the viewport

    A shallow embedding of the parts of the FlowDay editor that carry
    invariants: the tree mutations of [App.tsx], the drop handling and the
    pan/zoom arithmetic of [components/FlowCanvas.tsx], and the node types
    of [types.ts].

    Conventions of the embedding.
    - JavaScript numbers are read as exact rationals ([Q]) where only
      comparisons and clamping matter; the module [Doubles] has the
      viewport handlers on IEEE 754 doubles (primitive floats), every
      operation rounding as in the code.
    - [undefined] and [null] are [None]; a test on truthiness of a string
      value is [truthy].
    - [Date.now()] is an input of every operation that reads the clock.
    - TypeScript casts ([as SingleNode]) are erased at run time, so the
      children of a branch or block are modelled as arbitrary nodes. *)

From Stdlib Require Import PrimFloat FloatClass.
From Stdlib Require Import List String Ascii Bool Arith Lia Permutation.
From Stdlib Require Import NArith QArith Qminmax Lqa DecimalString.
Import ListNotations.

Set Warnings "-inexact-float".

Local Open Scope string_scope.
Local Open Scope list_scope.

(** ** JavaScript helpers *)

(** [if (s)] on a value of type [string | null]: the empty string and
    [null] are falsy. *)
Definition truthy (s : option string) : bool :=
  match s with
  | None => false
  | Some s => negb (s =? "")
  end.

(** [a === b] where [a] may be [undefined] and [b] may be [null]:
    [undefined === null] is false. *)
Definition strictEq (a b : option string) : bool :=
  match a, b with
  | Some x, Some y => x =? y
  | _, _ => false
  end.

(** [Array.prototype.findIndex]; [None] stands for [-1]. *)
Fixpoint findIndex {A} (f : A -> bool) (l : list A) : option nat :=
  match l with
  | [] => None
  | x :: l' => if f x then Some 0%nat
               else option_map S (findIndex f l')
  end.

(** [arr.splice(i, 0, x)]. *)
Definition spliceInsert {A} (i : nat) (x : A) (l : list A) : list A :=
  firstn i l ++ x :: skipn i l.

(** [arr.splice(i, 1)]: the array that remains. *)
Definition spliceRemove {A} (i : nat) (l : list A) : list A :=
  firstn i l ++ skipn (S i) l.

(** [Date.now().toString()]. *)
Definition toString (n : N) : string :=
  NilZero.string_of_uint (N.to_uint n).

(** ** types.ts *)

Inductive SingleType := time | task | place.

Inductive NodeType := single (k : SingleType) | branch | block.

Record BaseNode := mkBase {
  id : string;
  title : string;
  subtitle : option string;
  duration : option string;
  icon : option string;
  color : option string;
  isDashedConnection : option bool
}.

#[warnings="-register-all"]
Inductive FlowNode :=
| SingleNode (base : BaseNode) (kind : SingleType)
| BranchNode (base : BaseNode) (branches : list FlowNode)
| BlockNode (base : BaseNode) (sideEvents : list FlowNode)
            (customWidth customHeight : option Q).

Definition baseOf (n : FlowNode) : BaseNode :=
  match n with
  | SingleNode b _ => b
  | BranchNode b _ => b
  | BlockNode b _ _ _ => b
  end.

Definition nodeId (n : FlowNode) : string := id (baseOf n).

Definition nodeType (n : FlowNode) : NodeType :=
  match n with
  | SingleNode _ k => single k
  | BranchNode _ _ => branch
  | BlockNode _ _ _ _ => block
  end.

(** The nested list of a node: [branches] of a branch, [sideEvents] of a
    block, nothing for a leaf. *)
Definition children (n : FlowNode) : list FlowNode :=
  match n with
  | SingleNode _ _ => []
  | BranchNode _ bs => bs
  | BlockNode _ se _ _ => se
  end.

(** [{...n, branches: cs}] or [{...n, sideEvents: cs}]. *)
Definition withChildren (n : FlowNode) (cs : list FlowNode) : FlowNode :=
  match n with
  | SingleNode b k => SingleNode b k
  | BranchNode b _ => BranchNode b cs
  | BlockNode b _ w h => BlockNode b cs w h
  end.

(** Identifiers of a node and of its nested children, then of a whole
    sequence: the top level and one level of nesting, in document order. *)
Definition nodeIds (n : FlowNode) : list string :=
  nodeId n :: map nodeId (children n).

Definition allIds (l : list FlowNode) : list string :=
  flat_map nodeIds l.

(** ** App.tsx: state *)

Record Layout := mkLayout {
  layoutId : string;
  name : string;
  layoutNodes : list FlowNode
}.

Record AppData := mkAppData {
  savedLayouts : list Layout;
  savedActiveLayoutId : option string
}.

Record App := mkApp {
  layouts : list Layout;
  activeLayoutId : string;
  nodes : list FlowNode;
  selectedNodeId : option string
}.

Definition setNodes (l : list FlowNode) (st : App) : App :=
  mkApp (layouts st) (activeLayoutId st) l (selectedNodeId st).

Definition setSelectedNodeId (s : option string) (st : App) : App :=
  mkApp (layouts st) (activeLayoutId st) (nodes st) s.

(** ** App.tsx: load on mount *)

(** The effect that runs once at start-up.  [saved] is the parsed content
    of the storage key, [None] when the key is absent or does not parse. *)
Definition loadOnMount (saved : option AppData) (st : App) : App :=
  match saved with
  | Some savedData =>
      match savedLayouts savedData with
      | [] => st
      | first :: _ =>
          let activeId :=
            if truthy (savedActiveLayoutId savedData)
            then match savedActiveLayoutId savedData with
                 | Some a => a
                 | None => layoutId first
                 end
            else layoutId first in
          let activeLayout :=
            match find (fun l => layoutId l =? activeId)
                       (savedLayouts savedData) with
            | Some l => l
            | None => first
            end in
          mkApp (savedLayouts savedData) activeId
                (layoutNodes activeLayout) (selectedNodeId st)
      end
  | None => st
  end.

(** ** App.tsx: node operations *)

Definition updateRecursive (updatedNode : FlowNode) (nodeList : list FlowNode)
  : list FlowNode :=
  map (fun n =>
         if nodeId n =? nodeId updatedNode then updatedNode
         else match n with
              | BranchNode b bs =>
                  if existsb (fun c => nodeId c =? nodeId updatedNode) bs
                  then BranchNode b
                         (map (fun c => if nodeId c =? nodeId updatedNode
                                        then updatedNode else c) bs)
                  else n
              | BlockNode b se w h =>
                  if existsb (fun c => nodeId c =? nodeId updatedNode) se
                  then BlockNode b
                         (map (fun c => if nodeId c =? nodeId updatedNode
                                        then updatedNode else c) se) w h
                  else n
              | SingleNode _ _ => n
              end) nodeList.

Definition handleUpdateNode (updatedNode : FlowNode) (st : App) : App :=
  setNodes (updateRecursive updatedNode (nodes st)) st.

Definition deleteRecursive (i : string) (nodeList : list FlowNode)
  : list FlowNode :=
  map (fun n =>
         match n with
         | BranchNode b bs =>
             BranchNode b (filter (fun c => negb (nodeId c =? i)) bs)
         | BlockNode b se w h =>
             BlockNode b (filter (fun c => negb (nodeId c =? i)) se) w h
         | SingleNode _ _ => n
         end)
      (filter (fun n => negb (nodeId n =? i)) nodeList).

Definition handleDeleteNode (i : string) (st : App) : App :=
  let st' := setNodes (deleteRecursive i (nodes st)) st in
  if strictEq (selectedNodeId st) (Some i)
  then setSelectedNodeId None st' else st'.

Definition createNode (type : NodeType) (now : N) : FlowNode :=
  let newId := toString now in
  match type with
  | block =>
      BlockNode (mkBase newId "新时间段" (Some "专注任务...") (Some "60 mins")
                        (Some "Hourglass") (Some "violet") None)
                [] None None
  | branch =>
      BranchNode (mkBase newId "并行组" (Some "") None None None None)
        [ SingleNode (mkBase (newId ++ "_1") "任务 A" (Some "")
                             (Some "15 mins") (Some "Square") (Some "white")
                             None) task;
          SingleNode (mkBase (newId ++ "_2") "任务 B" (Some "")
                             (Some "15 mins") (Some "Square") (Some "white")
                             None) task ]
  | single k =>
      SingleNode (mkBase newId
                    (match k with time => "00:00" | _ => "新节点" end)
                    (Some "") None
                    (match k with task => Some "Square" | _ => None end)
                    (Some (match k with
                           | time => "rose"
                           | place => "yellow"
                           | task => "white"
                           end))
                    None) k
  end.

Definition handleAddNode (type : NodeType) (now : N) (st : App) : App :=
  let newNode := createNode type now in
  let appended :=
    setSelectedNodeId (Some (nodeId newNode))
      (setNodes (nodes st ++ [newNode]) st) in
  if truthy (selectedNodeId st) then
    match findIndex (fun n => strictEq (Some (nodeId n)) (selectedNodeId st))
                    (nodes st) with
    | Some rootIndex =>
        setSelectedNodeId (Some (nodeId newNode))
          (setNodes (spliceInsert (rootIndex + 1) newNode (nodes st)) st)
    | None => appended
    end
  else appended.

Inductive Source := sidebar | canvas | otherSource.

Inductive Position := before | after | append.

(** The drag payload [{ source, id?, type }]. *)
Record DragData := mkDrag {
  source : Source;
  dragId : option string;
  dragType : NodeType
}.

(** The tail of [handleDropNode], once [nodeToInsert] is known and
    [newNodes] no longer holds it. *)
Definition placeNode (nodeToInsert : FlowNode) (targetId : option string)
  (position : Position) (newNodes : list FlowNode) : list FlowNode :=
  if match position with append => true | _ => false end
     || negb (truthy targetId)
  then newNodes ++ [nodeToInsert]
  else
    match findIndex (fun n => strictEq (Some (nodeId n)) targetId)
                    newNodes with
    | Some targetIndex =>
        let insertIndex :=
          match position with
          | before => targetIndex
          | _ => (targetIndex + 1)%nat
          end in
        spliceInsert insertIndex nodeToInsert newNodes
    | None => newNodes ++ [nodeToInsert]
    end.

Definition handleDropNode (dragData : DragData) (targetId : option string)
  (position : Position) (now : N) (st : App) : App :=
  if strictEq (dragId dragData) targetId then st
  else
    match source dragData with
    | sidebar =>
        let nodeToInsert := createNode (dragType dragData) now in
        setSelectedNodeId (Some (nodeId nodeToInsert))
          (setNodes (placeNode nodeToInsert targetId position (nodes st)) st)
    | canvas =>
        match findIndex (fun n => strictEq (Some (nodeId n))
                                           (dragId dragData))
                        (nodes st) with
        | None => st
        | Some existingIndex =>
            match nth_error (nodes st) existingIndex with
            | None => st
            | Some nodeToInsert =>
                setNodes (placeNode nodeToInsert targetId position
                            (spliceRemove existingIndex (nodes st))) st
            end
        end
    | otherSource => st
    end.

(** The callbacks the canvas receives as props, as data: what
    [FlowCanvas] asks [App] to do. *)
Inductive Callback :=
| OnDeleteNode (i : option string)
| OnDropNode (dragData : DragData) (targetId : option string)
             (position : Position)
| OnUpdateNode (node : FlowNode).

(** [App] wires [onDeleteNode], [onDropNode] and [onUpdateNode] to its
    handlers.  No node identifier is strictly equal to [undefined], so a
    delete request without an identifier rebuilds the same sequence. *)
Definition invoke (cb : option Callback) (now : N) (st : App) : App :=
  match cb with
  | None => st
  | Some (OnDeleteNode (Some i)) => handleDeleteNode i st
  | Some (OnDeleteNode None) => st
  | Some (OnDropNode d t p) => handleDropNode d t p now st
  | Some (OnUpdateNode u) => handleUpdateNode u st
  end.

(** The four tree operations as a transition system. *)
Inductive Op :=
| AddNode (type : NodeType) (now : N)
| DropNode (dragData : DragData) (targetId : option string)
           (position : Position) (now : N)
| UpdateNode (updatedNode : FlowNode)
| DeleteNode (i : string).

Definition step (st : App) (op : Op) : App :=
  match op with
  | AddNode ty now => handleAddNode ty now st
  | DropNode d t p now => handleDropNode d t p now st
  | UpdateNode u => handleUpdateNode u st
  | DeleteNode i => handleDeleteNode i st
  end.

Definition run (st : App) (ops : list Op) : App := fold_left step ops st.

(** A request of a component, as the operation it triggers. *)
Definition requested (cb : option Callback) (now : N) : list Op :=
  match cb with
  | Some (OnDeleteNode (Some i)) => [DeleteNode i]
  | Some (OnDropNode d t p) => [DropNode d t p now]
  | Some (OnUpdateNode u) => [UpdateNode u]
  | _ => []
  end.

(** ** components/PropertiesPanel.tsx *)

Fixpoint findNode (i : string) (nodes : list FlowNode) : option FlowNode :=
  match nodes with
  | [] => None
  | node :: rest =>
      if nodeId node =? i then Some node
      else match node with
           | BranchNode _ bs =>
               match find (fun b => nodeId b =? i) bs with
               | Some found => Some found
               | None => findNode i rest
               end
           | BlockNode _ se _ _ =>
               match find (fun b => nodeId b =? i) se with
               | Some found => Some found
               | None => findNode i rest
               end
           | SingleNode _ _ => findNode i rest
           end
  end.

(** [clock i] is the reading of [Date.now()] in the loop iteration [i]. *)
Definition handleBranchCountChange (count : nat) (clock : nat -> N)
  (selectedNode : FlowNode) : option Callback :=
  match selectedNode with
  | BranchNode b bs =>
      let newBranches :=
        if (List.length bs <? count)%nat then
          bs ++ map (fun i =>
                       SingleNode
                         (mkBase (id b ++ "_task_" ++ toString (clock i)
                                       ++ "_" ++ toString (N.of_nat i))
                                 (if (i =? 0)%nat then "主任务"
                                  else "并行任务")
                                 (Some "任务描述...") (Some "15 mins")
                                 (Some "CheckSquare") (Some "white") None)
                         task)
                    (seq (List.length bs) (count - List.length bs))
        else if (count <? List.length bs)%nat then firstn count bs
        else bs in
      Some (OnUpdateNode (BranchNode b newBranches))
  | _ => None
  end.

(** [now] is the reading of [Date.now()]. *)
Definition addSideEvent (type : SingleType) (now : N)
  (selectedNode : FlowNode) : option Callback :=
  match selectedNode with
  | BlockNode b se w h =>
      let newId := (id b ++ "_side_" ++ toString now)%string in
      let newEvent :=
        SingleNode
          (mkBase newId
                  (match type with time => "12:00" | _ => "新任务" end)
                  (Some (match type with time => "事项..." | _ => "" end))
                  (match type with task => Some "15 mins" | _ => None end)
                  (match type with task => Some "Square" | _ => None end)
                  (Some (match type with time => "rose" | _ => "white" end))
                  None) type in
      Some (OnUpdateNode (BlockNode b (se ++ [newEvent]) w h))
  | _ => None
  end.

(** ** constants.tsx *)

Definition WEEKEND_NODES : list FlowNode :=
  [ SingleNode (mkBase "w1" "10:00" (Some "自然醒") (Some "0 MINS") None
                       (Some "teal") None) time;
    SingleNode (mkBase "w2" "Brunch" (Some "自制早午餐") (Some "45 mins")
                       (Some "Coffee") (Some "white") None) task;
    BlockNode (mkBase "w_block_1" "户外活动" (Some "爬山 / 逛公园")
                      (Some "3 hours") (Some "MapPin") (Some "yellow") None)
      [ SingleNode (mkBase "w_side_1" "14:00" (Some "喝咖啡") None None
                           (Some "rose") None) time ]
      None None;
    SingleNode (mkBase "w3" "18:00" (Some "聚餐") (Some "0 MINS") None
                       (Some "rose") None) time;
    BlockNode (mkBase "w_block_2" "电影之夜" (Some "Netflix / 投影仪")
                      (Some "2 hours") (Some "Film") (Some "violet") None)
      [] None None ].

(** The head of [INITIAL_NODES]: a time marker, a branch with two
    children, a block with one side event, a task. *)
Definition INITIAL_NODES_head : list FlowNode :=
  [ SingleNode (mkBase "1" "08:00" (Some "起床") (Some "0 MINS") None
                       (Some "rose") None) time;
    BranchNode (mkBase "2" "晨间惯例" None None None None None)
      [ SingleNode (mkBase "2a" "洗漱" (Some "洗漱") (Some "15 mins")
                           (Some "Mail") (Some "white") None) task;
        SingleNode (mkBase "2b" "刷早报" (Some "刷早报") (Some "10 mins")
                           (Some "Layout") (Some "white") None) task ];
    BlockNode (mkBase "block_1" "深度工作" (Some "专注不受打扰的时间")
                      (Some "60 mins") (Some "Hourglass") (Some "violet")
                      None)
      [ SingleNode (mkBase "side_1" "11:10" (Some "点外卖") None None
                           (Some "rose") None) time ]
      None None;
    SingleNode (mkBase "task_lunch" "中饭" (Some "") (Some "30 mins")
                       (Some "Square") (Some "white") None) task ].

(** ** components/FlowCanvas.tsx: state *)

Inductive ViewMode := vertical | mapView.

Record Pan := mkPan { panX : Q; panY : Q }.

Record Canvas := mkCanvas {
  viewMode : ViewMode;
  isDragging : bool;
  isOverTrash : bool;
  zoom : Q;
  pan : Pan;
  isPanning : bool;
  dragOverId : option string;
  dropPosition : option Position
}.

(** The fields of mouse, wheel and drag events that the handlers read. *)
Record Event := mkEvent {
  buttons : nat;
  ctrlKey : bool;
  clientX : Q;
  clientY : Q;
  deltaX : Q;
  deltaY : Q
}.

(** [getBoundingClientRect()]. *)
Record DOMRect := mkRect {
  rectLeft : Q;
  rectTop : Q;
  rectWidth : Q;
  rectHeight : Q
}.

Definition setZoom (z : Q) (c : Canvas) : Canvas :=
  mkCanvas (viewMode c) (isDragging c) (isOverTrash c) z (pan c)
           (isPanning c) (dragOverId c) (dropPosition c).

Definition setPan (p : Pan) (c : Canvas) : Canvas :=
  mkCanvas (viewMode c) (isDragging c) (isOverTrash c) (zoom c) p
           (isPanning c) (dragOverId c) (dropPosition c).

Definition setDragOverId (i : option string) (c : Canvas) : Canvas :=
  mkCanvas (viewMode c) (isDragging c) (isOverTrash c) (zoom c) (pan c)
           (isPanning c) i (dropPosition c).

Definition setDropPosition (p : option Position) (c : Canvas) : Canvas :=
  mkCanvas (viewMode c) (isDragging c) (isOverTrash c) (zoom c) (pan c)
           (isPanning c) (dragOverId c) p.

Definition setIsOverTrash (b : bool) (c : Canvas) : Canvas :=
  mkCanvas (viewMode c) (isDragging c) b (zoom c) (pan c)
           (isPanning c) (dragOverId c) (dropPosition c).

Definition setIsDragging (b : bool) (c : Canvas) : Canvas :=
  mkCanvas (viewMode c) b (isOverTrash c) (zoom c) (pan c)
           (isPanning c) (dragOverId c) (dropPosition c).

(** ** components/FlowCanvas.tsx: zoom and pan *)

Definition handleZoomIn (c : Canvas) : Canvas :=
  setZoom (Qmin (zoom c + (1 # 10)) 2) c.

Definition handleZoomOut (c : Canvas) : Canvas :=
  setZoom (Qmax (zoom c - (1 # 10)) (2 # 10)) c.

Definition handleResetZoom (c : Canvas) : Canvas :=
  setPan (mkPan 0 0) (setZoom 1 c).

(** [containerRect] is [None] when the container is not mounted. *)
Definition handleWheel (e : Event) (containerRect : option DOMRect)
  (c : Canvas) : Canvas :=
  if (buttons e =? 2)%nat || ctrlKey e then
    match containerRect with
    | None => c
    | Some r =>
        let mouseX := clientX e - rectLeft r in
        let mouseY := clientY e - rectTop r in
        let worldX := (mouseX - panX (pan c)) / zoom c in
        let worldY := (mouseY - panY (pan c)) / zoom c in
        let scaleAmount := - deltaY e * (1 # 1000) in
        let newZoom := Qmin (Qmax (zoom c + scaleAmount) (2 # 10)) 3 in
        let newPanX := mouseX - worldX * newZoom in
        let newPanY := mouseY - worldY * newZoom in
        setPan (mkPan newPanX newPanY) (setZoom newZoom c)
    end
  else
    let panSpeed := 1 in
    setPan (mkPan (panX (pan c) - deltaX e * panSpeed)
                  (panY (pan c) - deltaY e * panSpeed)) c.

(** ** components/FlowCanvas.tsx: drag and drop *)

(** [transfer] is the parsed drag payload, [None] when the transfer holds
    no data or the data does not parse.  The handler reads [isOverTrash],
    [dragOverId] and [dropPosition] as they were when it was created, and
    resets them. *)
Definition handleDrop (transfer : option DragData) (c : Canvas)
  : Canvas * option Callback :=
  let c' := setIsOverTrash false
              (setDropPosition None
                 (setDragOverId None (setIsDragging false c))) in
  match transfer with
  | None => (c', None)
  | Some data =>
      if isOverTrash c then
        match source data with
        | canvas => (c', Some (OnDeleteNode (dragId data)))
        | _ => (c', None)
        end
      else
        match truthy (dragOverId c), dropPosition c with
        | true, Some position =>
            if negb (strictEq (dragId data) (dragOverId c))
            then (c', Some (OnDropNode data (dragOverId c) position))
            else (c', None)
        | _, _ =>
            match source data with
            | sidebar => (c', Some (OnDropNode data None append))
            | _ => (c', None)
            end
        end
  end.

(** [onDragOver] of the trash zone. *)
Definition trashDragOver (c : Canvas) : Canvas :=
  setDragOverId None (setIsOverTrash true c).

(** [handleNodeDragStart]: the payload written to the transfer. *)
Definition handleNodeDragStart (node : FlowNode) : DragData :=
  mkDrag canvas (Some (nodeId node)) (nodeType node).

Module VerticalLayout.

(** [rect] is the bounding rectangle of the hovered drop zone. *)
Definition handleNodeDragOver (e : Event) (rect : DOMRect) (i : string)
  (c : Canvas) : Canvas :=
  let midY := rectTop rect + rectHeight rect / 2 in
  let pos := if Qlt_le_dec (clientY e) midY then before else after in
  setDropPosition (Some pos) (setDragOverId (Some i) c).

End VerticalLayout.

Module MapLayout.

Definition handleNodeDragOver (e : Event) (i : string) (index : nat)
  (c : Canvas) : Canvas :=
  setDropPosition (Some after) (setDragOverId (Some i) c).

End MapLayout.

(** The drop zone of a node belongs to the layout of the current view
    mode. *)
Definition nodeDragOver (e : Event) (rect : DOMRect) (i : string)
  (index : nat) (c : Canvas) : Canvas :=
  match viewMode c with
  | vertical => VerticalLayout.handleNodeDragOver e rect i c
  | mapView => MapLayout.handleNodeDragOver e i index c
  end.

(** ** components/FlowCanvas.tsx: block resize *)

(** [a || d] on an optional number: [undefined] and [0] are falsy. *)
Definition orDefault (a : option Q) (d : Q) : Q :=
  match a with
  | Some v => if Qeq_bool v 0 then d else v
  | None => d
  end.

Section BlockRenderer.

(** The props of one rendered block. *)
Variable base : BaseNode.
Variable sideEvents : list FlowNode.
Variables customWidth customHeight : option Q.
Variable zoom : Q.

(** The [mousemove] listener that [handleResizeStart] installs for the
    gesture begun by [e]: the update it emits for [moveEvent]. *)
Definition handleResizeStart (e moveEvent : Event) : Callback :=
  let startX := clientX e in
  let startY := clientY e in
  let startWidth := orDefault customWidth 128 in
  let startHeight := orDefault customHeight 128 in
  let dx := (clientX moveEvent - startX) / zoom in
  let dy := (clientY moveEvent - startY) / zoom in
  let newWidth := Qmax 100 (startWidth + dx) in
  let newHeight := Qmax 100 (startHeight + dy) in
  OnUpdateNode (BlockNode base sideEvents (Some newWidth) (Some newHeight)).

End BlockRenderer.

(** ** Object identity

    [handleUpdateNode] builds its result from the objects it is given:
    [return n] hands back the very object it received, an object spread
    [{...n, branches: ...}] allocates a new one.  To speak about which
    objects of the result are the objects of the input, nodes live in a
    store and sequences hold references. *)

Module Refs.

Definition ref := nat.

Inductive Obj :=
| SingleObj (base : BaseNode) (kind : SingleType)
| BranchObj (base : BaseNode) (branches : list ref)
| BlockObj (base : BaseNode) (sideEvents : list ref)
           (customWidth customHeight : option Q).

(** The store: every reference below [next] is allocated. *)
Record Heap := mkHeap { next : ref; deref : ref -> Obj }.

Definition alloc (o : Obj) (h : Heap) : ref * Heap :=
  (next h,
   mkHeap (S (next h))
          (fun r => if (r =? next h)%nat then o else deref h r)).

Definition objId (h : Heap) (r : ref) : string :=
  match deref h r with
  | SingleObj b _ => id b
  | BranchObj b _ => id b
  | BlockObj b _ _ _ => id b
  end.

Definition kids (h : Heap) (r : ref) : list ref :=
  match deref h r with
  | SingleObj _ _ => []
  | BranchObj _ bs => bs
  | BlockObj _ se _ _ => se
  end.

(** The callback that [updateRecursive] maps over the sequence. *)
Definition updateOne (updatedNode n : ref) (h : Heap) : ref * Heap :=
  if objId h n =? objId h updatedNode then (updatedNode, h)
  else match deref h n with
       | BranchObj b bs =>
           if existsb (fun c => objId h c =? objId h updatedNode) bs
           then alloc (BranchObj b
                         (map (fun c => if objId h c =? objId h updatedNode
                                        then updatedNode else c) bs)) h
           else (n, h)
       | BlockObj b se w hh =>
           if existsb (fun c => objId h c =? objId h updatedNode) se
           then alloc (BlockObj b
                         (map (fun c => if objId h c =? objId h updatedNode
                                        then updatedNode else c) se) w hh) h
           else (n, h)
       | SingleObj _ _ => (n, h)
       end.

Fixpoint updateRecursive (updatedNode : ref) (nodeList : list ref)
  (h : Heap) : list ref * Heap :=
  match nodeList with
  | [] => ([], h)
  | n :: rest =>
      let (n', h1) := updateOne updatedNode n h in
      let (out, h2) := updateRecursive updatedNode rest h1 in
      (n' :: out, h2)
  end.

(** Every reference of the sequence, of its nested lists, and the
    replacement itself are allocated. *)
Definition valid (h : Heap) (r : ref) : Prop := (r < next h)%nat.

Definition wellFormed (h : Heap) (updatedNode : ref) (nodeList : list ref)
  : Prop :=
  valid h updatedNode /\
  Forall (fun n => valid h n /\ Forall (valid h) (kids h n)) nodeList.

(** [h'] has every object of [h], unchanged. *)
Definition extends (h h' : Heap) : Prop :=
  (next h <= next h')%nat /\
  forall r, valid h r -> deref h' r = deref h r.

(** [Rep h v r]: the object at [r], read through the store with all its
    nested objects, is the node value [v]. *)
#[warnings="-register-all"]
Inductive Rep (h : Heap) : FlowNode -> ref -> Prop :=
| rep_single b k r :
    valid h r -> deref h r = SingleObj b k ->
    Rep h (SingleNode b k) r
| rep_branch b vs rs r :
    valid h r -> deref h r = BranchObj b rs ->
    Forall2 (Rep h) vs rs ->
    Rep h (BranchNode b vs) r
| rep_block b vs rs w hh r :
    valid h r -> deref h r = BlockObj b rs w hh ->
    Forall2 (Rep h) vs rs ->
    Rep h (BlockNode b vs w hh) r.

(** A store with a time marker, a branch with two children and an edited
    copy of the second child. *)
Definition sampleHeap : Heap :=
  mkHeap 5%nat (fun r =>
    match r with
    | 0%nat => SingleObj (mkBase "1" "08:00" (Some "起床") None None None None)
                         time
    | 1%nat => SingleObj (mkBase "2a" "洗漱" None None None None None) task
    | 2%nat => SingleObj (mkBase "2b" "刷早报" None None None None None) task
    | 3%nat => BranchObj (mkBase "2" "晨间惯例" None None None None None)
                         [1%nat; 2%nat]
    | _ => SingleObj (mkBase "2b" "读书" None None None None None) task
    end).

End Refs.

(** ** Identifiers that an operation introduces *)

(** [NoDup] as a test. *)
Fixpoint distinct (ids : list string) : bool :=
  match ids with
  | [] => true
  | x :: rest => negb (existsb (String.eqb x) rest) && distinct rest
  end.

Definition occurs (x : string) (l : list FlowNode) : bool :=
  existsb (String.eqb x) (allIds l).

(** None of the identifiers of [n] is in the tree [l]. *)
Definition freshNode (n : FlowNode) (l : list FlowNode) : bool :=
  forallb (fun x => negb (occurs x l)) (nodeIds n).

(** The replacement [u] has distinct identifiers, and an identifier of one
    of its children that is already in the tree belongs to a child of the
    top-level node that [u] replaces. *)
Definition admissibleUpdate (u : FlowNode) (l : list FlowNode) : bool :=
  distinct (nodeIds u) &&
  forallb (fun x =>
             negb (occurs x l) ||
             existsb (fun n => (nodeId n =? nodeId u) &&
                               existsb (String.eqb x)
                                       (map nodeId (children n))) l)
          (map nodeId (children u)).

Definition opFresh (st : App) (op : Op) : bool :=
  match op with
  | AddNode ty now => freshNode (createNode ty now) (nodes st)
  | DropNode d _ _ now =>
      match source d with
      | sidebar => freshNode (createNode (dragType d) now) (nodes st)
      | _ => true
      end
  | UpdateNode u => admissibleUpdate u (nodes st)
  | DeleteNode _ => true
  end.

Fixpoint opsFresh (st : App) (ops : list Op) : bool :=
  match ops with
  | [] => true
  | op :: rest => opFresh st op && opsFresh (step st op) rest
  end.

(** ** Where a drop takes its node from *)

(** [Drops d now st n rest]: the drop of payload [d] inserts [n] into
    [rest]; a palette drop makes [n] and keeps the sequence, a canvas drop
    takes the first top-level node whose identifier is the payload's out of
    the sequence. *)
Inductive Drops (d : DragData) (now : N) (st : App)
  : FlowNode -> list FlowNode -> Prop :=
| drops_sidebar :
    source d = sidebar ->
    Drops d now st (createNode (dragType d) now) (nodes st)
| drops_canvas l1 n l2 :
    source d = canvas ->
    dragId d = Some (nodeId n) ->
    nodes st = l1 ++ n :: l2 ->
    (forall m, In m l1 -> nodeId m <> nodeId n) ->
    Drops d now st n (l1 ++ l2).

(** ** What it means to remove one node *)

(** [RemovedOne i l l']: [l'] is [l] with exactly one node excised, a node
    whose identifier is [i]; it sat either in the top-level sequence or in
    the nested list of one top-level branch or block. *)
Inductive RemovedOne (i : string) : list FlowNode -> list FlowNode -> Prop :=
| removed_top l1 n l2 :
    nodeId n = i ->
    RemovedOne i (l1 ++ n :: l2) (l1 ++ l2)
| removed_nested l1 p l2 c1 c c2 :
    children p = c1 ++ c :: c2 ->
    nodeId c = i ->
    RemovedOne i (l1 ++ p :: l2) (l1 ++ withChildren p (c1 ++ c2) :: l2).

(** The number of nested nodes of a sequence: branch children and block
    side events together. *)
Definition nestedCount (l : list FlowNode) : nat :=
  list_sum (map (fun n => List.length (children n)) l).

(** ** components/Sidebar.tsx *)

(** [handleDragStart] of a palette tool: the payload written to the
    transfer. *)
Definition sidebarDragStart (type : NodeType) : DragData :=
  mkDrag sidebar None type.

(** ** components/PropertiesPanel.tsx: editing the selected node *)

(** The panel works on [selectedNode = findNode(selectedNodeId)] and shows
    a placeholder, without handlers, when there is none. *)
Definition withSelected (selectedNodeId : option string)
  (nodes : list FlowNode) (handler : FlowNode -> option Callback)
  : option Callback :=
  match selectedNodeId with
  | Some i =>
      if truthy selectedNodeId then
        match findNode i nodes with
        | Some selectedNode => handler selectedNode
        | None => None
        end
      else None
  | None => None
  end.

(** The calls of [handleChange(field, value)] that the panel makes. *)
Inductive FieldEdit :=
| EditTitle (value : string)
| EditSubtitle (value : string)
| EditDuration (value : string)
| EditColor (value : string)
| EditIsDashedConnection (value : bool).

(** [{ ...b, [field]: value }] on the shared attributes. *)
Definition setField (e : FieldEdit) (b : BaseNode) : BaseNode :=
  match e with
  | EditTitle v =>
      mkBase (id b) v (subtitle b) (duration b) (icon b) (color b)
             (isDashedConnection b)
  | EditSubtitle v =>
      mkBase (id b) (title b) (Some v) (duration b) (icon b) (color b)
             (isDashedConnection b)
  | EditDuration v =>
      mkBase (id b) (title b) (subtitle b) (Some v) (icon b) (color b)
             (isDashedConnection b)
  | EditColor v =>
      mkBase (id b) (title b) (subtitle b) (duration b) (icon b) (Some v)
             (isDashedConnection b)
  | EditIsDashedConnection v =>
      mkBase (id b) (title b) (subtitle b) (duration b) (icon b) (color b)
             (Some v)
  end.

Definition withBase (n : FlowNode) (b : BaseNode) : FlowNode :=
  match n with
  | SingleNode _ k => SingleNode b k
  | BranchNode _ bs => BranchNode b bs
  | BlockNode _ se w h => BlockNode b se w h
  end.

Definition handleChange (e : FieldEdit) (selectedNode : FlowNode)
  : option Callback :=
  Some (OnUpdateNode (withBase selectedNode (setField e (baseOf selectedNode)))).

Definition deleteSideEvent (eventId : string) (selectedNode : FlowNode)
  : option Callback :=
  match selectedNode with
  | BlockNode b se w h =>
      Some (OnUpdateNode
              (BlockNode b (filter (fun evt => negb (nodeId evt =? eventId)) se)
                         w h))
  | _ => None
  end.

(** ** components/NodeComponents.tsx: the side-events note and the shape *)

Section SideEventsNote.

(** The block that the note is rendered for. *)
Variable base : BaseNode.
Variable sideEvents : list FlowNode.
Variables customWidth customHeight : option Q.

Definition handleDeleteSideEvent (eventId : string) : Callback :=
  OnUpdateNode
    (BlockNode base
       (filter (fun evt => negb (nodeId evt =? eventId)) sideEvents)
       customWidth customHeight).

End SideEventsNote.

(** The pixel size [NodeShape] gives a block. *)
Definition blockSize (node : FlowNode) : Q * Q :=
  match node with
  | BlockNode _ _ w h => (orDefault w 128, orDefault h 128)
  | _ => (128, 128)
  end.

(** ** constants.tsx and the default layouts *)

Definition INITIAL_NODES : list FlowNode :=
  INITIAL_NODES_head ++
  [ BlockNode (mkBase "block_2" "饭后消遣" (Some "放松休息时间")
                      (Some "60 mins") (Some "Hourglass") (Some "violet")
                      None)
      [] None None;
    SingleNode (mkBase "place_home" "家" (Some "开始通勤 (地铁)")
                       (Some "5 mins") None (Some "yellow") (Some true))
               place;
    SingleNode (mkBase "place_office" "公司" (Some "到达办公室")
                       (Some "45 mins") None (Some "teal") None) place ].

Definition DEFAULT_LAYOUTS : list Layout :=
  [ mkLayout "layout_weekday" "工作日 (Weekday)" INITIAL_NODES;
    mkLayout "layout_weekend" "周末 (Weekend)" WEEKEND_NODES ].

(** ** App.tsx: persistence *)

Inductive SaveStatus := saved | saving | unsaved.

(** The two keys of [localStorage] that the application touches; the
    stored text is modelled by the value it parses to. *)
Record Storage := mkStorage {
  FLOWDAY_APP_DATA : option AppData;
  FLOWDAY_NODES : option string
}.

(** The part of [new Date()] that is read. *)
Record Date := mkDate { getHours : nat; getMinutes : nat }.

(** [s.padStart(2, '0')]. *)
Definition padStart2 (s : string) : string :=
  match String.length s with
  | 0%nat => "00"
  | 1%nat => "0" ++ s
  | _ => s
  end.

Definition timeString (now : Date) : string :=
  padStart2 (toString (N.of_nat (getHours now))) ++ ":" ++
  padStart2 (toString (N.of_nat (getMinutes now))).

(** The state of [App] together with the browser storage. *)
Record Session := mkSession {
  app : App;
  saveStatus : SaveStatus;
  lastSavedTime : string;
  deleteConfirmId : option string;
  storage : Storage
}.

Definition setApp (a : App) (s : Session) : Session :=
  mkSession a (saveStatus s) (lastSavedTime s) (deleteConfirmId s) (storage s).

Definition setSaveStatus (st : SaveStatus) (s : Session) : Session :=
  mkSession (app s) st (lastSavedTime s) (deleteConfirmId s) (storage s).

Definition setDeleteConfirmId (i : option string) (s : Session) : Session :=
  mkSession (app s) (saveStatus s) (lastSavedTime s) i (storage s).

(** [Object.is] on two values of type [string | null]. *)
Definition sameSelection (a b : option string) : bool :=
  match a, b with
  | None, None => true
  | Some x, Some y => x =? y
  | _, _ => false
  end.

(** The effect on [[selectedNodeId]]: once a handler has changed the
    selection from [before], a pending delete confirmation is dropped. *)
Definition selectionEffect (before : option string) (s : Session) : Session :=
  if sameSelection before (selectedNodeId (app s)) then s
  else setDeleteConfirmId None s.

Definition getPersistentData (currentLayouts : list Layout)
  (currentActiveId : string) (currentNodes : list FlowNode) : AppData :=
  mkAppData
    (map (fun l => if layoutId l =? currentActiveId
                   then mkLayout (layoutId l) (name l) currentNodes
                   else l) currentLayouts)
    (Some currentActiveId).

(** The record that the handlers write: the current nodes merged into the
    layouts of the state. *)
Definition currentData (s : Session) : AppData :=
  getPersistentData (layouts (app s)) (activeLayoutId (app s))
                    (nodes (app s)).

(** [writeOk] tells whether [localStorage.setItem] succeeds; when it
    throws, the handler reports the failure and changes nothing. *)
Definition saveToStorage (data : AppData) (writeOk : bool) (now : Date)
  (s : Session) : Session :=
  if writeOk then
    mkSession (app s) saved (timeString now) (deleteConfirmId s)
              (mkStorage (Some data) None)
  else s.

(** The mount effect, reading the storage. *)
Definition loadEffect (now : Date) (s : Session) : Session :=
  match FLOWDAY_APP_DATA (storage s) with
  | Some savedData =>
      match savedLayouts savedData with
      | [] => s
      | _ :: _ =>
          mkSession (loadOnMount (Some savedData) (app s)) (saveStatus s)
                    (timeString now) (deleteConfirmId s) (storage s)
      end
  | None => s
  end.

(** The effect on [[nodes, activeLayoutId]]: keep [layouts] in step with
    the working copy and mark the state as unsaved. *)
Definition syncEffect (s : Session) : Session :=
  let a := app s in
  let synced :=
    mkApp (map (fun l => if layoutId l =? activeLayoutId a
                         then mkLayout (layoutId l) (name l) (nodes a)
                         else l) (layouts a))
          (activeLayoutId a) (nodes a) (selectedNodeId a) in
  mkSession synced
            (match saveStatus s with saving => saving | _ => unsaved end)
            (lastSavedTime s) (deleteConfirmId s) (storage s).

(** The callback of the one-second timer. *)
Definition autoSaveTimer (writeOk : bool) (now : Date) (s : Session)
  : Session :=
  match saveStatus s with
  | unsaved => saveToStorage (currentData s) writeOk now
                             (setSaveStatus saving s)
  | _ => s
  end.

Definition handleVisibilityChange (hidden writeOk : bool) (now : Date)
  (s : Session) : Session :=
  if hidden then saveToStorage (currentData s) writeOk now s else s.

Definition handleSwitchLayout (newLayoutId : string) (writeOk : bool)
  (now : Date) (s : Session) : Session :=
  if newLayoutId =? activeLayoutId (app s) then s
  else
    let s1 := saveToStorage (currentData s) writeOk now s in
    match find (fun l => layoutId l =? newLayoutId) (layouts (app s)) with
    | Some targetLayout =>
        selectionEffect (selectedNodeId (app s))
          (setApp (mkApp (layouts (app s)) newLayoutId
                         (layoutNodes targetLayout) None) s1)
    | None => s1
    end.

(** [promptResult] is what [prompt] returns, [None] when it is dismissed;
    [nowMs] is the reading of [Date.now()].  The second component is the
    record that the zero-delay timer writes afterwards. *)
Definition handleCreateLayout (promptResult : option string) (nowMs : N)
  (writeOk : bool) (now : Date) (s : Session) : Session * option AppData :=
  match promptResult with
  | Some layoutName =>
      if truthy promptResult then
        let s1 := saveToStorage (currentData s) writeOk now s in
        let newId := ("layout_" ++ toString nowMs)%string in
        let newLayout := mkLayout newId layoutName [] in
        (selectionEffect (selectedNodeId (app s))
           (setApp (mkApp (layouts (app s) ++ [newLayout]) newId [] None) s1),
         Some (getPersistentData (layouts (app s) ++ [newLayout]) newId []))
      else (s, None)
  | None => (s, None)
  end.

(** The second component is the record that the 300 ms timer writes. *)
Definition handleManualSave (s : Session) : Session * AppData :=
  (setSaveStatus saving s, currentData s).

Definition handleResetData (confirmed : bool) (s : Session) : Session :=
  if confirmed then
    selectionEffect (selectedNodeId (app s))
      (mkSession (mkApp DEFAULT_LAYOUTS "layout_weekday" INITIAL_NODES None)
                 saved "" (deleteConfirmId s) (mkStorage None None))
  else s.

(** ** App.tsx: selection and the Backspace key *)

(** [setSelectedNodeId] as the components call it. *)
Definition selectNode (i : option string) (s : Session) : Session :=
  selectionEffect (selectedNodeId (app s))
                  (setApp (setSelectedNodeId i (app s)) s).

(** A tree operation run by [App]. *)
Definition applyOp (op : Op) (s : Session) : Session :=
  selectionEffect (selectedNodeId (app s)) (setApp (step (app s) op) s).

(** [activeTag] is the lower-cased tag name of the focused element.  The
    second component is the identifier for which the three-second timer is
    armed. *)
Definition handleKeyDown (key activeTag : string) (isContentEditable : bool)
  (s : Session) : Session * option string :=
  if (activeTag =? "input") || (activeTag =? "textarea") || isContentEditable
  then (s, None)
  else
    match selectedNodeId (app s) with
    | Some selected =>
        if (key =? "Backspace") && truthy (selectedNodeId (app s)) then
          if strictEq (deleteConfirmId s) (selectedNodeId (app s)) then
            (setDeleteConfirmId None (applyOp (DeleteNode selected) s), None)
          else (setDeleteConfirmId (Some selected) s, Some selected)
        else (s, None)
    | None => (s, None)
    end.

(** The callback of the three-second timer armed for [armed]. *)
Definition confirmTimeout (armed : string) (s : Session) : Session :=
  if strictEq (deleteConfirmId s) (Some armed)
  then setDeleteConfirmId None s else s.

(** [useState] initial values of [App], over a given storage. *)
Definition initialSession (st : Storage) : Session :=
  mkSession (mkApp DEFAULT_LAYOUTS "layout_weekday" INITIAL_NODES None)
            saved "" None st.

(** What happens between two explicit saves: tree operations, runs of the
    effect on [[nodes, activeLayoutId]], firings of the one-second timer. *)
Inductive SessionEvent :=
| Edited (op : Op)
| Synced
| TimerFired (writeOk : bool) (now : Date).

Definition sessionStep (s : Session) (ev : SessionEvent) : Session :=
  match ev with
  | Edited op => applyOp op s
  | Synced => syncEffect s
  | TimerFired writeOk now => autoSaveTimer writeOk now s
  end.

(** ** components/FlowCanvas.tsx: panning and the view mode *)

Definition setIsPanning (b : bool) (c : Canvas) : Canvas :=
  mkCanvas (viewMode c) (isDragging c) (isOverTrash c) (zoom c) (pan c)
           b (dragOverId c) (dropPosition c).

Definition setViewMode (m : ViewMode) (c : Canvas) : Canvas :=
  mkCanvas m (isDragging c) (isOverTrash c) (zoom c) (pan c)
           (isPanning c) (dragOverId c) (dropPosition c).

(** The canvas state with the mutable [lastMousePos] ref. *)
Record CanvasRefs := mkRefs {
  canvasState : Canvas;
  lastMousePos : Pan
}.

(** [button] is [e.button]: 1 is the middle and 2 the right button. *)
Definition handleMouseDown (button : nat) (e : Event) (r : CanvasRefs)
  : CanvasRefs :=
  if (button =? 2)%nat || (button =? 1)%nat then
    mkRefs (setIsPanning true (canvasState r))
           (mkPan (clientX e) (clientY e))
  else r.

Definition handleMouseMove (e : Event) (r : CanvasRefs) : CanvasRefs :=
  if isPanning (canvasState r) then
    let dx := clientX e - panX (lastMousePos r) in
    let dy := clientY e - panY (lastMousePos r) in
    mkRefs (setPan (mkPan (panX (pan (canvasState r)) + dx)
                          (panY (pan (canvasState r)) + dy))
                   (canvasState r))
           (mkPan (clientX e) (clientY e))
  else r.

Definition handleMouseUp (r : CanvasRefs) : CanvasRefs :=
  mkRefs (setIsPanning false (canvasState r)) (lastMousePos r).

(** The view toggle button, followed by the effect on [[viewMode]] that
    resets pan and zoom. *)
Definition toggleViewMode (c : Canvas) : Canvas :=
  let c1 := setViewMode (match viewMode c with
                         | vertical => mapView
                         | mapView => vertical
                         end) c in
  setZoom 1 (setPan (mkPan 0 0) c1).

(** [handleDragOver] of the container; [onContainer] is
    [e.target === e.currentTarget]. *)
Definition handleDragOver (onContainer : bool) (c : Canvas) : Canvas :=
  if onContainer then setDropPosition None (setDragOverId None c) else c.

(** Everything that happens to the canvas, as events. *)
Inductive CanvasEvent :=
| ZoomInClick
| ZoomOutClick
| ResetZoomClick
| ViewToggleClick
| Wheel (e : Event) (containerRect : option DOMRect)
| MouseDown (button : nat) (e : Event)
| MouseMove (e : Event)
| MouseUp
| DragStarted
| DragOverContainer (onContainer : bool)
| DragOverNode (e : Event) (rect : DOMRect) (i : string) (index : nat)
| DragOverTrash
| DragLeaveTrash
| Drop (transfer : option DragData).

Definition onCanvas (f : Canvas -> Canvas) (r : CanvasRefs) : CanvasRefs :=
  mkRefs (f (canvasState r)) (lastMousePos r).

Definition canvasStep (r : CanvasRefs) (ev : CanvasEvent) : CanvasRefs :=
  match ev with
  | ZoomInClick => onCanvas handleZoomIn r
  | ZoomOutClick => onCanvas handleZoomOut r
  | ResetZoomClick => onCanvas handleResetZoom r
  | ViewToggleClick => onCanvas toggleViewMode r
  | Wheel e rect => onCanvas (handleWheel e rect) r
  | MouseDown button e => handleMouseDown button e r
  | MouseMove e => handleMouseMove e r
  | MouseUp => handleMouseUp r
  | DragStarted => onCanvas (setIsDragging true) r
  | DragOverContainer b => onCanvas (handleDragOver b) r
  | DragOverNode e rect i index => onCanvas (nodeDragOver e rect i index) r
  | DragOverTrash => onCanvas trashDragOver r
  | DragLeaveTrash => onCanvas (setIsOverTrash false) r
  | Drop transfer => onCanvas (fun c => fst (handleDrop transfer c)) r
  end.

(** [useState] initial values of [FlowCanvas]. *)
Definition initialCanvas : CanvasRefs :=
  mkRefs (mkCanvas vertical false false 1 (mkPan 0 0) false None None)
         (mkPan 0 0).

(** The range in which both the buttons and the wheel keep the zoom. *)
Definition zoomInRange (r : CanvasRefs) : Prop :=
  (2 # 10) <= zoom (canvasState r) /\ zoom (canvasState r) <= 3.

(** ** components/FlowCanvas.tsx: the map layout *)

Definition GRID_W : nat := 260.
Definition GRID_H : nat := 220.
Definition COLS : nat := 4.
Definition OFFSET_X : nat := 150.
Definition OFFSET_Y : nat := 150.

(** One entry of [positions]; indices and pixel coordinates are
    non-negative integers. *)
Record MapPosition := mkMapPosition {
  posX : nat;
  posY : nat;
  posRow : nat;
  isRightEnd : bool;
  isLeftEnd : bool
}.

Definition positionAt (i : nat) : MapPosition :=
  let row := (i / COLS)%nat in
  let isEvenRow := (row mod 2 =? 0)%nat in
  let col := if isEvenRow then (i mod COLS)%nat
             else (COLS - 1 - i mod COLS)%nat in
  mkMapPosition (col * GRID_W + OFFSET_X)%nat (row * GRID_H + OFFSET_Y)%nat
                row
                (isEvenRow && (col =? COLS - 1)%nat)
                (negb isEvenRow && (col =? 0)%nat).

Definition positions (nodes : list FlowNode) : list MapPosition :=
  map positionAt (seq 0 (List.length nodes)).

(** [contentSize]: the running maxima start at 0. *)
Definition contentSize (nodes : list FlowNode) : nat * nat :=
  let maxX := fold_left (fun m p => if (m <? posX p)%nat then posX p else m)
                        (positions nodes) 0%nat in
  let maxY := fold_left (fun m p => if (m <? posY p)%nat then posY p else m)
                        (positions nodes) 0%nat in
  (Nat.max (maxX + 250) 800, Nat.max (maxY + 300) 800).

(** The three ways in which the path goes from one position to the next. *)
Inductive Segment := Line | TurnCurve | OutwardCurve.

Definition segmentKind (curr next : MapPosition) : Segment :=
  if (posRow curr =? posRow next)%nat then Line
  else if (posX curr =? posX next)%nat then TurnCurve
  else OutwardCurve.

(** ** components/FlowCanvas.tsx: the viewport on IEEE 754 doubles *)

(** [zoom], [pan] and the coordinates of events are JS numbers, that is
    binary64 floating-point values.  This module has the wheel and mouse
    handlers with that arithmetic: a decimal literal denotes the nearest
    double and every operation rounds to nearest, as in the code. *)
Module Doubles.
Local Open Scope float_scope.

(** [Math.max(a, b)]: NaN when an argument is NaN, and +0 above -0. *)
Definition Math_max (a b : float) : float :=
  if is_nan a || is_nan b then nan
  else if a <? b then b
  else if b <? a then a
  else match classify a with NZero => b | _ => a end.

(** [Math.min(a, b)]: NaN when an argument is NaN, and -0 below +0. *)
Definition Math_min (a b : float) : float :=
  if is_nan a || is_nan b then nan
  else if a <? b then a
  else if b <? a then b
  else match classify a with PZero => b | _ => a end.

Record Pan := mkPan { panX : float; panY : float }.

Record Canvas := mkCanvas {
  viewMode : ViewMode;
  isDragging : bool;
  isOverTrash : bool;
  zoom : float;
  pan : Pan;
  isPanning : bool;
  dragOverId : option string;
  dropPosition : option Position
}.

Record Event := mkEvent {
  buttons : nat;
  ctrlKey : bool;
  clientX : float;
  clientY : float;
  deltaX : float;
  deltaY : float
}.

Record DOMRect := mkRect {
  rectLeft : float;
  rectTop : float;
  rectWidth : float;
  rectHeight : float
}.

Definition setZoom (z : float) (c : Canvas) : Canvas :=
  mkCanvas (viewMode c) (isDragging c) (isOverTrash c) z (pan c)
           (isPanning c) (dragOverId c) (dropPosition c).

Definition setPan (p : Pan) (c : Canvas) : Canvas :=
  mkCanvas (viewMode c) (isDragging c) (isOverTrash c) (zoom c) p
           (isPanning c) (dragOverId c) (dropPosition c).

Definition setIsPanning (b : bool) (c : Canvas) : Canvas :=
  mkCanvas (viewMode c) (isDragging c) (isOverTrash c) (zoom c) (pan c)
           b (dragOverId c) (dropPosition c).

Definition handleWheel (e : Event) (containerRect : option DOMRect)
  (c : Canvas) : Canvas :=
  if (buttons e =? 2)%nat || ctrlKey e then
    match containerRect with
    | None => c
    | Some r =>
        let mouseX := clientX e - rectLeft r in
        let mouseY := clientY e - rectTop r in
        let worldX := (mouseX - panX (pan c)) / zoom c in
        let worldY := (mouseY - panY (pan c)) / zoom c in
        let scaleAmount := - deltaY e * 0.001 in
        let newZoom := Math_min (Math_max (zoom c + scaleAmount) 0.2) 3 in
        let newPanX := mouseX - worldX * newZoom in
        let newPanY := mouseY - worldY * newZoom in
        setPan (mkPan newPanX newPanY) (setZoom newZoom c)
    end
  else
    let panSpeed := 1 in
    setPan (mkPan (panX (pan c) - deltaX e * panSpeed)
                  (panY (pan c) - deltaY e * panSpeed)) c.

(** The canvas state with the mutable [lastMousePos] ref. *)
Record CanvasRefs := mkRefs {
  canvasState : Canvas;
  lastMousePos : Pan
}.

(** [button] is [e.button]: 1 is the middle and 2 the right button. *)
Definition handleMouseDown (button : nat) (e : Event) (r : CanvasRefs)
  : CanvasRefs :=
  if (button =? 2)%nat || (button =? 1)%nat then
    mkRefs (setIsPanning true (canvasState r))
           (mkPan (clientX e) (clientY e))
  else r.

Definition handleMouseMove (e : Event) (r : CanvasRefs) : CanvasRefs :=
  if isPanning (canvasState r) then
    let dx := clientX e - panX (lastMousePos r) in
    let dy := clientY e - panY (lastMousePos r) in
    mkRefs (setPan (mkPan (panX (pan (canvasState r)) + dx)
                          (panY (pan (canvasState r)) + dy))
                   (canvasState r))
           (mkPan (clientX e) (clientY e))
  else r.

Definition handleMouseUp (r : CanvasRefs) : CanvasRefs :=
  mkRefs (setIsPanning false (canvasState r)) (lastMousePos r).

(** The pan after one move from pointer position [a] to [b]. *)
Definition panBy (p : Pan) (ab : Event * Event) : Pan :=
  mkPan (panX p + (clientX (snd ab) - clientX (fst ab)))
        (panY p + (clientY (snd ab) - clientY (fst ab))).

End Doubles.

(** * Properties *)

(** ** Lists and identifiers *)

Lemma filter_all {A} (f : A -> bool) (l : list A) :
  (forall x, In x l -> f x = true) -> filter f l = l.
Proof.
  intros H. apply forallb_filter_id. apply forallb_forall. exact H.
Qed.

Lemma NoDup_app_inv {A} (l1 l2 : list A) :
  NoDup (l1 ++ l2) ->
  NoDup l1 /\ NoDup l2 /\ (forall a, In a l1 -> ~ In a l2).
Proof.
  intros H. split; [|split].
  - now apply NoDup_app_remove_r in H.
  - now apply NoDup_app_remove_l in H.
  - induction l1 as [|x l1 IH]; intros a Ha; [destruct Ha|].
    simpl in H. apply NoDup_cons_iff in H. destruct H as [Hx Hr].
    destruct Ha as [-> | Ha].
    + intros H2. apply Hx, in_or_app. now right.
    + now apply IH.
Qed.

Lemma keep_other_ids (i : string) (cs : list FlowNode) :
  ~ In i (map nodeId cs) ->
  filter (fun c => negb (nodeId c =? i)) cs = cs.
Proof.
  intros Hn. apply filter_all. intros c Hc.
  destruct (String.eqb_spec (nodeId c) i) as [E | E]; [|reflexivity].
  exfalso. apply Hn. rewrite <- E. now apply in_map.
Qed.

Lemma withChildren_children (n : FlowNode) : withChildren n (children n) = n.
Proof. now destruct n. Qed.

Lemma nodeId_withChildren (n : FlowNode) (cs : list FlowNode) :
  nodeId (withChildren n cs) = nodeId n.
Proof. now destruct n. Qed.

(** The function mapped by [deleteRecursive] over the surviving nodes. *)
Lemma deleteRecursive_cons (i : string) (n : FlowNode) (l : list FlowNode) :
  deleteRecursive i (n :: l) =
    if nodeId n =? i then deleteRecursive i l
    else withChildren n (filter (fun c => negb (nodeId c =? i)) (children n))
         :: deleteRecursive i l.
Proof.
  unfold deleteRecursive. simpl.
  destruct (nodeId n =? i); simpl; [reflexivity|].
  now destruct n.
Qed.

Lemma allIds_cons (n : FlowNode) (l : list FlowNode) :
  allIds (n :: l) = nodeId n :: map nodeId (children n) ++ allIds l.
Proof. reflexivity. Qed.

Lemma allIds_app (l1 l2 : list FlowNode) :
  allIds (l1 ++ l2) = allIds l1 ++ allIds l2.
Proof. apply flat_map_app. Qed.

(** ** Deletion *)

Lemma deleteRecursive_absent (i : string) (l : list FlowNode) :
  ~ In i (allIds l) -> deleteRecursive i l = l.
Proof.
  induction l as [|n l IH]; intros Hn; [reflexivity|].
  rewrite allIds_cons in Hn. rewrite deleteRecursive_cons.
  destruct (String.eqb_spec (nodeId n) i) as [E | E].
  - exfalso. apply Hn. now left.
  - rewrite keep_other_ids, withChildren_children, IH; [reflexivity| |].
    + intros H. apply Hn. right. apply in_or_app. now right.
    + intros H. apply Hn. right. apply in_or_app. now left.
Qed.

Lemma deleteRecursive_idempotent (i : string) (l : list FlowNode) :
  deleteRecursive i (deleteRecursive i l) = deleteRecursive i l.
Proof.
  induction l as [|n l IH]; [reflexivity|].
  rewrite deleteRecursive_cons.
  destruct (String.eqb_spec (nodeId n) i) as [E | E]; [exact IH|].
  rewrite deleteRecursive_cons, nodeId_withChildren.
  destruct (String.eqb_spec (nodeId n) i) as [E' | _]; [contradiction|].
  rewrite IH. f_equal.
  destruct n as [b k | b bs | b se w h]; simpl; [reflexivity| |];
    f_equal; apply filter_all; intros c Hc;
    apply filter_In in Hc; tauto.
Qed.

Lemma RemovedOne_cons (i : string) (n : FlowNode) (l l' : list FlowNode) :
  RemovedOne i l l' -> RemovedOne i (n :: l) (n :: l').
Proof.
  intros [l1 m l2 Hm | l1 p l2 c1 c c2 Hp Hc].
  - apply (removed_top i (n :: l1) m l2 Hm).
  - apply (removed_nested i (n :: l1) p l2 c1 c c2 Hp Hc).
Qed.

(** Filtering a list whose identifiers are distinct drops one element. *)
Lemma filter_drops_one (i : string) (cs : list FlowNode) :
  NoDup (map nodeId cs) -> In i (map nodeId cs) ->
  exists c1 c c2, cs = c1 ++ c :: c2 /\ nodeId c = i /\
    filter (fun c => negb (nodeId c =? i)) cs = c1 ++ c2.
Proof.
  intros Hnd Hin. apply in_map_iff in Hin. destruct Hin as (c & Hc & Hin).
  apply in_split in Hin. destruct Hin as (c1 & c2 & ->).
  exists c1, c, c2. repeat split; [assumption|].
  rewrite map_app in Hnd. simpl in Hnd. rewrite Hc in Hnd.
  pose proof (NoDup_remove_2 _ _ _ Hnd) as Hout.
  rewrite filter_app. simpl. rewrite Hc, String.eqb_refl. simpl.
  rewrite !keep_other_ids; [reflexivity| |];
    intros H; apply Hout; apply in_or_app; tauto.
Qed.

Lemma deleteRecursive_present (i : string) (l : list FlowNode) :
  NoDup (allIds l) -> In i (allIds l) ->
  RemovedOne i l (deleteRecursive i l).
Proof.
  induction l as [|n l IH]; intros Hnd Hin; [destruct Hin|].
  rewrite allIds_cons in Hnd, Hin. rewrite deleteRecursive_cons.
  pose proof (NoDup_cons_iff (nodeId n) (map nodeId (children n) ++ allIds l))
    as [Hsplit _].
  destruct (Hsplit Hnd) as [Hfresh Hrest]. clear Hsplit.
  apply NoDup_app_inv in Hrest. destruct Hrest as (Hkids & Htail & Hdisj).
  destruct (String.eqb_spec (nodeId n) i) as [E | E].
  - rewrite deleteRecursive_absent.
    + apply (removed_top i [] n l E).
    + intros H. apply Hfresh. rewrite E. apply in_or_app. now right.
  - destruct Hin as [Hin | Hin]; [contradiction|].
    apply in_app_or in Hin. destruct Hin as [Hin | Hin].
    + destruct (filter_drops_one i (children n) Hkids Hin)
        as (c1 & c & c2 & Hcs & Hc & Hf).
      rewrite Hf, deleteRecursive_absent.
      * apply (removed_nested i [] n l c1 c c2 Hcs Hc).
      * intros H. apply (Hdisj i Hin H).
    + rewrite keep_other_ids, withChildren_children.
      * apply RemovedOne_cons, IH; assumption.
      * intros H. apply (Hdisj i H Hin).
Qed.

(** Excising one node takes one node off the top level, or leaves the top
    level at its length and takes one node off the nested lists. *)
Lemma RemovedOne_counts (i : string) (l l' : list FlowNode) :
  RemovedOne i l l' ->
  (List.length l' + 1 = List.length l)%nat \/
  (List.length l' = List.length l /\
   nestedCount l' + 1 = nestedCount l)%nat.
Proof.
  intros [l1 n l2 Hn | l1 p l2 c1 c c2 Hp Hc].
  - left. rewrite !List.length_app. simpl. lia.
  - right. unfold nestedCount.
    rewrite !List.length_app, !map_app, !list_sum_app. simpl.
    split; [reflexivity|]. rewrite Hp.
    destruct p as [b k | b bs | b se w h]; simpl in Hp |- *.
    + destruct c1; discriminate Hp.
    + rewrite !List.length_app. simpl. lia.
    + rewrite !List.length_app. simpl. lia.
Qed.

(** C2. On a sequence whose identifiers are pairwise distinct across the top
    level and the nested lists, [deleteRecursive i] removes exactly one node
    when [i] occurs: the result is the sequence with one node excised, at the
    top level (a branch or block goes with its nested list), in a branch or
    in a block; counted over the lists, either the top level loses one node
    or it keeps its length and the nested lists together lose one.  When
    [i] does not occur the sequence is returned as it is, and deleting [i] a
    second time changes nothing. *)
Theorem deleteRecursive_complete (l : list FlowNode) (i : string) :
  NoDup (allIds l) ->
  (In i (allIds l) ->
   RemovedOne i l (deleteRecursive i l) /\
   ((List.length (deleteRecursive i l) + 1 = List.length l)%nat \/
    (List.length (deleteRecursive i l) = List.length l /\
     nestedCount (deleteRecursive i l) + 1 = nestedCount l)%nat)) /\
  (~ In i (allIds l) -> deleteRecursive i l = l) /\
  deleteRecursive i (deleteRecursive i l) = deleteRecursive i l.
Proof.
  intros Hnd. split; [|split].
  - intros Hin. pose proof (deleteRecursive_present i l Hnd Hin) as H.
    split; [exact H | exact (RemovedOne_counts i _ _ H)].
  - apply deleteRecursive_absent.
  - apply deleteRecursive_idempotent.
Qed.

(** ** Viewport *)

Lemma clamp_bounds (a lo hi : Q) :
  lo <= hi -> lo <= Qmin (Qmax a lo) hi /\ Qmin (Qmax a lo) hi <= hi.
Proof.
  intros H. split.
  - apply Q.min_glb; [apply Q.le_max_r | exact H].
  - apply Q.le_min_r.
Qed.

Lemma handleWheel_zoom_mode (e : Event) (r : DOMRect) (c : Canvas) :
  (buttons e =? 2)%nat || ctrlKey e = true ->
  handleWheel e (Some r) c =
    let mouseX := clientX e - rectLeft r in
    let mouseY := clientY e - rectTop r in
    let newZoom := Qmin (Qmax (zoom c + - deltaY e * (1 # 1000)) (2 # 10)) 3 in
    setPan (mkPan (mouseX - (mouseX - panX (pan c)) / zoom c * newZoom)
                  (mouseY - (mouseY - panY (pan c)) / zoom c * newZoom))
           (setZoom newZoom c).
Proof. intros H. unfold handleWheel. rewrite H. reflexivity. Qed.

(** C3, as stated, fails on the numbers of the code.  At zoom 0.2 and pan
    x = 30, with the control key held, a wheel step of -100 with the
    pointer at x = 14 gives the zoom 0.30000000000000004 and the pan
    x = 38; the world point under the pointer, -80, is then mapped to
    13.999999999999996 and not to 14. *)
Lemma handleWheel_counterexample :
  let c := Doubles.mkCanvas vertical false false 0.2%float
                            (Doubles.mkPan 30 0) false None None in
  let e := Doubles.mkEvent 0 true 14 0 0 (-100) in
  let r := Doubles.mkRect 0 0 800 600 in
  let mx := (Doubles.clientX e - Doubles.rectLeft r)%float in
  let wx := ((mx - Doubles.panX (Doubles.pan c)) / Doubles.zoom c)%float in
  let c' := Doubles.handleWheel e (Some r) c in
  mx = 14%float /\ wx = (-80)%float /\
  Doubles.zoom c' = 0.30000000000000004%float /\
  Doubles.panX (Doubles.pan c') = 38%float /\
  (wx * Doubles.zoom c' + Doubles.panX (Doubles.pan c'))%float
    = 13.999999999999996%float /\
  (wx * Doubles.zoom c' + Doubles.panX (Doubles.pan c') =? mx)%float = false.
Proof. cbv zeta. repeat split; vm_compute; reflexivity. Qed.

(** C3, amended.  In the doubles of the code: with the zoom modifier held,
    the wheel handler sets the zoom to the clamped value [z'] and the pan
    to [(mx - wx * z', my - wy * z')], where [(wx, wy)] is the world point
    under the pointer, every operation rounded; from zoom 1 and pan (0,0),
    an event at (100,100) that produces zoom 1.5 has the world point
    (100,100) under the pointer, gives pan (-50,-50) and maps that world
    point back to (100,100).  In exact arithmetic, the same formulas over
    the rationals with a positive current zoom: the new zoom is within
    0.2 and 3, and the world point under the pointer is mapped to the
    pointer both by the old and by the new transform. *)
Theorem handleWheel_zoom_keeps_pointer :
  (forall (e : Doubles.Event) (r : Doubles.DOMRect) (c : Doubles.Canvas),
     (Doubles.buttons e =? 2)%nat || Doubles.ctrlKey e = true ->
     let mx := (Doubles.clientX e - Doubles.rectLeft r)%float in
     let my := (Doubles.clientY e - Doubles.rectTop r)%float in
     let wx := ((mx - Doubles.panX (Doubles.pan c)) / Doubles.zoom c)%float in
     let wy := ((my - Doubles.panY (Doubles.pan c)) / Doubles.zoom c)%float in
     let z' := Doubles.Math_min
                 (Doubles.Math_max
                    (Doubles.zoom c + - Doubles.deltaY e * 0.001)%float
                    0.2%float) 3%float in
     let c' := Doubles.handleWheel e (Some r) c in
     Doubles.zoom c' = z' /\
     Doubles.pan c' = Doubles.mkPan (mx - wx * z')%float (my - wy * z')%float /\
     (Doubles.zoom c = 1%float -> Doubles.pan c = Doubles.mkPan 0 0 ->
      mx = 100%float -> my = 100%float -> z' = 1.5%float ->
      wx = 100%float /\ wy = 100%float /\
      Doubles.pan c' = Doubles.mkPan (-50) (-50) /\
      (wx * Doubles.zoom c' + Doubles.panX (Doubles.pan c'))%float = mx /\
      (wy * Doubles.zoom c' + Doubles.panY (Doubles.pan c'))%float = my)) /\
  (forall (e : Event) (r : DOMRect) (c : Canvas),
     0 < zoom c ->
     (buttons e =? 2)%nat || ctrlKey e = true ->
     let mx := clientX e - rectLeft r in
     let my := clientY e - rectTop r in
     let wx := (mx - panX (pan c)) / zoom c in
     let wy := (my - panY (pan c)) / zoom c in
     let z' := Qmin (Qmax (zoom c + - deltaY e * (1 # 1000)) (2 # 10)) 3 in
     let c' := handleWheel e (Some r) c in
     zoom c' = z' /\
     pan c' = mkPan (mx - wx * z') (my - wy * z') /\
     (2 # 10) <= z' /\ z' <= 3 /\
     wx * zoom c + panX (pan c) == mx /\
     wy * zoom c + panY (pan c) == my /\
     wx * zoom c' + panX (pan c') == mx /\
     wy * zoom c' + panY (pan c') == my /\
     (zoom c == 1 -> panX (pan c) == 0 -> panY (pan c) == 0 ->
      mx == 100 -> my == 100 -> z' == 15 # 10 ->
      panX (pan c') == -50 /\ panY (pan c') == -50)).
Proof.
  split.
  - intros e r c Hmod mx my wx wy z' c'.
    assert (Hc : c' = Doubles.setPan
                        (Doubles.mkPan (mx - wx * z')%float
                                       (my - wy * z')%float)
                        (Doubles.setZoom z' c)).
    { unfold c', Doubles.handleWheel. rewrite Hmod. reflexivity. }
    assert (Hwx : wx = ((mx - Doubles.panX (Doubles.pan c))
                        / Doubles.zoom c)%float) by reflexivity.
    assert (Hwy : wy = ((my - Doubles.panY (Doubles.pan c))
                        / Doubles.zoom c)%float) by reflexivity.
    clearbody mx my wx wy z' c'. subst c'.
    cbn [Doubles.zoom Doubles.pan Doubles.setPan Doubles.setZoom
         Doubles.panX Doubles.panY].
    split; [reflexivity|]. split; [reflexivity|].
    intros Hz Hp Hmx Hmy Hz'.
    rewrite Hp, Hz, Hmx in Hwx. rewrite Hp, Hz, Hmy in Hwy.
    cbn [Doubles.panX Doubles.panY] in Hwx, Hwy.
    subst mx my z' wx wy. repeat split; vm_compute; reflexivity.
  - intros e r c Hpos Hmod mx my wx wy z' c'.
    assert (Hz : ~ zoom c == 0) by (intros E; lra).
    assert (Hc : c' = setPan (mkPan (mx - wx * z') (my - wy * z'))
                             (setZoom z' c))
      by (apply handleWheel_zoom_mode, Hmod).
    rewrite Hc. simpl.
    split; [reflexivity|]. split; [reflexivity|].
    destruct (clamp_bounds (zoom c + - deltaY e * (1 # 1000)) (2 # 10) 3)
      as [B1 B2]; [lra|].
    split; [exact B1|]. split; [exact B2|].
    split; [unfold wx; field; exact Hz|].
    split; [unfold wy; field; exact Hz|].
    split; [ring|]. split; [ring|].
    intros Ez Epx Epy Emx Emy Ez'.
    unfold wx, wy. rewrite Ez, Epx, Epy, Emx, Emy, Ez'. split; reflexivity.
Qed.

(** Both discrete controls clamp on one side only. *)
Lemma handleZoomIn_upper (c : Canvas) : zoom (handleZoomIn c) <= 2.
Proof. simpl. apply Q.le_min_r. Qed.

Lemma handleZoomOut_lower (c : Canvas) : (2 # 10) <= zoom (handleZoomOut c).
Proof. simpl. apply Q.le_max_r. Qed.

Lemma handleWheel_zoom_range (e : Event) (r : DOMRect) (c : Canvas) :
  (buttons e =? 2)%nat || ctrlKey e = true ->
  (2 # 10) <= zoom (handleWheel e (Some r) c) /\
  zoom (handleWheel e (Some r) c) <= 3.
Proof.
  intros H. rewrite (handleWheel_zoom_mode e r c H). simpl.
  apply clamp_bounds. lra.
Qed.

(** C8. The upper bounds differ: the wheel takes the zoom from 1 up to 3,
    above the bound 2 of the zoom-in control, and zoom-in applied there
    brings the zoom down to 2. *)
Theorem zoom_upper_bounds_differ :
  let c := mkCanvas vertical false false 1 (mkPan 0 0) false None None in
  let e := mkEvent 0 true 400 300 0 (-2000) in
  let wheeled := handleWheel e (Some (mkRect 0 0 800 600)) c in
  zoom wheeled == 3 /\
  zoom (handleZoomIn wheeled) == 2 /\
  ~ zoom wheeled <= 2.
Proof.
  cbv zeta. split; [|split].
  - vm_compute. reflexivity.
  - vm_compute. reflexivity.
  - vm_compute. intros H. apply H. reflexivity.
Qed.

(** ** Block resize *)

(** C10. Every update that the resize listener emits carries
    [customWidth = max(100, startWidth + dx / zoom)] and
    [customHeight = max(100, startHeight + dy / zoom)], both at least 100,
    whatever the pointer displacement. *)
Theorem handleResizeStart_min_size (b : BaseNode) (se : list FlowNode)
  (cw ch : option Q) (zoom : Q) (e moveEvent : Event) :
  let dx := clientX moveEvent - clientX e in
  let dy := clientY moveEvent - clientY e in
  let w := Qmax 100 (orDefault cw 128 + dx / zoom) in
  let h := Qmax 100 (orDefault ch 128 + dy / zoom) in
  handleResizeStart b se cw ch zoom e moveEvent =
    OnUpdateNode (BlockNode b se (Some w) (Some h)) /\
  100 <= w /\ 100 <= h.
Proof.
  cbv zeta. split; [reflexivity|]. split; apply Q.le_max_l.
Qed.

(** ** Drop position while hovering *)




(** ** Load on mount *)

Lemma loadOnMount_known (d : AppData) (a : string) (l : Layout) (st : App) :
  savedActiveLayoutId d = Some a -> a <> "" ->
  find (fun l => layoutId l =? a) (savedLayouts d) = Some l ->
  activeLayoutId (loadOnMount (Some d) st) = a /\
  nodes (loadOnMount (Some d) st) = layoutNodes l.
Proof.
  intros Ha Hne Hf. unfold loadOnMount.
  destruct (savedLayouts d) as [|first rest] eqn:E; [discriminate Hf|].
  rewrite Ha. simpl truthy.
  destruct (String.eqb_spec a "") as [E0 | _]; [contradiction|].
  simpl negb. cbv iota. rewrite Hf. split; reflexivity.
Qed.

Lemma loadOnMount_missing (d : AppData) (first : Layout) (rest : list Layout)
  (st : App) :
  truthy (savedActiveLayoutId d) = false ->
  savedLayouts d = first :: rest ->
  activeLayoutId (loadOnMount (Some d) st) = layoutId first /\
  nodes (loadOnMount (Some d) st) = layoutNodes first.
Proof.
  intros Hf Hl. unfold loadOnMount. rewrite Hl, Hf.
  split; [reflexivity|]. simpl. rewrite String.eqb_refl. reflexivity.
Qed.

Lemma loadOnMount_unmatched (d : AppData) (a : string) (first : Layout)
  (rest : list Layout) (st : App) :
  savedActiveLayoutId d = Some a -> a <> "" ->
  savedLayouts d = first :: rest ->
  find (fun l => layoutId l =? a) (savedLayouts d) = None ->
  activeLayoutId (loadOnMount (Some d) st) = a /\
  nodes (loadOnMount (Some d) st) = layoutNodes first.
Proof.
  intros Ha Hne Hl Hf. unfold loadOnMount. rewrite Hl in *. rewrite Ha.
  simpl truthy.
  destruct (String.eqb_spec a "") as [E0 | _]; [contradiction|].
  simpl negb. cbv iota. rewrite Hf. split; reflexivity.
Qed.

(** C7. A persisted record whose active identifier names none of its
    layouts: the start-up effect keeps that identifier as the active one,
    loads the nodes of the first layout, and the active identifier then
    names no layout of the state. *)
Theorem loadOnMount_unmatched_active_id :
  let d := mkAppData [ mkLayout "layout_weekday" "工作日 (Weekday)"
                                INITIAL_NODES_head;
                       mkLayout "layout_weekend" "周末 (Weekend)"
                                WEEKEND_NODES ]
                     (Some "layout_1700000000000") in
  let st := loadOnMount (Some d) (mkApp [] "layout_weekday" [] None) in
  activeLayoutId st = "layout_1700000000000" /\
  activeLayoutId st <> "layout_weekday" /\
  nodes st = INITIAL_NODES_head /\
  find (fun l => layoutId l =? activeLayoutId st) (layouts st) = None.
Proof.
  cbv zeta. repeat split. discriminate.
Qed.

(** ** Dropping on the trash zone *)

Lemma handleDrop_resets (transfer : option DragData) (c : Canvas) :
  fst (handleDrop transfer c) =
    mkCanvas (viewMode c) false false (zoom c) (pan c) (isPanning c)
             None None.
Proof.
  unfold handleDrop. destruct transfer as [data|]; [|reflexivity].
  destruct (isOverTrash c).
  - destruct (source data); reflexivity.
  - destruct (truthy (dragOverId c)), (dropPosition c);
      try (destruct (negb _)); try (destruct (source data)); reflexivity.
Qed.

Lemma handleDrop_over_trash (data : DragData) (c : Canvas) :
  isOverTrash c = true ->
  snd (handleDrop (Some data) c) =
    match source data with
    | canvas => Some (OnDeleteNode (dragId data))
    | _ => None
    end.
Proof.
  intros H. unfold handleDrop. rewrite H. destruct (source data); reflexivity.
Qed.

(** The payload of a node dragged from the canvas, dropped on the armed
    trash zone, asks for the deletion of that node. *)
Lemma handleDrop_dragged_node (node : FlowNode) (c : Canvas) :
  snd (handleDrop (Some (handleNodeDragStart node)) (trashDragOver c)) =
    Some (OnDeleteNode (Some (nodeId node))).
Proof. reflexivity. Qed.

(** C9. Every drop resets [isDragging], [dragOverId], [dropPosition] and
    [isOverTrash].  Hovering the trash zone arms [isOverTrash]; a drop made
    in that state calls [onDeleteNode] with the payload's identifier exactly
    when the payload comes from the canvas, which deletes that node; a
    palette payload calls nothing and the node sequence stays as it is. *)
Theorem handleDrop_trash (transfer : option DragData) (c : Canvas)
  (now : N) (st : App) :
  let c' := fst (handleDrop transfer c) in
  let cb := snd (handleDrop transfer c) in
  (isDragging c' = false /\ dragOverId c' = None /\
   dropPosition c' = None /\ isOverTrash c' = false) /\
  isOverTrash (trashDragOver c) = true /\
  (isOverTrash c = true ->
   forall data, transfer = Some data ->
     (cb = Some (OnDeleteNode (dragId data)) <-> source data = canvas) /\
     (source data <> canvas -> cb = None) /\
     (source data = sidebar -> nodes (invoke cb now st) = nodes st) /\
     (source data = canvas -> forall i, dragId data = Some i ->
        nodes (invoke cb now st) = deleteRecursive i (nodes st))).
Proof.
  cbv zeta. split; [|split].
  - rewrite handleDrop_resets. repeat split.
  - reflexivity.
  - intros Htrash data ->. rewrite (handleDrop_over_trash data c Htrash).
    destruct (source data) eqn:Hs; repeat split; try congruence;
      try (intros H; discriminate H).
    intros _ i Hi. simpl. rewrite Hi. unfold handleDeleteNode.
    destruct (strictEq (selectedNodeId st) (Some i)); reflexivity.
Qed.

(** ** Insert ordering *)

Lemma findIndex_first {A} (f : A -> bool) (l1 : list A) (x : A) (l2 : list A) :
  f x = true -> (forall m, In m l1 -> f m = false) ->
  findIndex f (l1 ++ x :: l2) = Some (List.length l1).
Proof.
  intros Hx. induction l1 as [|m l1 IH]; intros Hl1; simpl.
  - now rewrite Hx.
  - rewrite (Hl1 m (or_introl eq_refl)), IH; [reflexivity|].
    intros m' Hm'. apply Hl1. now right.
Qed.

Lemma findIndex_none {A} (f : A -> bool) (l : list A) :
  (forall m, In m l -> f m = false) -> findIndex f l = None.
Proof.
  induction l as [|m l IH]; intros Hl; simpl; [reflexivity|].
  rewrite (Hl m (or_introl eq_refl)), IH; [reflexivity|].
  intros m' Hm'. apply Hl. now right.
Qed.

Lemma spliceInsert_at {A} (l1 l2 : list A) (n : A) :
  spliceInsert (List.length l1) n (l1 ++ l2) = l1 ++ n :: l2.
Proof.
  unfold spliceInsert.
  rewrite firstn_app, firstn_all, Nat.sub_diag, skipn_app, skipn_all,
    Nat.sub_diag.
  simpl. now rewrite app_nil_r.
Qed.

Lemma spliceRemove_at {A} (l1 l2 : list A) (n : A) :
  spliceRemove (List.length l1) (l1 ++ n :: l2) = l1 ++ l2 /\
  nth_error (l1 ++ n :: l2) (List.length l1) = Some n.
Proof.
  split.
  - unfold spliceRemove.
    rewrite firstn_app, firstn_all, Nat.sub_diag, skipn_app.
    rewrite (skipn_all2 l1) by lia.
    replace (S (List.length l1) - List.length l1)%nat with 1%nat by lia.
    simpl. now rewrite app_nil_r.
  - rewrite nth_error_app2 by lia. now rewrite Nat.sub_diag.
Qed.

Lemma strictEq_id (n : FlowNode) (a : string) :
  strictEq (Some (nodeId n)) (Some a) = (nodeId n =? a).
Proof. reflexivity. Qed.

Lemma placeNode_anchor (n : FlowNode) (a : string) (p : Position)
  (r1 : list FlowNode) (x : FlowNode) (r2 : list FlowNode) :
  a <> "" -> nodeId x = a -> (forall m, In m r1 -> nodeId m <> a) ->
  placeNode n (Some a) p (r1 ++ x :: r2) =
    match p with
    | before => r1 ++ n :: x :: r2
    | after => r1 ++ x :: n :: r2
    | append => (r1 ++ x :: r2) ++ [n]
    end.
Proof.
  intros Ha Hx Hr1. unfold placeNode. simpl truthy.
  destruct (String.eqb_spec a "") as [E | _]; [contradiction|]. simpl negb.
  rewrite (findIndex_first _ r1 x r2).
  - destruct p; simpl.
    + apply spliceInsert_at.
    + replace (r1 ++ x :: r2) with ((r1 ++ [x]) ++ r2)
        by (now rewrite <- app_assoc).
      replace (List.length r1 + 1)%nat with (List.length (r1 ++ [x]))
        by (rewrite List.length_app; reflexivity).
      rewrite spliceInsert_at. now rewrite <- app_assoc.
    + reflexivity.
  - rewrite strictEq_id. now apply String.eqb_eq.
  - intros m Hm. rewrite strictEq_id. apply String.eqb_neq. now apply Hr1.
Qed.

Lemma placeNode_last (n : FlowNode) (t : option string) (p : Position)
  (rest : list FlowNode) :
  p = append \/ truthy t = false \/
  (forall m, In m rest -> strictEq (Some (nodeId m)) t = false) ->
  placeNode n t p rest = rest ++ [n].
Proof.
  intros H. unfold placeNode.
  destruct (match p with append => true | _ => false end || negb (truthy t))
    eqn:E; [reflexivity|].
  apply orb_false_elim in E. destruct E as [Ep Et].
  destruct H as [-> | [Hf | Hnone]].
  - discriminate Ep.
  - rewrite Hf in Et. discriminate Et.
  - now rewrite (findIndex_none _ rest Hnone).
Qed.

(** Past the self-drop guard, [handleDropNode] places the node that the
    drop provides into what remains of the sequence. *)
Lemma handleDropNode_places (d : DragData) (t : option string) (p : Position)
  (now : N) (st : App) (n : FlowNode) (rest : list FlowNode) :
  strictEq (dragId d) t = false ->
  Drops d now st n rest ->
  nodes (handleDropNode d t p now st) = placeNode n t p rest.
Proof.
  intros Hself HD. unfold handleDropNode. rewrite Hself.
  destruct HD as [Hs | l1 n l2 Hs Hid Hl Hfirst]; rewrite Hs.
  - reflexivity.
  - rewrite Hid, Hl, (findIndex_first _ l1 n l2).
    + destruct (spliceRemove_at l1 l2 n) as [-> ->]. reflexivity.
    + rewrite strictEq_id. apply String.eqb_refl.
    + intros m Hm. rewrite strictEq_id. apply String.eqb_neq.
      now apply Hfirst.
Qed.

(** C4, as stated, fails on three guarded inputs: a canvas payload dropped
    with its own identifier as target and position [append] is not moved to
    the end; a canvas payload whose identifier is not at the top level (here
    a branch child) is not inserted at all; and an anchor whose identifier
    is the empty string counts as no target, so the node goes last rather
    than before it. *)
Lemma handleDropNode_counterexample :
  let st := mkApp [] "layout_weekend" WEEKEND_NODES None in
  let st2 := mkApp [] "layout_weekday" INITIAL_NODES_head None in
  let blank := SingleNode (mkBase "" "新节点" None None None None None) task in
  let st3 := mkApp [] "layout_weekend" (blank :: WEEKEND_NODES) None in
  map nodeId (nodes (handleDropNode (mkDrag canvas (Some "w1") (single time))
                                    (Some "w1") append 0 st))
    = ["w1"; "w2"; "w_block_1"; "w3"; "w_block_2"] /\
  map nodeId (nodes (handleDropNode (mkDrag canvas (Some "2a") (single task))
                                    (Some "task_lunch") before 0 st2))
    = ["1"; "2"; "block_1"; "task_lunch"] /\
  map nodeId (nodes (handleDropNode (mkDrag sidebar None (single task))
                                    (Some "") before 1700000000000 st3))
    = [""; "w1"; "w2"; "w_block_1"; "w3"; "w_block_2"; "1700000000000"].
Proof.
  cbv zeta. repeat split; vm_compute; reflexivity.
Qed.

(** C4, amended. A drop whose payload carries the target's identifier
    changes nothing (the self-drop guard), and neither does a canvas payload
    whose identifier is not at the top level.  Otherwise the drop provides a
    node [n] to insert into [rest] (a fresh node for a palette payload and
    the whole sequence; for a canvas payload the top-level node with its
    identifier and the sequence without it), and then: with a non-empty
    anchor identifier present in [rest], [before] puts [n] immediately in
    front of the first node with that identifier and [after] immediately
    behind it; with [append], a falsy target or an anchor that is not in
    [rest], [n] is last. *)
Theorem handleDropNode_ordering (d : DragData) (t : option string)
  (p : Position) (now : N) (st : App) :
  (strictEq (dragId d) t = true -> handleDropNode d t p now st = st) /\
  (source d = canvas ->
   (forall m, In m (nodes st) -> dragId d <> Some (nodeId m)) ->
   handleDropNode d t p now st = st) /\
  (strictEq (dragId d) t = false ->
   forall n rest,
     Drops d now st n rest ->
     (forall a r1 x r2,
        t = Some a -> a <> "" -> rest = r1 ++ x :: r2 -> nodeId x = a ->
        (forall m, In m r1 -> nodeId m <> a) ->
        (p = before ->
         nodes (handleDropNode d t p now st) = r1 ++ n :: x :: r2) /\
        (p = after ->
         nodes (handleDropNode d t p now st) = r1 ++ x :: n :: r2)) /\
     (p = append \/ truthy t = false \/
      (forall m, In m rest -> strictEq (Some (nodeId m)) t = false) ->
      nodes (handleDropNode d t p now st) = rest ++ [n])).
Proof.
  split; [|split].
  - intros Hself. unfold handleDropNode. now rewrite Hself.
  - intros Hs Hnone. unfold handleDropNode.
    destruct (strictEq (dragId d) t); [reflexivity|]. rewrite Hs.
    rewrite findIndex_none; [reflexivity|].
    intros m Hm. specialize (Hnone m Hm).
    destruct (dragId d) as [i|]; [|reflexivity].
    simpl. apply String.eqb_neq. intros E. apply Hnone. now rewrite E.
  - intros Hself n rest HD.
    rewrite (handleDropNode_places d t p now st n rest Hself HD).
    split.
    + intros a r1 x r2 -> Ha -> Hx Hr1.
      rewrite (placeNode_anchor n a p r1 x r2 Ha Hx Hr1).
      split; intros ->; reflexivity.
    + apply placeNode_last.
Qed.

(** ** Uniqueness of identifiers *)

Lemma existsb_eqb_In (x : string) (l : list string) :
  existsb (String.eqb x) l = true <-> In x l.
Proof.
  rewrite existsb_exists. split.
  - intros (y & Hy & E). apply String.eqb_eq in E. now subst.
  - intros H. exists x. split; [exact H | apply String.eqb_refl].
Qed.

Lemma distinct_NoDup (l : list string) : distinct l = true <-> NoDup l.
Proof.
  induction l as [|x l IH]; simpl.
  - split; [constructor | reflexivity].
  - rewrite andb_true_iff, negb_true_iff, IH, NoDup_cons_iff.
    rewrite <- not_true_iff_false, existsb_eqb_In. reflexivity.
Qed.

Lemma occurs_In (x : string) (l : list FlowNode) :
  occurs x l = true <-> In x (allIds l).
Proof. apply existsb_eqb_In. Qed.

Lemma freshNode_spec (n : FlowNode) (l : list FlowNode) :
  freshNode n l = true ->
  forall x, In x (nodeIds n) -> ~ In x (allIds l).
Proof.
  unfold freshNode. rewrite forallb_forall. intros H x Hx Hin.
  specialize (H x Hx). apply negb_true_iff in H.
  apply occurs_In in Hin. congruence.
Qed.

Lemma append_neq_self (s : string) (c : ascii) (t : string) :
  s <> (s ++ String c t)%string.
Proof.
  induction s as [|a s IH]; simpl; [discriminate|].
  intros E. injection E as E. exact (IH E).
Qed.

Lemma append_inj_l (s t1 t2 : string) :
  (s ++ t1)%string = (s ++ t2)%string -> t1 = t2.
Proof.
  induction s as [|a s IH]; simpl; [trivial|].
  intros E. injection E as E. exact (IH E).
Qed.

(** The identifiers that [createNode] derives from one clock reading are
    distinct from one another. *)
Lemma createNode_distinct (ty : NodeType) (now : N) :
  NoDup (nodeIds (createNode ty now)).
Proof.
  destruct ty as [k| |]; unfold createNode, nodeIds, nodeId; simpl.
  - repeat constructor. intros [].
  - set (s := toString now).
    constructor; [|constructor; [|constructor; [intros [] | constructor]]].
    + intros [E | [E | []]]; exact (append_neq_self _ _ _ (eq_sym E)).
    + intros [E | []]. apply append_inj_l in E. discriminate E.
  - repeat constructor. intros [].
Qed.

(** Inserting a node with new identifiers anywhere in the top level. *)
Lemma NoDup_insert (n : FlowNode) (l1 l2 : list FlowNode) :
  NoDup (allIds (l1 ++ l2)) -> NoDup (nodeIds n) ->
  (forall x, In x (nodeIds n) -> ~ In x (allIds (l1 ++ l2))) ->
  NoDup (allIds (l1 ++ n :: l2)).
Proof.
  intros Hl Hn Hfresh.
  apply (Permutation_NoDup (l := allIds (n :: l1 ++ l2))).
  - unfold allIds. apply Permutation_flat_map, Permutation_middle.
  - change (NoDup (nodeIds n ++ allIds (l1 ++ l2))).
    apply NoDup_app; assumption.
Qed.

Lemma spliceInsert_split {A} (k : nat) (x : A) (l : list A) :
  exists l1 l2, l = l1 ++ l2 /\ spliceInsert k x l = l1 ++ x :: l2.
Proof.
  exists (firstn k l), (skipn k l). split; [|reflexivity].
  symmetry. apply firstn_skipn.
Qed.

Lemma append_split {A} (x : A) (l : list A) :
  exists l1 l2, l = l1 ++ l2 /\ l ++ [x] = l1 ++ x :: l2.
Proof. exists l, []. now rewrite app_nil_r. Qed.

Lemma handleAddNode_inserts (ty : NodeType) (now : N) (st : App) :
  exists l1 l2, nodes st = l1 ++ l2 /\
    nodes (handleAddNode ty now st) = l1 ++ createNode ty now :: l2.
Proof.
  unfold handleAddNode.
  destruct (truthy (selectedNodeId st)); [|apply append_split].
  destruct (findIndex _ (nodes st)) as [k|]; [|apply append_split].
  apply spliceInsert_split.
Qed.

Lemma placeNode_inserts (n : FlowNode) (t : option string) (p : Position)
  (rest : list FlowNode) :
  exists l1 l2, rest = l1 ++ l2 /\ placeNode n t p rest = l1 ++ n :: l2.
Proof.
  unfold placeNode.
  destruct (_ || _); [apply append_split|].
  destruct (findIndex _ rest) as [k|]; [|apply append_split].
  apply spliceInsert_split.
Qed.

Lemma allIds_Permutation (l l' : list FlowNode) :
  Permutation l l' -> NoDup (allIds l) -> NoDup (allIds l').
Proof.
  intros HP. apply Permutation_NoDup. unfold allIds.
  now apply Permutation_flat_map.
Qed.

Lemma handleAddNode_unique (ty : NodeType) (now : N) (st : App) :
  NoDup (allIds (nodes st)) ->
  freshNode (createNode ty now) (nodes st) = true ->
  NoDup (allIds (nodes (handleAddNode ty now st))).
Proof.
  intros Hnd Hf.
  destruct (handleAddNode_inserts ty now st) as (l1 & l2 & Hl & ->).
  rewrite Hl in Hnd, Hf.
  apply NoDup_insert; [assumption | apply createNode_distinct |].
  apply freshNode_spec, Hf.
Qed.

Lemma handleDropNode_unique (d : DragData) (t : option string) (p : Position)
  (now : N) (st : App) :
  NoDup (allIds (nodes st)) ->
  opFresh st (DropNode d t p now) = true ->
  NoDup (allIds (nodes (handleDropNode d t p now st))).
Proof.
  intros Hnd Hf. unfold handleDropNode. simpl in Hf.
  destruct (strictEq (dragId d) t); [assumption|].
  destruct (source d); [| |assumption].
  - simpl.
    destruct (placeNode_inserts (createNode (dragType d) now) t p (nodes st))
      as (l1 & l2 & Hl & ->).
    rewrite Hl in Hnd, Hf.
    apply NoDup_insert; [assumption | apply createNode_distinct |].
    apply freshNode_spec, Hf.
  - destruct (findIndex _ (nodes st)) as [k|]; [|assumption].
    destruct (nth_error (nodes st) k) as [n|] eqn:Hk; [|assumption].
    simpl. apply nth_error_split in Hk. destruct Hk as (l1 & l2 & Hl & Hlen).
    rewrite Hl in Hnd |- *. subst k.
    destruct (spliceRemove_at l1 l2 n) as [-> _].
    destruct (placeNode_inserts n t p (l1 ++ l2)) as (r1 & r2 & Hr & ->).
    apply (allIds_Permutation (l1 ++ n :: l2)); [|assumption].
    rewrite <- !Permutation_middle. now rewrite Hr.
Qed.

Lemma in_map_filter {A B} (g : A -> B) (f : A -> bool) (l : list A) (x : B) :
  In x (map g (filter f l)) -> In x (map g l).
Proof.
  rewrite !in_map_iff. intros (a & Ha & Hin). exists a.
  apply filter_In in Hin. tauto.
Qed.

Lemma NoDup_map_filter {A B} (g : A -> B) (f : A -> bool) (l : list A) :
  NoDup (map g l) -> NoDup (map g (filter f l)).
Proof.
  induction l as [|a l IH]; simpl; intros H; [constructor|].
  apply NoDup_cons_iff in H. destruct H as [Ha Hl].
  destruct (f a); simpl; [|now apply IH].
  constructor; [|now apply IH].
  intros Hin. apply Ha. exact (in_map_filter g f l _ Hin).
Qed.

Lemma nodeIds_withChildren_filter (f : FlowNode -> bool) (n : FlowNode) :
  nodeIds (withChildren n (filter f (children n))) =
    nodeId n :: map nodeId (filter f (children n)).
Proof. now destruct n. Qed.

Lemma deleteRecursive_ids_incl (i x : string) (l : list FlowNode) :
  In x (allIds (deleteRecursive i l)) -> In x (allIds l).
Proof.
  induction l as [|n l IH]; [trivial|].
  rewrite deleteRecursive_cons, allIds_cons.
  destruct (nodeId n =? i).
  - intros H. right. apply in_or_app. right. now apply IH.
  - rewrite allIds_cons, nodeId_withChildren.
    change (map nodeId (children (withChildren n ?cs)))
      with (tl (nodeIds (withChildren n cs))).
    rewrite nodeIds_withChildren_filter. simpl tl.
    intros [H | H]; [now left|]. right.
    apply in_app_or in H. apply in_or_app. destruct H as [H | H].
    + left. exact (in_map_filter _ _ _ _ H).
    + right. now apply IH.
Qed.

Lemma deleteRecursive_unique (i : string) (l : list FlowNode) :
  NoDup (allIds l) -> NoDup (allIds (deleteRecursive i l)).
Proof.
  induction l as [|n l IH]; intros Hnd; [constructor|].
  rewrite allIds_cons in Hnd. rewrite deleteRecursive_cons.
  apply NoDup_cons_iff in Hnd. destruct Hnd as [Hfresh Hrest].
  apply NoDup_app_inv in Hrest. destruct Hrest as (Hkids & Htail & Hdisj).
  destruct (nodeId n =? i); [now apply IH|].
  rewrite allIds_cons, nodeId_withChildren.
  change (map nodeId (children (withChildren n ?cs)))
    with (tl (nodeIds (withChildren n cs))).
  rewrite nodeIds_withChildren_filter. simpl tl.
  constructor.
  - intros H. apply Hfresh. apply in_app_or in H. apply in_or_app.
    destruct H as [H | H].
    + left. exact (in_map_filter _ _ _ _ H).
    + right. exact (deleteRecursive_ids_incl _ _ _ H).
  - apply NoDup_app.
    + now apply NoDup_map_filter.
    + now apply IH.
    + intros x Hx Hx'. apply (Hdisj x).
      * exact (in_map_filter _ _ _ _ Hx).
      * exact (deleteRecursive_ids_incl _ _ _ Hx').
Qed.

(** The identifiers of the sequence after an update: those of the
    replacement where a top-level node is replaced, the old ones
    elsewhere (a replaced child has the identifier of the child it
    replaces). *)
Lemma replace_child_ids (u : FlowNode) (cs : list FlowNode) :
  map nodeId (map (fun c => if nodeId c =? nodeId u then u else c) cs) =
  map nodeId cs.
Proof.
  rewrite map_map. apply map_ext. intros c.
  destruct (String.eqb_spec (nodeId c) (nodeId u)); congruence.
Qed.

Lemma updateRecursive_ids (u : FlowNode) (l : list FlowNode) :
  allIds (updateRecursive u l) =
  flat_map (fun n => if nodeId n =? nodeId u then nodeIds u else nodeIds n) l.
Proof.
  unfold allIds, updateRecursive. rewrite flat_map_concat_map, map_map.
  rewrite <- flat_map_concat_map.
  induction l as [|n l IH]; [reflexivity|]. simpl. rewrite IH. f_equal.
  destruct (nodeId n =? nodeId u); [reflexivity|].
  destruct n as [b k | b bs | b se w h]; [reflexivity| |].
  - destruct (existsb _ bs); [|reflexivity].
    unfold nodeIds. simpl. now rewrite replace_child_ids.
  - destruct (existsb _ se); [|reflexivity].
    unfold nodeIds. simpl. now rewrite replace_child_ids.
Qed.

Lemma flat_map_other_ids (u : FlowNode) (l : list FlowNode) :
  (forall m, In m l -> nodeId m <> nodeId u) ->
  flat_map (fun n => if nodeId n =? nodeId u then nodeIds u else nodeIds n) l
  = allIds l.
Proof.
  induction l as [|n l IH]; intros H; [reflexivity|]. simpl.
  destruct (String.eqb_spec (nodeId n) (nodeId u)) as [E | _].
  - exfalso. exact (H n (or_introl eq_refl) E).
  - rewrite IH; [reflexivity|]. intros m Hm. apply H. now right.
Qed.

Lemma top_id_in_allIds (m : FlowNode) (l : list FlowNode) :
  In m l -> In (nodeId m) (allIds l).
Proof.
  intros H. unfold allIds. apply in_flat_map. exists m.
  split; [exact H | now left].
Qed.

Lemma admissibleUpdate_spec (u : FlowNode) (l : list FlowNode) :
  admissibleUpdate u l = true ->
  NoDup (nodeIds u) /\
  forall x, In x (map nodeId (children u)) -> In x (allIds l) ->
    exists n, In n l /\ nodeId n = nodeId u /\
              In x (map nodeId (children n)).
Proof.
  unfold admissibleUpdate. rewrite andb_true_iff, forallb_forall.
  intros [Hd Hc]. split; [now apply distinct_NoDup|].
  intros x Hx Hin. specialize (Hc x Hx). apply orb_true_iff in Hc.
  destruct Hc as [Hc | Hc].
  - apply negb_true_iff in Hc. apply occurs_In in Hin. congruence.
  - apply existsb_exists in Hc. destruct Hc as (n & Hn & Hc).
    apply andb_true_iff in Hc. destruct Hc as [E Hc].
    exists n. split; [exact Hn|]. split; [now apply String.eqb_eq|].
    now apply existsb_eqb_In.
Qed.

Lemma updateRecursive_unique (u : FlowNode) (l : list FlowNode) :
  NoDup (allIds l) -> admissibleUpdate u l = true ->
  NoDup (allIds (updateRecursive u l)).
Proof.
  intros Hnd Hadm. rewrite updateRecursive_ids.
  destruct (in_dec string_dec (nodeId u) (map nodeId l)) as [Hin | Hout].
  - apply in_map_iff in Hin. destruct Hin as (n & Hn & Hin).
    apply in_split in Hin. destruct Hin as (l1 & l2 & ->).
    destruct (admissibleUpdate_spec u _ Hadm) as [Hu Hkids].
    rewrite allIds_app in Hnd. change (allIds (n :: l2))
      with (nodeIds n ++ allIds l2) in Hnd.
    destruct (NoDup_app_inv _ _ Hnd) as (H1 & Hn2 & Hd1).
    destruct (NoDup_app_inv _ _ Hn2) as (Hnn & H2 & Hd2).
    assert (Hl1 : forall m, In m l1 -> nodeId m <> nodeId u).
    { intros m Hm E. apply (Hd1 (nodeId m)).
      - now apply top_id_in_allIds.
      - apply in_or_app. left. left. congruence. }
    assert (Hl2 : forall m, In m l2 -> nodeId m <> nodeId u).
    { intros m Hm E. apply (Hd2 (nodeId n)); [now left|].
      rewrite Hn, <- E. now apply top_id_in_allIds. }
    assert (Hown : forall x, In x (nodeIds u) ->
                     In x (allIds l1) \/ In x (allIds l2) -> In x (nodeIds n)).
    { intros x [Hx | Hx] Hocc; [left; congruence|].
      destruct (Hkids x Hx) as (n' & Hn' & E & Hc).
      - rewrite allIds_app. apply in_or_app.
        destruct Hocc as [H | H]; [now left|].
        right. apply in_or_app. now right.
      - apply in_app_or in Hn'. destruct Hn' as [Hn' | [<- | Hn']].
        + exfalso. exact (Hl1 n' Hn' E).
        + now right.
        + exfalso. exact (Hl2 n' Hn' E). }
    rewrite flat_map_app. simpl. rewrite Hn, String.eqb_refl.
    rewrite !flat_map_other_ids by assumption.
    apply NoDup_app; [exact H1 | apply NoDup_app; [exact Hu | exact H2 |] |].
    + intros x Hx Hx2. apply (Hd2 x); [|exact Hx2].
      apply Hown; [exact Hx | now right].
    + intros x Hx Hx'. apply in_app_or in Hx'. destruct Hx' as [Hx' | Hx'].
      * apply (Hd1 x Hx). apply in_or_app. left.
        apply Hown; [exact Hx' | now left].
      * apply (Hd1 x Hx). apply in_or_app. now right.
  - rewrite flat_map_other_ids; [assumption|].
    intros m Hm E. apply Hout. rewrite <- E. now apply in_map.
Qed.

Lemma run_requested (cb : option Callback) (now : N) (st : App) :
  run st (requested cb now) = invoke cb now st.
Proof. destruct cb as [[[i|] | d t p | u]|]; reflexivity. Qed.

Lemma step_unique (st : App) (op : Op) :
  NoDup (allIds (nodes st)) -> opFresh st op = true ->
  NoDup (allIds (nodes (step st op))).
Proof.
  intros Hnd Hf. destruct op as [ty now | d t p now | u | i]; simpl step.
  - now apply handleAddNode_unique.
  - now apply handleDropNode_unique.
  - simpl. now apply updateRecursive_unique.
  - unfold handleDeleteNode.
    destruct (strictEq (selectedNodeId st) (Some i)); simpl;
      now apply deleteRecursive_unique.
Qed.

(** C1, as stated, fails: two nodes added at the same clock reading share
    an identifier, and so do two side events that the properties panel adds
    to a block at the same clock reading. *)
Lemma uniqueness_counterexample :
  let st := mkApp [] "layout_weekend" WEEKEND_NODES None in
  let twice := [ AddNode (single task) 1700000000000;
                 AddNode (single task) 1700000000000 ] in
  let selected (s : App) :=
    match findNode "w_block_2" (nodes s) with
    | Some n => n
    | None => SingleNode (mkBase "" "" None None None None None) task
    end in
  let st1 := run st (requested (addSideEvent task 1700000000000
                                             (selected st)) 0) in
  let st2 := run st1 (requested (addSideEvent task 1700000000000
                                              (selected st1)) 0) in
  NoDup (allIds (nodes st)) /\
  ~ NoDup (allIds (nodes (run st twice))) /\
  ~ NoDup (allIds (nodes st2)).
Proof.
  cbv zeta. split; [|split].
  - apply distinct_NoDup. vm_compute. reflexivity.
  - rewrite <- distinct_NoDup. vm_compute. discriminate.
  - rewrite <- distinct_NoDup. vm_compute. discriminate.
Qed.

(** C1, amended. Along any finite run of add, drop, update and delete
    operations that starts with pairwise-distinct identifiers, identifiers
    stay pairwise distinct across the top level and the nested lists,
    provided every operation brings in new identifiers only: the node made
    by an add or a palette drop has identifiers that are not in the tree,
    and the replacement of an update has distinct identifiers, those of its
    children being either new or taken from the children of the top-level
    node it replaces.  Deletes and canvas moves need no condition. *)
Theorem operations_preserve_uniqueness (st : App) (ops : list Op) :
  NoDup (allIds (nodes st)) ->
  opsFresh st ops = true ->
  NoDup (allIds (nodes (run st ops))).
Proof.
  revert st. induction ops as [|op ops IH]; intros st Hnd Hf; [exact Hnd|].
  simpl in Hf. apply andb_true_iff in Hf. destruct Hf as [Hop Hrest].
  simpl. apply IH; [|exact Hrest]. now apply step_unique.
Qed.

(** ** Update targeting *)

Module RefFacts.
Import Refs.

Lemma extends_refl (h : Heap) : extends h h.
Proof. split; [lia | reflexivity]. Qed.

Lemma extends_trans (h1 h2 h3 : Heap) :
  extends h1 h2 -> extends h2 h3 -> extends h1 h3.
Proof.
  unfold extends, valid. intros [L1 D1] [L2 D2]. split; [lia|].
  intros r Hr. rewrite D2 by lia. now apply D1.
Qed.

Lemma alloc_extends (o : Obj) (h : Heap) : extends h (snd (alloc o h)).
Proof.
  unfold extends, valid, alloc. simpl. split; [lia|].
  intros r Hr. destruct (Nat.eqb_spec r (next h)); [lia | reflexivity].
Qed.

Lemma alloc_deref (o : Obj) (h : Heap) :
  deref (snd (alloc o h)) (fst (alloc o h)) = o /\
  fst (alloc o h) = next h /\ valid (snd (alloc o h)) (fst (alloc o h)).
Proof.
  unfold alloc, valid. simpl. rewrite Nat.eqb_refl. repeat split. lia.
Qed.

Lemma extends_objId (h h' : Heap) (r : ref) :
  extends h h' -> valid h r -> objId h' r = objId h r.
Proof. intros [_ D] Hr. unfold objId. now rewrite D. Qed.

Lemma extends_kids (h h' : Heap) (r : ref) :
  extends h h' -> valid h r -> kids h' r = kids h r.
Proof. intros [_ D] Hr. unfold kids. now rewrite D. Qed.

Lemma extends_valid (h h' : Heap) (r : ref) :
  extends h h' -> valid h r -> valid h' r.
Proof. unfold extends, valid. intros [L _] Hr. lia. Qed.

Lemma extends_wellFormed (h h' : Heap) (u : ref) (l : list ref) :
  extends h h' -> wellFormed h u l -> wellFormed h' u l.
Proof.
  intros He [Hu Hl]. split; [exact (extends_valid h h' u He Hu)|].
  eapply Forall_impl; [|exact Hl]. intros n [Hn Hk]. split.
  - exact (extends_valid h h' n He Hn).
  - rewrite (extends_kids h h' n He Hn).
    eapply Forall_impl; [|exact Hk]. intros c. apply extends_valid, He.
Qed.

(** What one step of the map returns for the node [n]: the replacement,
    a new object with the children of [n] where the matching ones are
    replaced, or [n] itself. *)
Lemma updateOne_spec (u n : ref) (h : Heap) :
  let hit := fun c => objId h c =? objId h u in
  let n' := fst (updateOne u n h) in
  let h' := snd (updateOne u n h) in
  extends h h' /\
  (valid h u -> valid h n -> valid h' n') /\
  if hit n then n' = u
  else if existsb hit (kids h n)
       then n' = next h /\ objId h' n' = objId h n /\
            kids h' n' = map (fun c => if hit c then u else c) (kids h n)
       else n' = n.
Proof.
  cbv zeta. unfold updateOne, kids.
  destruct (objId h n =? objId h u) eqn:Hn.
  - simpl. split; [apply extends_refl|]. split; trivial.
  - destruct (deref h n) as [b k | b bs | b se w hh] eqn:Hd; simpl.
    + split; [apply extends_refl|]. split; trivial.
    + destruct (existsb _ bs).
      * split; [apply alloc_extends|]. split; [intros; apply alloc_deref|].
        unfold objId, alloc. simpl. rewrite Nat.eqb_refl, Hd. auto.
      * split; [apply extends_refl|]. split; trivial.
    + destruct (existsb _ se).
      * split; [apply alloc_extends|]. split; [intros; apply alloc_deref|].
        unfold objId, alloc. simpl. rewrite Nat.eqb_refl, Hd. auto.
      * split; [apply extends_refl|]. split; trivial.
Qed.

Lemma updateRecursive_extends (u : ref) (l : list ref) (h : Heap) :
  extends h (snd (updateRecursive u l h)).
Proof.
  revert h. induction l as [|n l IH]; intros h; simpl.
  - apply extends_refl.
  - destruct (updateOne u n h) as [n' h1] eqn:E1.
    destruct (updateRecursive u l h1) as [out h2] eqn:E2. simpl.
    apply (extends_trans h h1 h2).
    + pose proof (updateOne_spec u n h) as H. rewrite E1 in H. apply H.
    + specialize (IH h1). now rewrite E2 in IH.
Qed.

Lemma hit_ext (h h1 : Heap) (u : ref) (cs : list ref) :
  extends h h1 -> valid h u -> Forall (valid h) cs ->
  existsb (fun c => objId h1 c =? objId h1 u) cs =
    existsb (fun c => objId h c =? objId h u) cs /\
  map (fun c => if objId h1 c =? objId h1 u then u else c) cs =
    map (fun c => if objId h c =? objId h u then u else c) cs.
Proof.
  intros He Hu Hcs. rewrite (extends_objId h h1 u He Hu).
  induction Hcs as [|c cs Hc _ [IH1 IH2]]; [split; reflexivity|].
  simpl. rewrite (extends_objId h h1 c He Hc), IH1, IH2. split; reflexivity.
Qed.

(** The result, position by position. *)
Lemma updateRecursive_nth (u : ref) (l : list ref) :
  forall (h : Heap) (k : nat) (n : ref),
    wellFormed h u l -> nth_error l k = Some n ->
    let hit := fun c => objId h c =? objId h u in
    let out := fst (updateRecursive u l h) in
    let h' := snd (updateRecursive u l h) in
    exists n', nth_error out k = Some n' /\
      if hit n then n' = u
      else if existsb hit (kids h n)
           then ~ valid h n' /\ objId h' n' = objId h n /\
                kids h' n' = map (fun c => if hit c then u else c) (kids h n)
           else n' = n.
Proof.
  induction l as [|n0 l IH]; intros h k n Hwf Hk; [now destruct k|].
  cbv zeta. simpl.
  pose proof (updateOne_spec u n0 h) as H1. cbv zeta in H1.
  destruct (updateOne u n0 h) as [n0' h1] eqn:E1. simpl in H1.
  destruct H1 as (He1 & Hv1 & Hres1).
  pose proof (updateRecursive_extends u l h1) as He2.
  destruct Hwf as [Hu Hl].
  pose proof (Forall_inv Hl) as [Hn0 Hk0].
  pose proof (Forall_inv_tail Hl) as Hl'.
  assert (Hwf1 : wellFormed h1 u l)
    by (apply (extends_wellFormed h h1); [exact He1 | split; assumption]).
  destruct k as [|k]; simpl in Hk.
  - injection Hk as <-.
    destruct (updateRecursive u l h1) as [out h2] eqn:E2. simpl in *.
    exists n0'. split; [reflexivity|].
    destruct (objId h n0 =? objId h u); [exact Hres1|].
    destruct (existsb _ (kids h n0)); [|exact Hres1].
    destruct Hres1 as (Hfresh & Hid & Hkids).
    specialize (Hv1 Hu Hn0).
    split; [unfold valid; lia|].
    rewrite (extends_objId h1 h2 n0' He2 Hv1).
    rewrite (extends_kids h1 h2 n0' He2 Hv1). split; assumption.
  - specialize (IH h1 k n Hwf1 Hk). cbv zeta in IH.
    destruct (updateRecursive u l h1) as [out h2] eqn:E2. simpl in *.
    destruct IH as (n' & Hout & Hres). exists n'. split; [exact Hout|].
    assert (Hn : valid h n /\ Forall (valid h) (kids h n)).
    { apply nth_error_In in Hk. rewrite Forall_forall in Hl'.
      now apply Hl'. }
    destruct Hn as [Hn Hkn].
    rewrite (extends_objId h h1 n He1 Hn),
      (extends_objId h h1 u He1 Hu), (extends_kids h h1 n He1 Hn) in Hres.
    destruct (objId h n =? objId h u); [exact Hres|].
    destruct (hit_ext h h1 u (kids h n) He1 Hu Hkn) as [Ex Em].
    rewrite <- (extends_objId h h1 u He1 Hu) in Hres.
    rewrite Ex, Em in Hres.
    destruct (existsb _ (kids h n)); [|exact Hres].
    destruct Hres as (Hfresh & Hid & Hkids).
    split; [|split; assumption].
    intros Hv. apply Hfresh. exact (extends_valid h h1 n' He1 Hv).
Qed.

Lemma updateRecursive_length (u : ref) (l : list ref) (h : Heap) :
  List.length (fst (updateRecursive u l h)) = List.length l.
Proof.
  revert h. induction l as [|n l IH]; intros h; simpl; [reflexivity|].
  destruct (updateOne u n h) as [n' h1].
  specialize (IH h1). destruct (updateRecursive u l h1) as [out h2].
  simpl in *. now rewrite IH.
Qed.

(** C5. [handleUpdateNode] changes only the node whose identifier is that
    of the replacement.  The result has the length of the input and no
    object of the input store is modified.  Position by position: a
    top-level node with the replacement's identifier becomes the
    replacement; a top-level node with another identifier and no matching
    child is the same reference as before; a branch or block with a
    matching child is replaced by a newly allocated object with the same
    identifier, in whose nested list every non-matching child is the same
    reference as before, at the same position. *)
Theorem updateRecursive_keeps_references (h : Heap) (u : ref) (l : list ref) :
  wellFormed h u l ->
  let hit := fun c => objId h c =? objId h u in
  let out := fst (updateRecursive u l h) in
  let h' := snd (updateRecursive u l h) in
  List.length out = List.length l /\
  extends h h' /\
  forall k n, nth_error l k = Some n ->
    (objId h n = objId h u -> nth_error out k = Some u) /\
    (objId h n <> objId h u -> existsb hit (kids h n) = false ->
     nth_error out k = Some n) /\
    (objId h n <> objId h u -> existsb hit (kids h n) = true ->
     exists n', nth_error out k = Some n' /\ ~ valid h n' /\
       objId h' n' = objId h n /\
       List.length (kids h' n') = List.length (kids h n) /\
       forall j c, nth_error (kids h n) j = Some c ->
         objId h c <> objId h u -> nth_error (kids h' n') j = Some c).
Proof.
  intros Hwf. cbv zeta.
  split; [apply updateRecursive_length|].
  split; [apply updateRecursive_extends|].
  intros k n Hk.
  destruct (updateRecursive_nth u l h k n Hwf Hk) as (n' & Hout & Hres).
  split; [|split].
  - intros E. apply String.eqb_eq in E. rewrite E in Hres. congruence.
  - intros E Hno. apply String.eqb_neq in E. rewrite E, Hno in Hres.
    congruence.
  - intros E Hyes. apply String.eqb_neq in E. rewrite E, Hyes in Hres.
    destruct Hres as (Hfresh & Hid & Hkids).
    exists n'. split; [exact Hout|]. split; [exact Hfresh|].
    split; [exact Hid|]. rewrite Hkids. split; [apply length_map|].
    intros j c Hj Hc. rewrite nth_error_map, Hj. simpl.
    apply String.eqb_neq in Hc. now rewrite Hc.
Qed.


(** *** The store-level update computes the value-level update *)

Lemma FlowNode_nested_ind (P : FlowNode -> Prop) :
  (forall b k, P (SingleNode b k)) ->
  (forall b bs, Forall P bs -> P (BranchNode b bs)) ->
  (forall b se w hh, Forall P se -> P (BlockNode b se w hh)) ->
  forall n, P n.
Proof.
  intros Hs Hb Hk. fix IH 1. intros [b k | b bs | b se w hh].
  - apply Hs.
  - apply Hb. induction bs as [|c bs IHbs]; constructor;
      [apply IH | exact IHbs].
  - apply Hk. induction se as [|c se IHse]; constructor;
      [apply IH | exact IHse].
Qed.

Lemma Rep_all_extends (h h' : Heap) (vs : list FlowNode) (rs : list ref) :
  Forall (fun v => forall r, Rep h v r -> Rep h' v r) vs ->
  Forall2 (Rep h) vs rs -> Forall2 (Rep h') vs rs.
Proof.
  intros IH HF. induction HF as [|v c vs cs Hv _ IHF]; constructor.
  - apply (Forall_inv IH), Hv.
  - apply IHF, (Forall_inv_tail IH).
Qed.

Lemma Rep_extends (h h' : Heap) :
  extends h h' -> forall v r, Rep h v r -> Rep h' v r.
Proof.
  intros He v. induction v as [b k | b bs IH | b se w hh IH]
    using FlowNode_nested_ind; intros r HR; inversion HR; subst.
  - apply rep_single; [now apply (extends_valid h) |].
    destruct He as [_ D]. now rewrite D.
  - apply (rep_branch h' b bs rs); [now apply (extends_valid h) | |].
    + destruct He as [_ D]. now rewrite D.
    + now apply (Rep_all_extends h h').
  - apply (rep_block h' b se rs); [now apply (extends_valid h) | |].
    + destruct He as [_ D]. now rewrite D.
    + now apply (Rep_all_extends h h').
Qed.

Lemma Rep_id (h : Heap) (v : FlowNode) (r : ref) :
  Rep h v r -> nodeId v = objId h r.
Proof.
  intros HR. unfold objId, nodeId.
  inversion HR as [b k r' Hv Hd | b vs rs r' Hv Hd HF | b vs rs w hh r' Hv Hd HF];
    subst; now rewrite Hd.
Qed.

Lemma hit_refines (h : Heap) (x : string) (vs : list FlowNode)
  (rs : list ref) :
  Forall2 (Rep h) vs rs ->
  existsb (fun c => nodeId c =? x) vs = existsb (fun c => objId h c =? x) rs.
Proof.
  intros HF. induction HF as [|v c vs cs Hv _ IH]; [reflexivity|].
  simpl. now rewrite IH, (Rep_id h v c Hv).
Qed.

Lemma replace_refines (h h1 : Heap) (x : string) (uv : FlowNode) (u : ref)
  (vs : list FlowNode) (rs : list ref) :
  extends h h1 -> Rep h uv u -> Forall2 (Rep h) vs rs ->
  Forall2 (Rep h1)
    (map (fun c => if nodeId c =? x then uv else c) vs)
    (map (fun c => if objId h c =? x then u else c) rs).
Proof.
  intros He Hu HF. induction HF as [|v c vs cs Hv _ IH]; [constructor|].
  simpl. constructor; [|exact IH].
  rewrite (Rep_id h v c Hv).
  destruct (objId h c =? x); now apply (Rep_extends h h1 He).
Qed.

(** One step of the map, on the store and on values. *)
Lemma updateOne_refines (h : Heap) (uv v : FlowNode) (u n : ref) :
  Rep h uv u -> Rep h v n ->
  Rep (snd (updateOne u n h))
      (if nodeId v =? nodeId uv then uv
       else match v with
            | BranchNode b bs =>
                if existsb (fun c => nodeId c =? nodeId uv) bs
                then BranchNode b
                       (map (fun c => if nodeId c =? nodeId uv
                                      then uv else c) bs)
                else v
            | BlockNode b se w hh =>
                if existsb (fun c => nodeId c =? nodeId uv) se
                then BlockNode b
                       (map (fun c => if nodeId c =? nodeId uv
                                      then uv else c) se) w hh
                else v
            | SingleNode _ _ => v
            end)
      (fst (updateOne u n h)).
Proof.
  intros Hu Hv. unfold updateOne.
  rewrite (Rep_id h v n Hv), (Rep_id h uv u Hu).
  destruct (objId h n =? objId h u); [exact Hu|].
  inversion Hv as [b k r' Hval Hd | b vs rs r' Hval Hd HF
                  | b vs rs w hh r' Hval Hd HF]; subst; rewrite Hd.
  - exact Hv.
  - rewrite (hit_refines h (objId h u) vs rs HF).
    destruct (existsb _ rs); [|exact Hv].
    apply (rep_branch _ b _ (map (fun c => if objId h c =? objId h u
                                          then u else c) rs)).
    + apply alloc_deref.
    + apply alloc_deref.
    + apply (replace_refines h); [apply alloc_extends | exact Hu | exact HF].
  - rewrite (hit_refines h (objId h u) vs rs HF).
    destruct (existsb _ rs); [|exact Hv].
    apply (rep_block _ b _ (map (fun c => if objId h c =? objId h u
                                         then u else c) rs)).
    + apply alloc_deref.
    + apply alloc_deref.
    + apply (replace_refines h); [apply alloc_extends | exact Hu | exact HF].
Qed.

(** When the store holds the sequence of [st] and the replacement, the
    references that the store-level update returns hold, in the new store,
    the sequence that [handleUpdateNode] computes. *)
Lemma updateRecursive_refines (uv : FlowNode) (u : ref) (st : App)
  (l : list ref) :
  forall (h : Heap) (vs : list FlowNode),
    Rep h uv u -> Forall2 (Rep h) vs l ->
    Forall2 (Rep (snd (updateRecursive u l h)))
            (nodes (handleUpdateNode uv (setNodes vs st)))
            (fst (updateRecursive u l h)).
Proof.
  induction l as [|n l IH]; intros h vs Hu HF;
    inversion HF as [|v n' vs' l' Hv HF']; subst; [constructor|].
  pose proof (updateOne_refines h uv v u n Hu Hv) as H1.
  pose proof (updateOne_spec u n h) as Hs. cbv zeta in Hs.
  destruct Hs as (He1 & _).
  simpl. destruct (updateOne u n h) as [n1 h1] eqn:E1. simpl in H1, He1.
  assert (Hu1 : Rep h1 uv u) by exact (Rep_extends h h1 He1 uv u Hu).
  assert (HF1 : Forall2 (Rep h1) vs' l).
  { apply (Rep_all_extends h h1); [|exact HF'].
    apply Forall_forall. intros x _. apply (Rep_extends h h1 He1). }
  specialize (IH h1 vs' Hu1 HF1).
  pose proof (updateRecursive_extends u l h1) as He2.
  destruct (updateRecursive u l h1) as [out h2] eqn:E2. simpl in IH, He2 |- *.
  constructor; [|exact IH].
  exact (Rep_extends h1 h2 He2 _ _ H1).
Qed.


(** Updating the second child: the time marker is the same object, the
    branch is a new object whose first child is the same object. *)
Lemma updateRecursive_keeps_references_witness :
  let out := fst (updateRecursive 4%nat [0%nat; 3%nat] sampleHeap) in
  let h' := snd (updateRecursive 4%nat [0%nat; 3%nat] sampleHeap) in
  nth_error out 0 = Some 0%nat /\
  exists n', nth_error out 1 = Some n' /\ ~ valid sampleHeap n' /\
             nth_error (kids h' n') 0 = Some 1%nat.
Proof.
  cbv zeta.
  assert (Hwf : wellFormed sampleHeap 4%nat [0%nat; 3%nat]).
  { unfold wellFormed, valid. simpl. split; [lia|].
    repeat constructor; lia. }
  destruct (updateRecursive_keeps_references sampleHeap 4%nat
              [0%nat; 3%nat] Hwf) as (_ & _ & H).
  split.
  - destruct (H 0%nat 0%nat eq_refl) as (_ & Hsame & _).
    apply Hsame; [vm_compute; discriminate | reflexivity].
  - destruct (H 1%nat 3%nat eq_refl) as (_ & _ & Hnew).
    destruct Hnew as (n' & Hout & Hfresh & _ & _ & Hkids);
      [vm_compute; discriminate | reflexivity |].
    exists n'. split; [exact Hout|]. split; [exact Hfresh|].
    apply (Hkids 0%nat 1%nat eq_refl). vm_compute. discriminate.
Defined.

End RefFacts.

(** The same frame property on values: outside the replaced node, the
    replaced child and its parent, the updated sequence holds the nodes it
    held. *)
Lemma updateRecursive_frame (u : FlowNode) (l : list FlowNode) (k : nat)
  (n : FlowNode) :
  nth_error l k = Some n -> nodeId n <> nodeId u ->
  (existsb (fun c => nodeId c =? nodeId u) (children n) = false ->
   nth_error (updateRecursive u l) k = Some n) /\
  (forall n', nth_error (updateRecursive u l) k = Some n' ->
   nodeId n' = nodeId n /\
   forall j c, nth_error (children n) j = Some c -> nodeId c <> nodeId u ->
     nth_error (children n') j = Some c).
Proof.
  intros Hk Hne. unfold updateRecursive. rewrite nth_error_map, Hk. simpl.
  apply String.eqb_neq in Hne. rewrite Hne. split.
  - intros Hno. destruct n as [b kd | b bs | b se w h]; simpl in Hno |- *;
      try rewrite Hno; reflexivity.
  - intros n' E. injection E as <-.
    destruct n as [b kd | b bs | b se w h]; simpl.
    + split; [reflexivity | trivial].
    + destruct (existsb _ bs); split; try reflexivity; try trivial.
      intros j c Hj Hc. simpl. rewrite nth_error_map, Hj. simpl.
      apply String.eqb_neq in Hc. now rewrite Hc.
    + destruct (existsb _ se); split; try reflexivity; try trivial.
      intros j c Hj Hc. simpl. rewrite nth_error_map, Hj. simpl.
      apply String.eqb_neq in Hc. now rewrite Hc.
Qed.

(** ** Instances *)

(** A delete on the initial weekday sequence: the branch child ["2a"] is
    excised, an unknown identifier leaves the sequence as it is. *)
Lemma deleteRecursive_complete_witness :
  RemovedOne "2a" INITIAL_NODES_head
             (deleteRecursive "2a" INITIAL_NODES_head) /\
  deleteRecursive "nobody" INITIAL_NODES_head = INITIAL_NODES_head.
Proof.
  assert (H : NoDup (allIds INITIAL_NODES_head))
    by (apply distinct_NoDup; vm_compute; reflexivity).
  destruct (deleteRecursive_complete INITIAL_NODES_head "2a" H) as (H1 & _).
  destruct (deleteRecursive_complete INITIAL_NODES_head "nobody" H)
    as (_ & H2 & _).
  split.
  - apply H1. apply existsb_eqb_In. vm_compute. reflexivity.
  - apply H2. rewrite <- existsb_eqb_In. vm_compute. discriminate.
Defined.

(** The zoom scenario: zoom 1, pan (0,0), pointer at (100,100), a wheel
    delta of -500 with the control key held, in doubles and in exact
    arithmetic. *)
Lemma handleWheel_zoom_witness :
  (let c := Doubles.mkCanvas vertical false false 1
                             (Doubles.mkPan 0 0) false None None in
   let e := Doubles.mkEvent 0 true 100 100 0 (-500) in
   let c' := Doubles.handleWheel e (Some (Doubles.mkRect 0 0 800 600)) c in
   Doubles.pan c' = Doubles.mkPan (-50) (-50) /\
   (100 * Doubles.zoom c' + Doubles.panX (Doubles.pan c'))%float
     = 100%float) /\
  (let c := mkCanvas vertical false false 1 (mkPan 0 0) false None None in
   let e := mkEvent 0 true 100 100 0 (-500) in
   let c' := handleWheel e (Some (mkRect 0 0 800 600)) c in
   panX (pan c') == -50 /\ panY (pan c') == -50).
Proof.
  cbv zeta. split.
  - set (c := Doubles.mkCanvas vertical false false 1
                               (Doubles.mkPan 0 0) false None None).
    set (e := Doubles.mkEvent 0 true 100 100 0 (-500)).
    set (r := Doubles.mkRect 0 0 800 600).
    destruct (proj1 handleWheel_zoom_keeps_pointer e r c eq_refl)
      as (_ & _ & Hs).
    destruct (Hs eq_refl eq_refl eq_refl eq_refl eq_refl)
      as (Hwx & _ & Hp & Hx & _).
    split; [exact Hp|]. rewrite Hwx in Hx. exact Hx.
  - set (c := mkCanvas vertical false false 1 (mkPan 0 0) false None None).
    set (e := mkEvent 0 true 100 100 0 (-500)).
    assert (Hr : 0 < zoom c) by reflexivity.
    assert (Hm : (buttons e =? 2)%nat || ctrlKey e = true) by reflexivity.
    destruct (proj2 handleWheel_zoom_keeps_pointer e (mkRect 0 0 800 600) c
                Hr Hm)
      as (_ & _ & _ & _ & _ & _ & _ & _ & Hs).
    apply Hs; vm_compute; reflexivity.
Defined.

(** Three drops: a canvas move on the weekend sequence, ["w3"] dropped
    before ["w1"]; ["w1"] dropped on itself; and the branch child ["2a"],
    which is not at the top level, dropped before ["task_lunch"]. *)
Lemma handleDropNode_ordering_witness :
  let st := mkApp [] "layout_weekend" WEEKEND_NODES None in
  let st2 := mkApp [] "layout_weekday" INITIAL_NODES_head None in
  map nodeId (nodes (handleDropNode (mkDrag canvas (Some "w3") (single time))
                                    (Some "w1") before 0 st)) =
    ["w3"; "w1"; "w2"; "w_block_1"; "w_block_2"] /\
  handleDropNode (mkDrag canvas (Some "w1") (single time))
                 (Some "w1") append 0 st = st /\
  handleDropNode (mkDrag canvas (Some "2a") (single task))
                 (Some "task_lunch") before 0 st2 = st2.
Proof.
  cbv zeta.
  set (st := mkApp [] "layout_weekend" WEEKEND_NODES None).
  set (st2 := mkApp [] "layout_weekday" INITIAL_NODES_head None).
  split; [|split].
  - set (d := mkDrag canvas (Some "w3") (single time)).
    pose (dflt := SingleNode (mkBase "" "" None None None None None) task).
    pose (n := nth 3 WEEKEND_NODES dflt).
    pose (l1 := firstn 3 WEEKEND_NODES).
    pose (l2 := skipn 4 WEEKEND_NODES).
    assert (HD : Drops d 0 st n (l1 ++ l2)).
    { apply (drops_canvas d 0 st l1 n l2); try reflexivity.
      intros m Hm E. simpl in Hm.
      destruct Hm as [<- | [<- | [<- | []]]]; vm_compute in E; discriminate E. }
    destruct (handleDropNode_ordering d (Some "w1") before 0 st)
      as (_ & _ & Hord).
    destruct (Hord eq_refl n (l1 ++ l2) HD) as [Hanchor _].
    assert (Ha : "w1" <> "") by discriminate.
    assert (Hr1 : forall m : FlowNode, In m [] -> nodeId m <> "w1")
      by (intros m []).
    destruct (Hanchor "w1" [] (nth 0 WEEKEND_NODES dflt) (tl (l1 ++ l2)) eq_refl
                Ha eq_refl eq_refl Hr1) as [Hb _].
    rewrite (Hb eq_refl). reflexivity.
  - apply (proj1 (handleDropNode_ordering
                    (mkDrag canvas (Some "w1") (single time))
                    (Some "w1") append 0 st)).
    reflexivity.
  - apply (proj1 (proj2 (handleDropNode_ordering
                           (mkDrag canvas (Some "2a") (single task))
                           (Some "task_lunch") before 0 st2))).
    + reflexivity.
    + intros m Hm E. simpl in Hm.
      destruct Hm as [<- | [<- | [<- | [<- | []]]]]; vm_compute in E;
        discriminate E.
Defined.

(** A run on the initial weekday sequence: add a branch from the palette
    button, give the branch ["2"] a third child and the block ["block_1"] a
    second side event from the properties panel, move the task to the
    front, delete the time marker, drop a task from the palette. *)
Lemma operations_preserve_uniqueness_witness :
  let st := mkApp [] "layout_weekday" INITIAL_NODES_head None in
  let selected (i : string) :=
    match findNode i INITIAL_NODES_head with
    | Some n => n
    | None => SingleNode (mkBase "" "" None None None None None) task
    end in
  let ops :=
    [ AddNode branch 1700000000000 ] ++
    requested (handleBranchCountChange 3 (fun _ => 1700000000500%N)
                                       (selected "2")) 0 ++
    requested (addSideEvent task 1700000001000 (selected "block_1")) 0 ++
    [ DropNode (mkDrag canvas (Some "task_lunch") (single task)) (Some "1")
               before 1700000001500;
      DeleteNode "1";
      DropNode (mkDrag sidebar None (single task)) None append
               1700000002000 ] in
  List.length ops = 6%nat /\
  NoDup (allIds (nodes (run st ops))).
Proof.
  cbv zeta. split; [reflexivity|].
  apply operations_preserve_uniqueness.
  - apply distinct_NoDup. vm_compute. reflexivity.
  - vm_compute. reflexivity.
Defined.

(** A canvas payload dropped on the armed trash zone. *)
Lemma handleDrop_trash_witness :
  let c := mkCanvas vertical true true 1 (mkPan 0 0) false None None in
  let st := mkApp [] "layout_weekend" WEEKEND_NODES (Some "w2") in
  let data := mkDrag canvas (Some "w2") (single task) in
  nodes (invoke (snd (handleDrop (Some data) c)) 0 st) =
    deleteRecursive "w2" WEEKEND_NODES.
Proof.
  cbv zeta.
  set (c := mkCanvas vertical true true 1 (mkPan 0 0) false None None).
  set (st := mkApp [] "layout_weekend" WEEKEND_NODES (Some "w2")).
  set (data := mkDrag canvas (Some "w2") (single task)).
  destruct (handleDrop_trash (Some data) c 0 st) as (_ & _ & H).
  destruct (H eq_refl data eq_refl) as (_ & _ & _ & Hdel).
  exact (Hdel eq_refl "w2" eq_refl).
Defined.

(** * Further properties *)

(** ** Finding a node *)

Lemma find_id_some (i : string) (cs : list FlowNode) (c : FlowNode) :
  find (fun b => nodeId b =? i) cs = Some c -> nodeId c = i /\ In c cs.
Proof.
  intros H. apply find_some in H. destruct H as [Hin E].
  split; [now apply String.eqb_eq | exact Hin].
Qed.

Lemma find_id_none (i : string) (cs : list FlowNode) :
  find (fun b => nodeId b =? i) cs = None -> ~ In i (map nodeId cs).
Proof.
  intros H Hin. apply in_map_iff in Hin. destruct Hin as (c & E & Hc).
  pose proof (find_none _ _ H c Hc) as Hf. simpl in Hf.
  rewrite E, String.eqb_refl in Hf. discriminate Hf.
Qed.

(** What [findNode] does at the head of the sequence. *)
Lemma findNode_cons (i : string) (n : FlowNode) (l : list FlowNode) :
  findNode i (n :: l) =
    if nodeId n =? i then Some n
    else match find (fun b => nodeId b =? i) (children n) with
         | Some found => Some found
         | None => findNode i l
         end.
Proof. simpl. destruct (nodeId n =? i); [reflexivity|]. now destruct n. Qed.

Lemma findNode_spec (i : string) (l : list FlowNode) :
  match findNode i l with
  | Some n =>
      nodeId n = i /\
      (In n l \/ exists p, In p l /\ In n (children p))
  | None => ~ In i (allIds l)
  end.
Proof.
  induction l as [|n l IH]; [intros []|].
  rewrite findNode_cons.
  destruct (String.eqb_spec (nodeId n) i) as [E | E].
  - split; [exact E | left; now left].
  - destruct (find _ (children n)) as [c|] eqn:Hf.
    + apply find_id_some in Hf. destruct Hf as [Hc Hin].
      split; [exact Hc|]. right. exists n. split; [now left | exact Hin].
    + apply find_id_none in Hf.
      destruct (findNode i l) as [m|].
      * destruct IH as [Hm Hwhere]. split; [exact Hm|].
        destruct Hwhere as [Hin | (p & Hp & Hin)].
        -- left. now right.
        -- right. exists p. split; [now right | exact Hin].
      * rewrite allIds_cons. intros [H | H]; [contradiction|].
        apply in_app_or in H. tauto.
Qed.

Lemma find_replaced (u : FlowNode) (cs : list FlowNode) :
  existsb (fun c => nodeId c =? nodeId u) cs = true ->
  find (fun b => nodeId b =? nodeId u)
       (map (fun c => if nodeId c =? nodeId u then u else c) cs) = Some u.
Proof.
  induction cs as [|c cs IH]; simpl; [discriminate|].
  destruct (nodeId c =? nodeId u) eqn:E; simpl.
  - now rewrite String.eqb_refl.
  - rewrite E. exact IH.
Qed.

Lemma existsb_id_false (i : string) (cs : list FlowNode) :
  existsb (fun c => nodeId c =? i) cs = false ->
  find (fun b => nodeId b =? i) cs = None /\ ~ In i (map nodeId cs).
Proof.
  induction cs as [|c cs IH]; simpl; [intros _; split; [reflexivity | intros []]|].
  destruct (String.eqb_spec (nodeId c) i) as [E | E]; simpl; [discriminate|].
  intros H. destruct (IH H) as [Hf Hn]. split; [exact Hf|].
  intros [H1 | H1]; [contradiction | exact (Hn H1)].
Qed.

(** What [updateRecursive] does at the head of the sequence. *)
Lemma updateRecursive_cons (u n : FlowNode) (l : list FlowNode) :
  updateRecursive u (n :: l) =
    (if nodeId n =? nodeId u then u
     else if existsb (fun c => nodeId c =? nodeId u) (children n)
          then withChildren n
                 (map (fun c => if nodeId c =? nodeId u then u else c)
                      (children n))
          else n) :: updateRecursive u l.
Proof.
  unfold updateRecursive. simpl. f_equal.
  destruct (nodeId n =? nodeId u); [reflexivity|].
  destruct n as [b k | b bs | b se w h]; simpl; [reflexivity| |].
  - now destruct (existsb _ bs).
  - now destruct (existsb _ se).
Qed.

Lemma children_of_withChildren (n : FlowNode) (cs : list FlowNode) :
  children n <> [] -> children (withChildren n cs) = cs.
Proof. destruct n; simpl; [intros H; now contradiction H | trivial | trivial]. Qed.

Lemma findNode_updated (u : FlowNode) (l : list FlowNode) :
  In (nodeId u) (allIds l) ->
  findNode (nodeId u) (updateRecursive u l) = Some u.
Proof.
  induction l as [|n l IH]; intros Hin; [destruct Hin|].
  rewrite updateRecursive_cons, findNode_cons.
  destruct (String.eqb_spec (nodeId n) (nodeId u)) as [E | E].
  - now rewrite String.eqb_refl.
  - destruct (existsb _ (children n)) eqn:Hex.
    + rewrite nodeId_withChildren.
      apply String.eqb_neq in E. rewrite E.
      rewrite children_of_withChildren
        by (intros Hnil; rewrite Hnil in Hex; discriminate Hex).
      now rewrite (find_replaced u (children n) Hex).
    + apply String.eqb_neq in E. rewrite E.
      destruct (existsb_id_false _ _ Hex) as [Hf Hn]. rewrite Hf.
      apply IH. rewrite allIds_cons in Hin.
      destruct Hin as [H | H].
      * apply String.eqb_neq in E. now contradiction E.
      * apply in_app_or in H. tauto.
Qed.

Lemma deleteRecursive_removes_id (i : string) (l : list FlowNode) :
  ~ In i (allIds (deleteRecursive i l)).
Proof.
  induction l as [|n l IH]; [intros []|].
  rewrite deleteRecursive_cons.
  destruct (String.eqb_spec (nodeId n) i) as [E | E]; [exact IH|].
  rewrite allIds_cons, nodeId_withChildren.
  change (map nodeId (children (withChildren n ?cs)))
    with (tl (nodeIds (withChildren n cs))).
  rewrite nodeIds_withChildren_filter. simpl tl.
  intros [H | H]; [contradiction|].
  apply in_app_or in H. destruct H as [H | H]; [|exact (IH H)].
  apply in_map_iff in H. destruct H as (c & Hc & Hin).
  apply filter_In in Hin. destruct Hin as [_ Hk].
  rewrite Hc, String.eqb_refl in Hk. discriminate Hk.
Qed.

(** X3. Delete then lookup: after [deleteRecursive i], the identifier [i]
    occurs neither at the top level nor in a nested list, whether or not
    identifiers were unique before, and [findNode i] finds nothing. *)
Theorem findNode_after_delete (i : string) (l : list FlowNode) :
  ~ In i (allIds (deleteRecursive i l)) /\
  findNode i (deleteRecursive i l) = None.
Proof.
  split; [apply deleteRecursive_removes_id|].
  pose proof (findNode_spec i (deleteRecursive i l)) as H.
  destruct (findNode i (deleteRecursive i l)) as [n|]; [|reflexivity].
  exfalso. destruct H as [Hn Hwhere]. subst i.
  apply (deleteRecursive_removes_id (nodeId n) l).
  destruct Hwhere as [Hin | (p & Hp & Hin)].
  - now apply top_id_in_allIds.
  - unfold allIds. apply in_flat_map. exists p. split; [exact Hp|].
    right. now apply in_map.
Qed.

(** ** Updating *)

Lemma updateRecursive_top_ids (u : FlowNode) (l : list FlowNode) :
  map nodeId (updateRecursive u l) = map nodeId l.
Proof.
  unfold updateRecursive. rewrite map_map. apply map_ext. intros n.
  destruct (String.eqb_spec (nodeId n) (nodeId u)) as [E | E];
    [now symmetry|].
  destruct n as [b k | b bs | b se w h]; [reflexivity| |].
  - now destruct (existsb _ bs).
  - now destruct (existsb _ se).
Qed.

Lemma updateRecursive_absent (u : FlowNode) (l : list FlowNode) :
  ~ In (nodeId u) (allIds l) -> updateRecursive u l = l.
Proof.
  intros Hn. unfold updateRecursive. rewrite <- (map_id l) at 2.
  apply map_ext_in. intros n Hin.
  destruct (String.eqb_spec (nodeId n) (nodeId u)) as [E | E].
  - exfalso. apply Hn. rewrite <- E. now apply top_id_in_allIds.
  - assert (Hc : existsb (fun c => nodeId c =? nodeId u) (children n) = false).
    { apply not_true_is_false. intros Hex. apply existsb_exists in Hex.
      destruct Hex as (c & Hc & Ec). apply String.eqb_eq in Ec.
      apply Hn. unfold allIds. apply in_flat_map. exists n.
      split; [exact Hin|]. right. rewrite <- Ec. now apply in_map. }
    destruct n as [b k | b bs | b se w h]; simpl in Hc |- *;
      try rewrite Hc; reflexivity.
Qed.

(** X4. An update never reorders, adds or removes top-level nodes: the
    sequence of top-level identifiers is the one before.  With an
    identifier that occurs nowhere in the tree the update returns the
    sequence as it is. *)
Theorem updateRecursive_keeps_order (u : FlowNode) (l : list FlowNode) :
  map nodeId (updateRecursive u l) = map nodeId l /\
  (~ In (nodeId u) (allIds l) -> updateRecursive u l = l).
Proof.
  split; [apply updateRecursive_top_ids | apply updateRecursive_absent].
Qed.

Lemma updateRecursive_keeps_order_witness :
  let u := SingleNode (mkBase "nobody" "读书" None None None None None) task in
  updateRecursive u INITIAL_NODES = INITIAL_NODES.
Proof.
  cbv zeta.
  apply (updateRecursive_keeps_order
           (SingleNode (mkBase "nobody" "读书" None None None None None) task)
           INITIAL_NODES).
  rewrite <- existsb_eqb_In. vm_compute. discriminate.
Defined.

(** ** Adding from the palette button *)

(** X5. [handleAddNode] selects the node it makes.  With a non-empty
    selection that is a top-level node, the new node goes immediately
    behind the first top-level node with the selected identifier; with no
    selection, or a selection that is not at the top level (a nested child,
    a stale identifier), it goes last. *)
Theorem handleAddNode_placement (ty : NodeType) (now : N) (st : App) :
  selectedNodeId (handleAddNode ty now st) =
    Some (nodeId (createNode ty now)) /\
  (forall s l1 x l2,
     selectedNodeId st = Some s -> s <> "" ->
     nodes st = l1 ++ x :: l2 -> nodeId x = s ->
     (forall m, In m l1 -> nodeId m <> s) ->
     nodes (handleAddNode ty now st) = l1 ++ x :: createNode ty now :: l2) /\
  (truthy (selectedNodeId st) = false \/
   (forall m, In m (nodes st) ->
              strictEq (Some (nodeId m)) (selectedNodeId st) = false) ->
   nodes (handleAddNode ty now st) = nodes st ++ [createNode ty now]).
Proof.
  split; [|split].
  - unfold handleAddNode. destruct (truthy (selectedNodeId st)); [|reflexivity].
    destruct (findIndex _ (nodes st)); reflexivity.
  - intros s l1 x l2 Hs Hne Hl Hx Hl1. unfold handleAddNode.
    rewrite Hs. simpl truthy.
    destruct (String.eqb_spec s "") as [E | _]; [contradiction|]. simpl negb.
    cbv iota. rewrite Hl, (findIndex_first _ l1 x l2).
    + simpl. replace (l1 ++ x :: l2) with ((l1 ++ [x]) ++ l2)
        by (now rewrite <- app_assoc).
      replace (List.length l1 + 1)%nat with (List.length (l1 ++ [x]))
        by (rewrite List.length_app; reflexivity).
      rewrite spliceInsert_at. now rewrite <- app_assoc.
    + rewrite strictEq_id. now apply String.eqb_eq.
    + intros m Hm. rewrite strictEq_id. apply String.eqb_neq. now apply Hl1.
  - intros H. unfold handleAddNode.
    destruct (truthy (selectedNodeId st)) eqn:Ht; [|reflexivity].
    destruct H as [H | H]; [discriminate H|].
    now rewrite (findIndex_none _ (nodes st) H).
Qed.

Lemma handleAddNode_placement_witness :
  let st := mkApp [] "layout_weekend" WEEKEND_NODES (Some "w2") in
  map nodeId (nodes (handleAddNode (single task) 1700000000000 st)) =
    ["w1"; "w2"; "1700000000000"; "w_block_1"; "w3"; "w_block_2"].
Proof.
  cbv zeta.
  set (st := mkApp [] "layout_weekend" WEEKEND_NODES (Some "w2")).
  pose (dflt := SingleNode (mkBase "" "" None None None None None) task).
  destruct (handleAddNode_placement (single task) 1700000000000 st)
    as (_ & Hafter & _).
  assert (Hne : "w2" <> "") by discriminate.
  assert (Hl1 : forall m, In m (firstn 1 WEEKEND_NODES) -> nodeId m <> "w2").
  { intros m Hm E. simpl in Hm. destruct Hm as [<- | []].
    vm_compute in E. discriminate E. }
  rewrite (Hafter "w2" (firstn 1 WEEKEND_NODES) (nth 1 WEEKEND_NODES dflt)
                  (skipn 2 WEEKEND_NODES) eq_refl Hne eq_refl eq_refl Hl1).
  reflexivity.
Defined.

(** ** Drops, from the drag start to the tree *)

Lemma handleDropNode_canvas (d : DragData) (t : option string) (p : Position)
  (now : N) (st : App) :
  source d = canvas ->
  Permutation (nodes st) (nodes (handleDropNode d t p now st)) /\
  selectedNodeId (handleDropNode d t p now st) = selectedNodeId st.
Proof.
  intros Hs. unfold handleDropNode.
  destruct (strictEq (dragId d) t); [split; reflexivity|]. rewrite Hs.
  destruct (findIndex _ (nodes st)) as [k|]; [|split; reflexivity].
  destruct (nth_error (nodes st) k) as [n|] eqn:Hk; [|split; reflexivity].
  simpl. split; [|reflexivity].
  apply nth_error_split in Hk. destruct Hk as (l1 & l2 & Hl & Hlen).
  rewrite Hl. subst k. destruct (spliceRemove_at l1 l2 n) as [-> _].
  destruct (placeNode_inserts n t p (l1 ++ l2)) as (r1 & r2 & Hr & ->).
  transitivity (n :: l1 ++ l2).
  - symmetry. apply Permutation_middle.
  - rewrite Hr. apply Permutation_middle.
Qed.

(** X6. A palette tool dropped anywhere on the canvas but the trash adds
    exactly one node, the node [createNode] makes, and selects it; the
    nodes that were there keep their order.  Without a hovered target the
    new node is last. *)
Theorem sidebar_drop_adds_one (ty : NodeType) (c : Canvas) (now : N)
  (st : App) :
  isOverTrash c = false ->
  let st' := invoke (snd (handleDrop (Some (sidebarDragStart ty)) c)) now st in
  (exists l1 l2, nodes st = l1 ++ l2 /\
                 nodes st' = l1 ++ createNode ty now :: l2) /\
  selectedNodeId st' = Some (nodeId (createNode ty now)) /\
  (truthy (dragOverId c) = false \/ dropPosition c = None ->
   nodes st' = nodes st ++ [createNode ty now]).
Proof.
  intros Htrash. cbv zeta. unfold handleDrop. rewrite Htrash.
  destruct (truthy (dragOverId c)) eqn:Ht;
    [destruct (dropPosition c) as [pos|] eqn:Hp|]; simpl.
  - split; [apply placeNode_inserts|]. split; [reflexivity|].
    intros [H | H]; discriminate H.
  - split; [apply append_split|]. split; [reflexivity|]. reflexivity.
  - split; [apply append_split|]. split; [reflexivity|]. reflexivity.
Qed.

Lemma sidebar_drop_adds_one_witness :
  let c := mkCanvas vertical false false 1 (mkPan 0 0) false (Some "w1")
                    (Some before) in
  let st := mkApp [] "layout_weekend" WEEKEND_NODES None in
  selectedNodeId
    (invoke (snd (handleDrop (Some (sidebarDragStart branch)) c))
            1700000000000 st) = Some "1700000000000".
Proof.
  cbv zeta.
  set (c := mkCanvas vertical false false 1 (mkPan 0 0) false (Some "w1")
                     (Some before)).
  set (st := mkApp [] "layout_weekend" WEEKEND_NODES None).
  destruct (sidebar_drop_adds_one branch c 1700000000000 st eq_refl)
    as (_ & Hsel & _).
  exact Hsel.
Defined.

(** X7. A node dragged from the canvas and dropped anywhere but the trash
    is never lost or duplicated: the top-level sequence afterwards is a
    permutation of the one before, and the selection stays.  Dropped on
    empty canvas or on itself, nothing changes at all. *)
Theorem canvas_drop_permutes (node : FlowNode) (c : Canvas) (now : N)
  (st : App) :
  isOverTrash c = false ->
  let st' := invoke (snd (handleDrop (Some (handleNodeDragStart node)) c))
                    now st in
  Permutation (nodes st) (nodes st') /\
  selectedNodeId st' = selectedNodeId st /\
  (truthy (dragOverId c) = false \/ dropPosition c = None \/
   dragOverId c = Some (nodeId node) -> st' = st).
Proof.
  intros Htrash. cbv zeta. unfold handleDrop. rewrite Htrash.
  change (dragId (handleNodeDragStart node)) with (Some (nodeId node)).
  change (source (handleNodeDragStart node)) with canvas.
  destruct (truthy (dragOverId c)) eqn:Ht;
    [destruct (dropPosition c) as [pos|] eqn:Hp|];
    try (split; [reflexivity|]; split; [reflexivity|]; reflexivity).
  destruct (strictEq (Some (nodeId node)) (dragOverId c)) eqn:Hself;
    cbn [negb snd invoke].
  - split; [reflexivity|]. split; reflexivity.
  - destruct (handleDropNode_canvas (handleNodeDragStart node) (dragOverId c)
                pos now st eq_refl) as [HP Hsel].
    split; [exact HP|]. split; [exact Hsel|].
    intros [H | [H | H]]; try discriminate H.
    rewrite H in Hself. simpl in Hself. rewrite String.eqb_refl in Hself.
    discriminate Hself.
Qed.

Lemma canvas_drop_permutes_witness :
  let c := mkCanvas vertical true false 1 (mkPan 0 0) false (Some "w1")
                    (Some before) in
  let st := mkApp [] "layout_weekend" WEEKEND_NODES (Some "w2") in
  let node := nth 3 WEEKEND_NODES
                  (SingleNode (mkBase "" "" None None None None None) task) in
  Permutation WEEKEND_NODES
    (nodes (invoke (snd (handleDrop (Some (handleNodeDragStart node)) c))
                   0 st)).
Proof.
  cbv zeta.
  set (c := mkCanvas vertical true false 1 (mkPan 0 0) false (Some "w1")
                     (Some before)).
  set (st := mkApp [] "layout_weekend" WEEKEND_NODES (Some "w2")).
  set (node := nth 3 WEEKEND_NODES
                   (SingleNode (mkBase "" "" None None None None None) task)).
  destruct (canvas_drop_permutes node c 0 st eq_refl) as (HP & _).
  exact HP.
Defined.

(** ** Edits from the properties panel and the side-events note *)

Lemma deleteRecursive_app (i : string) (l1 l2 : list FlowNode) :
  deleteRecursive i (l1 ++ l2) = deleteRecursive i l1 ++ deleteRecursive i l2.
Proof. unfold deleteRecursive. now rewrite filter_app, map_app. Qed.

Lemma updateRecursive_app (u : FlowNode) (l1 l2 : list FlowNode) :
  updateRecursive u (l1 ++ l2) = updateRecursive u l1 ++ updateRecursive u l2.
Proof. unfold updateRecursive. apply map_app. Qed.

(** Replacing a top-level node of a sequence with unique identifiers by a
    node with its identifier. *)
Lemma updateRecursive_top (u n : FlowNode) (l1 l2 : list FlowNode) :
  NoDup (allIds (l1 ++ n :: l2)) -> nodeId u = nodeId n ->
  updateRecursive u (l1 ++ n :: l2) = l1 ++ u :: l2.
Proof.
  intros Hnd Hid. rewrite allIds_app in Hnd.
  change (allIds (n :: l2)) with (nodeIds n ++ allIds l2) in Hnd.
  destruct (NoDup_app_inv _ _ Hnd) as (_ & Hn2 & Hd1).
  destruct (NoDup_app_inv _ _ Hn2) as (_ & _ & Hd2).
  rewrite updateRecursive_app, updateRecursive_cons, Hid, String.eqb_refl.
  rewrite !updateRecursive_absent; [reflexivity | |].
  - rewrite Hid. apply Hd2. now left.
  - rewrite Hid. intros H. apply (Hd1 _ H). apply in_or_app. left. now left.
Qed.

(** X8. Deleting a side event from the properties panel or from the note
    on the canvas goes through an update of the whole block.  When
    identifiers are unique and the block is in the tree, the outcome is the
    one of [deleteRecursive] on the event's identifier. *)
Theorem deleteSideEvent_is_delete (b : BaseNode) (se : list FlowNode)
  (w h : option Q) (eventId : string) (now : N) (st : App) :
  NoDup (allIds (nodes st)) ->
  In (BlockNode b se w h) (nodes st) ->
  In eventId (map nodeId se) ->
  nodes (invoke (deleteSideEvent eventId (BlockNode b se w h)) now st) =
    deleteRecursive eventId (nodes st) /\
  nodes (invoke (Some (handleDeleteSideEvent b se w h eventId)) now st) =
    deleteRecursive eventId (nodes st).
Proof.
  intros Hnd Hin Hev.
  assert (H : updateRecursive
                (BlockNode b (filter (fun evt => negb (nodeId evt =? eventId))
                                     se) w h) (nodes st)
              = deleteRecursive eventId (nodes st)).
  { apply in_split in Hin. destruct Hin as (l1 & l2 & Hl). rewrite Hl in *.
    rewrite (updateRecursive_top
               (BlockNode b (filter (fun evt => negb (nodeId evt =? eventId))
                                    se) w h)
               (BlockNode b se w h) l1 l2 Hnd eq_refl).
    rewrite allIds_app in Hnd.
    change (allIds (BlockNode b se w h :: l2))
      with ((id b :: map nodeId se) ++ allIds l2) in Hnd.
    destruct (NoDup_app_inv _ _ Hnd) as (_ & Hn2 & Hd1).
    destruct (NoDup_app_inv _ _ Hn2) as (Hown & _ & Hd2).
    apply NoDup_cons_iff in Hown. destruct Hown as [Hb _].
    rewrite deleteRecursive_app, deleteRecursive_cons.
    change (nodeId (BlockNode b se w h)) with (id b).
    destruct (String.eqb_spec (id b) eventId) as [E | _].
    - exfalso. apply Hb. now rewrite E.
    - rewrite !deleteRecursive_absent; [reflexivity | |].
      + apply Hd2. now right.
      + intros Hl1. apply (Hd1 _ Hl1). apply in_or_app. left. now right. }
  split; exact H.
Qed.

Lemma deleteSideEvent_is_delete_witness :
  let st := mkApp [] "layout_weekday" INITIAL_NODES None in
  let blk := nth 2 INITIAL_NODES
                 (SingleNode (mkBase "" "" None None None None None) task) in
  nodes (invoke (deleteSideEvent "side_1" blk) 0 st) =
    deleteRecursive "side_1" INITIAL_NODES.
Proof.
  cbv zeta.
  set (st := mkApp [] "layout_weekday" INITIAL_NODES None).
  assert (Hnd : NoDup (allIds (nodes st)))
    by (apply distinct_NoDup; vm_compute; reflexivity).
  refine (proj1 (deleteSideEvent_is_delete _ _ None None "side_1" 0 st
                   Hnd _ _)).
  - simpl. right. right. left. reflexivity.
  - simpl. left. reflexivity.
Defined.

(** X9. [addSideEvent] puts the new event last and keeps the events that
    were there; when its clock-derived identifier is not already used in
    the block, [deleteSideEvent] on that identifier gives the block back as
    it was. *)
Theorem addSideEvent_then_delete (ty : SingleType) (now : N) (b : BaseNode)
  (se : list FlowNode) (w h : option Q) :
  let newId := (id b ++ "_side_" ++ toString now)%string in
  ~ In newId (map nodeId se) ->
  exists newEvent,
    nodeId newEvent = newId /\
    addSideEvent ty now (BlockNode b se w h) =
      Some (OnUpdateNode (BlockNode b (se ++ [newEvent]) w h)) /\
    deleteSideEvent newId (BlockNode b (se ++ [newEvent]) w h) =
      Some (OnUpdateNode (BlockNode b se w h)).
Proof.
  cbv zeta. intros Hfresh. eexists. split; [|split].
  2: reflexivity.
  - reflexivity.
  - simpl. rewrite filter_app. simpl.
    unfold nodeId at 2. simpl. rewrite String.eqb_refl. simpl.
    rewrite app_nil_r, keep_other_ids; [reflexivity | exact Hfresh].
Qed.

Lemma addSideEvent_then_delete_witness :
  exists newEvent,
    nodeId newEvent = "w_block_1_side_1700000000000" /\
    children newEvent = [].
Proof.
  pose (dflt := SingleNode (mkBase "" "" None None None None None) task).
  assert (Hfresh : ~ In ("w_block_1" ++ "_side_" ++ toString 1700000000000)%string
                        (map nodeId (children (nth 2 WEEKEND_NODES dflt)))).
  { rewrite <- existsb_eqb_In. vm_compute. discriminate. }
  destruct (addSideEvent_then_delete task 1700000000000
              (baseOf (nth 2 WEEKEND_NODES dflt))
              (children (nth 2 WEEKEND_NODES dflt)) None None Hfresh)
    as (ev & Hid & Hadd & _).
  exists ev. split; [exact Hid|].
  vm_compute in Hadd. injection Hadd as <-. reflexivity.
Defined.

(** X10. [handleBranchCountChange] gives a branch exactly [count]
    children and never touches the ones it keeps: the first
    [min count n] children of the result are the first [min count n]
    children before, in order. *)
Theorem handleBranchCountChange_count (count : nat) (clock : nat -> N)
  (b : BaseNode) (bs : list FlowNode) :
  exists bs',
    handleBranchCountChange count clock (BranchNode b bs) =
      Some (OnUpdateNode (BranchNode b bs')) /\
    List.length bs' = count /\
    firstn (Nat.min count (List.length bs)) bs' =
      firstn (Nat.min count (List.length bs)) bs.
Proof.
  unfold handleBranchCountChange.
  destruct (Nat.ltb_spec (List.length bs) count) as [Hlt | Hge].
  - eexists. split; [reflexivity|]. split.
    + rewrite List.length_app, length_map, length_seq. lia.
    + rewrite Nat.min_r by lia. rewrite firstn_app, Nat.sub_diag. simpl.
      now rewrite app_nil_r.
  - destruct (Nat.ltb_spec count (List.length bs)) as [Hlt | Hge'].
    + eexists. split; [reflexivity|]. split.
      * rewrite length_firstn. lia.
      * rewrite Nat.min_l by lia. rewrite firstn_firstn. now rewrite Nat.min_id.
    + exists bs. split; [reflexivity|]. split; [lia | reflexivity].
Qed.

(** The node found under an identifier is the only top-level node that
    carries it, when identifiers are unique. *)
Lemma findNode_unique_top (i : string) (l : list FlowNode) (n m : FlowNode) :
  NoDup (allIds l) -> findNode i l = Some n ->
  In m l -> nodeId m = i -> m = n.
Proof.
  induction l as [|a l IH]; intros Hnd Hf Hm Hid; [destruct Hm|].
  rewrite allIds_cons in Hnd. apply NoDup_cons_iff in Hnd.
  destruct Hnd as [Hfresh Hrest].
  apply NoDup_app_inv in Hrest. destruct Hrest as (_ & Htail & Hdisj).
  rewrite findNode_cons in Hf.
  destruct (String.eqb_spec (nodeId a) i) as [E | E].
  - injection Hf as <-. destruct Hm as [-> | Hm]; [reflexivity|].
    exfalso. apply Hfresh. apply in_or_app. right.
    rewrite E, <- Hid. now apply top_id_in_allIds.
  - destruct Hm as [-> | Hm]; [contradiction|].
    destruct (find _ (children a)) as [c|] eqn:Hc.
    + exfalso. apply find_id_some in Hc. destruct Hc as [Hci Hcin].
      apply (Hdisj i).
      * rewrite <- Hci. now apply in_map.
      * rewrite <- Hid. now apply top_id_in_allIds.
    + now apply IH.
Qed.

(** An update whose replacement has the identifiers of the node found
    under its identifier leaves the identifiers of the tree as they are. *)
Lemma updateRecursive_same_ids (u n : FlowNode) (l : list FlowNode) :
  NoDup (allIds l) -> findNode (nodeId u) l = Some n ->
  nodeIds u = nodeIds n ->
  allIds (updateRecursive u l) = allIds l.
Proof.
  intros Hnd Hf Hids. rewrite updateRecursive_ids. unfold allIds.
  rewrite !flat_map_concat_map. f_equal. apply map_ext_in. intros m Hm.
  destruct (String.eqb_spec (nodeId m) (nodeId u)) as [E | _]; [|reflexivity].
  now rewrite (findNode_unique_top _ l n m Hnd Hf Hm E).
Qed.

Lemma findNode_occurs (i : string) (l : list FlowNode) (n : FlowNode) :
  findNode i l = Some n -> In i (allIds l).
Proof.
  intros Hf. pose proof (findNode_spec i l) as H. rewrite Hf in H.
  destruct H as [Hn [Hin | (p & Hp & Hin)]]; subst i.
  - now apply top_id_in_allIds.
  - unfold allIds. apply in_flat_map. exists p. split; [exact Hp|].
    right. now apply in_map.
Qed.

(** X1. [findNode] is a correct lookup on the two levels of the tree: a
    node it returns carries the requested identifier and sits at the top
    level or in the nested list of a top-level node, and it returns nothing
    exactly when the identifier occurs nowhere. *)
Theorem findNode_correct (i : string) (l : list FlowNode) :
  (forall n, findNode i l = Some n ->
     nodeId n = i /\ (In n l \/ exists p, In p l /\ In n (children p))) /\
  (findNode i l = None <-> ~ In i (allIds l)).
Proof.
  pose proof (findNode_spec i l) as H. split.
  - intros n Hf. rewrite Hf in H. exact H.
  - split.
    + intros Hf. rewrite Hf in H. exact H.
    + intros Hn. destruct (findNode i l) as [n|] eqn:Hf; [|reflexivity].
      exfalso. apply Hn. exact (findNode_occurs i l n Hf).
Qed.

(** X2. Update then lookup: when the identifier of the replacement occurs
    in the tree, [findNode] on the updated sequence returns the
    replacement; when it occurs nowhere, the lookup finds nothing, the
    replacement is not inserted. *)
Theorem findNode_after_update (u : FlowNode) (l : list FlowNode) :
  (In (nodeId u) (allIds l) ->
   findNode (nodeId u) (updateRecursive u l) = Some u) /\
  (~ In (nodeId u) (allIds l) ->
   findNode (nodeId u) (updateRecursive u l) = None).
Proof.
  split; [apply findNode_updated|]. intros Hn.
  rewrite (updateRecursive_absent u l Hn).
  destruct (findNode (nodeId u) l) as [n|] eqn:Hf; [|reflexivity].
  exfalso. apply Hn. exact (findNode_occurs _ _ _ Hf).
Qed.

Lemma findNode_after_update_witness :
  let u := SingleNode (mkBase "2b" "读书" None None None None None) task in
  findNode "2b" (updateRecursive u INITIAL_NODES) = Some u.
Proof.
  cbv zeta.
  apply (proj1 (findNode_after_update
           (SingleNode (mkBase "2b" "读书" None None None None None) task)
           INITIAL_NODES)).
  apply existsb_eqb_In. vm_compute. reflexivity.
Defined.

Lemma nodeIds_withBase (n : FlowNode) (b : BaseNode) :
  id b = nodeId n -> nodeIds (withBase n b) = nodeIds n.
Proof. intros H. destruct n; unfold nodeIds, nodeId; simpl; now rewrite H. Qed.

Lemma id_setField (e : FieldEdit) (b : BaseNode) : id (setField e b) = id b.
Proof. now destruct e. Qed.

(** X11. An edit of the title, subtitle, duration, colour or dashed flag of
    the selected node, made in the properties panel on a tree with unique
    identifiers, changes no identifier anywhere in the tree, and the node
    found under the selected identifier afterwards is the edited node. *)
Theorem handleChange_keeps_ids (e : FieldEdit) (i : string) (n : FlowNode)
  (now : N) (st : App) :
  NoDup (allIds (nodes st)) ->
  selectedNodeId st = Some i -> i <> "" ->
  findNode i (nodes st) = Some n ->
  let st' := invoke (withSelected (selectedNodeId st) (nodes st)
                                  (handleChange e)) now st in
  allIds (nodes st') = allIds (nodes st) /\
  findNode i (nodes st') = Some (withBase n (setField e (baseOf n))).
Proof.
  intros Hnd Hsel Hne Hf. cbv zeta. unfold withSelected.
  rewrite Hsel. simpl truthy.
  destruct (String.eqb_spec i "") as [E | _]; [contradiction|].
  simpl negb. cbv iota. rewrite Hf. unfold handleChange. simpl invoke.
  set (u := withBase n (setField e (baseOf n))).
  assert (Hi : nodeId n = i).
  { pose proof (findNode_spec i (nodes st)) as H. rewrite Hf in H.
    apply H. }
  assert (Hu : nodeIds u = nodeIds n)
    by (apply nodeIds_withBase; apply id_setField).
  assert (Hid : nodeId u = i).
  { injection Hu as Hhead _. now rewrite Hhead. }
  simpl nodes. split.
  - apply (updateRecursive_same_ids u n); [exact Hnd | now rewrite Hid | exact Hu].
  - rewrite <- Hid at 1. apply findNode_updated.
    rewrite Hid. exact (findNode_occurs i _ n Hf).
Qed.

Lemma handleChange_keeps_ids_witness :
  let st := mkApp [] "layout_weekday" INITIAL_NODES (Some "2b") in
  allIds (nodes (invoke (withSelected (selectedNodeId st) (nodes st)
                                      (handleChange (EditTitle "读书")))
                        0 st)) = allIds INITIAL_NODES.
Proof.
  cbv zeta.
  set (st := mkApp [] "layout_weekday" INITIAL_NODES (Some "2b")).
  assert (Hnd : NoDup (allIds (nodes st)))
    by (apply distinct_NoDup; vm_compute; reflexivity).
  assert (Hne : "2b" <> "") by discriminate.
  pose (dflt := SingleNode (mkBase "" "" None None None None None) task).
  exact (proj1 (handleChange_keeps_ids (EditTitle "读书") "2b"
                  (nth 1 (children (nth 1 INITIAL_NODES dflt)) dflt) 0 st
                  Hnd eq_refl Hne eq_refl)).
Defined.

(** X12. A resize of a block that is in a tree with unique identifiers
    changes no identifier of the tree and none of the block's side events;
    the block found under its identifier afterwards carries the written
    size, and [NodeShape] draws it with that size, at least 100 by 100. *)
Theorem resize_keeps_tree (b : BaseNode) (se : list FlowNode)
  (cw ch : option Q) (zoom : Q) (e moveEvent : Event) (now : N) (st : App) :
  NoDup (allIds (nodes st)) ->
  In (BlockNode b se cw ch) (nodes st) ->
  let st' := invoke (Some (handleResizeStart b se cw ch zoom e moveEvent))
                    now st in
  allIds (nodes st') = allIds (nodes st) /\
  exists w h,
    findNode (id b) (nodes st') = Some (BlockNode b se (Some w) (Some h)) /\
    blockSize (BlockNode b se (Some w) (Some h)) = (w, h) /\
    100 <= w /\ 100 <= h.
Proof.
  intros Hnd Hin. cbv zeta.
  unfold handleResizeStart. cbv zeta.
  set (w := Qmax 100 (orDefault cw 128 + (clientX moveEvent - clientX e) / zoom)).
  set (h := Qmax 100 (orDefault ch 128 + (clientY moveEvent - clientY e) / zoom)).
  assert (Hw : 100 <= w) by apply Q.le_max_l.
  assert (Hh : 100 <= h) by apply Q.le_max_l.
  clearbody w h. simpl invoke. simpl nodes.
  set (u := BlockNode b se (Some w) (Some h)).
  apply in_split in Hin. destruct Hin as (l1 & l2 & Hl). rewrite Hl in *.
  rewrite (updateRecursive_top u (BlockNode b se cw ch) l1 l2 Hnd eq_refl).
  split.
  - rewrite !allIds_app. reflexivity.
  - exists w, h. split; [|split; [|split; assumption]].
    + change (id b) with (nodeId u).
      rewrite <- (updateRecursive_top u (BlockNode b se cw ch) l1 l2 Hnd eq_refl).
      apply findNode_updated. rewrite allIds_app. apply in_or_app.
      right. now left.
    + unfold u, blockSize, orDefault.
      assert (Hw0 : Qeq_bool w 0 = false).
      { apply not_true_is_false. intros E. apply Qeq_bool_iff in E.
        rewrite E in Hw. now apply Hw. }
      assert (Hh0 : Qeq_bool h 0 = false).
      { apply not_true_is_false. intros E. apply Qeq_bool_iff in E.
        rewrite E in Hh. now apply Hh. }
      now rewrite Hw0, Hh0.
Qed.

Lemma resize_keeps_tree_witness :
  let st := mkApp [] "layout_weekend" WEEKEND_NODES None in
  let down := mkEvent 0 false 500 500 0 0 in
  let move := mkEvent 0 false 100 100 0 0 in
  let blk := nth 2 WEEKEND_NODES
                 (SingleNode (mkBase "" "" None None None None None) task) in
  allIds (nodes (invoke (Some (handleResizeStart (baseOf blk) (children blk)
                                 None None 1 down move)) 0 st))
  = allIds WEEKEND_NODES.
Proof.
  cbv zeta.
  set (st := mkApp [] "layout_weekend" WEEKEND_NODES None).
  pose (dflt := SingleNode (mkBase "" "" None None None None None) task).
  assert (Hnd : NoDup (allIds (nodes st)))
    by (apply distinct_NoDup; vm_compute; reflexivity).
  assert (Hin : In (BlockNode (baseOf (nth 2 WEEKEND_NODES dflt))
                              (children (nth 2 WEEKEND_NODES dflt)) None None)
                   (nodes st))
    by (simpl; right; right; left; reflexivity).
  exact (proj1 (resize_keeps_tree _ _ None None 1
                  (mkEvent 0 false 500 500 0 0) (mkEvent 0 false 100 100 0 0)
                  0 st Hnd Hin)).
Defined.

(** ** Persistence *)

Lemma merge_ids (a : string) (ns : list FlowNode) (ls : list Layout) :
  map layoutId (savedLayouts (getPersistentData ls a ns)) = map layoutId ls /\
  map name (savedLayouts (getPersistentData ls a ns)) = map name ls.
Proof.
  unfold getPersistentData. simpl. rewrite !map_map.
  split; apply map_ext; intros l; now destruct (layoutId l =? a).
Qed.

(** Looking a layout up by identifier in the merged layouts. *)
Lemma find_merged (x a : string) (ns : list FlowNode) (ls : list Layout) :
  find (fun l => layoutId l =? x)
       (map (fun l => if layoutId l =? a
                      then mkLayout (layoutId l) (name l) ns else l) ls) =
  option_map (fun l => if layoutId l =? a
                       then mkLayout (layoutId l) (name l) ns else l)
             (find (fun l => layoutId l =? x) ls).
Proof.
  induction ls as [|l ls IH]; [reflexivity|]. simpl.
  assert (E : layoutId (if layoutId l =? a
                        then mkLayout (layoutId l) (name l) ns else l)
              = layoutId l) by (now destruct (layoutId l =? a)).
  rewrite E. destruct (layoutId l =? x); [reflexivity | exact IH].
Qed.

Lemma find_present (x : string) (ls : list Layout) :
  (exists l, In l ls /\ layoutId l = x) ->
  exists l, find (fun l => layoutId l =? x) ls = Some l /\ layoutId l = x.
Proof.
  intros (l & Hin & Hid).
  destruct (find (fun l => layoutId l =? x) ls) as [l'|] eqn:Hf.
  - exists l'. split; [reflexivity|]. apply find_some in Hf.
    now apply String.eqb_eq.
  - exfalso. pose proof (find_none _ _ Hf l Hin) as H. simpl in H.
    rewrite Hid, String.eqb_refl in H. discriminate H.
Qed.

(** X13. [getPersistentData] keeps the number, order, identifiers and
    names of the layouts, gives the current nodes to every layout with the
    active identifier and leaves every other layout as it is.  When no
    layout has the active identifier, the record holds the layouts as
    given: the current nodes are not in it. *)
Theorem getPersistentData_merges (ls : list Layout) (a : string)
  (ns : list FlowNode) :
  let d := getPersistentData ls a ns in
  savedActiveLayoutId d = Some a /\
  map layoutId (savedLayouts d) = map layoutId ls /\
  map name (savedLayouts d) = map name ls /\
  (forall k l, nth_error ls k = Some l ->
     exists l', nth_error (savedLayouts d) k = Some l' /\
       if layoutId l =? a then layoutNodes l' = ns else l' = l) /\
  ((forall l, In l ls -> layoutId l <> a) -> savedLayouts d = ls).
Proof.
  cbv zeta. split; [reflexivity|].
  destruct (merge_ids a ns ls) as [Hi Hn].
  split; [exact Hi|]. split; [exact Hn|]. split.
  - intros k l Hk. unfold getPersistentData. simpl.
    rewrite nth_error_map, Hk. simpl. eexists. split; [reflexivity|].
    now destruct (layoutId l =? a).
  - intros Hno. unfold getPersistentData. simpl.
    rewrite <- (map_id ls) at 2. apply map_ext_in. intros l Hl.
    destruct (String.eqb_spec (layoutId l) a) as [E | _]; [|reflexivity].
    exfalso. exact (Hno l Hl E).
Qed.

Lemma getPersistentData_merges_witness :
  savedLayouts (getPersistentData DEFAULT_LAYOUTS "layout_1700000000000" [])
  = DEFAULT_LAYOUTS.
Proof.
  apply (getPersistentData_merges DEFAULT_LAYOUTS "layout_1700000000000" []).
  intros l Hl E. simpl in Hl. destruct Hl as [<- | [<- | []]]; discriminate E.
Defined.

Lemma loadOnMount_of_merged (ls : list Layout) (a : string)
  (ns : list FlowNode) (st : App) :
  a <> "" -> (exists l, In l ls /\ layoutId l = a) ->
  loadOnMount (Some (getPersistentData ls a ns)) st =
    mkApp (savedLayouts (getPersistentData ls a ns)) a ns (selectedNodeId st).
Proof.
  intros Hne Hex. destruct (find_present a ls Hex) as (l & Hf & Hid).
  pose proof (find_merged a a ns ls) as Hm. rewrite Hf in Hm. simpl in Hm.
  rewrite Hid, String.eqb_refl in Hm.
  unfold loadOnMount, getPersistentData.
  cbn [savedLayouts savedActiveLayoutId truthy].
  destruct (String.eqb_spec a "") as [E | _]; [contradiction|].
  cbn [negb].
  destruct ls as [|l0 ls']; [discriminate Hf|].
  rewrite Hm. reflexivity.
Qed.

Lemma loadEffect_app (now : Date) (s : Session) (d : AppData) :
  FLOWDAY_APP_DATA (storage s) = Some d ->
  app (loadEffect now s) = loadOnMount (Some d) (app s).
Proof.
  intros Hd. unfold loadEffect. rewrite Hd.
  destruct (savedLayouts d) as [|first rest] eqn:Hs; [|reflexivity].
  unfold loadOnMount. now rewrite Hs.
Qed.

(** X14. Save, then start again: when the active identifier is not empty
    and names a layout, a session started on the storage written by
    [saveToStorage] comes back with that active layout and with the nodes
    that were on the canvas, and with the same layout identifiers; the
    legacy key is gone. *)
Theorem save_then_load (s : Session) (now now' : Date) :
  activeLayoutId (app s) <> "" ->
  (exists l, In l (layouts (app s)) /\ layoutId l = activeLayoutId (app s)) ->
  let written := storage (saveToStorage (currentData s) true now s) in
  let s' := loadEffect now' (initialSession written) in
  activeLayoutId (app s') = activeLayoutId (app s) /\
  nodes (app s') = nodes (app s) /\
  map layoutId (layouts (app s')) = map layoutId (layouts (app s)) /\
  FLOWDAY_NODES written = None.
Proof.
  intros Hne Hex. cbv zeta.
  rewrite (loadEffect_app now' _ (currentData s)) by reflexivity.
  unfold currentData. rewrite (loadOnMount_of_merged _ _ _ _ Hne Hex).
  cbn [activeLayoutId nodes layouts].
  repeat split. apply merge_ids.
Qed.

Lemma save_then_load_witness :
  let s := mkSession (mkApp DEFAULT_LAYOUTS "layout_weekend" [] (Some "w1"))
                     unsaved "" None (mkStorage None (Some "[]")) in
  let written := storage (saveToStorage (currentData s) true (mkDate 9 5) s) in
  nodes (app (loadEffect (mkDate 9 6) (initialSession written))) = [].
Proof.
  cbv zeta.
  set (s := mkSession (mkApp DEFAULT_LAYOUTS "layout_weekend" [] (Some "w1"))
                      unsaved "" None (mkStorage None (Some "[]"))).
  assert (Hne : activeLayoutId (app s) <> "") by discriminate.
  assert (Hex : exists l, In l (layouts (app s)) /\
                          layoutId l = activeLayoutId (app s)).
  { exists (mkLayout "layout_weekend" "周末 (Weekend)" WEEKEND_NODES).
    split; [right; left; reflexivity | reflexivity]. }
  destruct (save_then_load s (mkDate 9 5) (mkDate 9 6) Hne Hex)
    as (_ & Hn & _).
  exact Hn.
Defined.

Lemma app_saveToStorage (d : AppData) (ok : bool) (now : Date) (s : Session) :
  app (saveToStorage d ok now s) = app s.
Proof. unfold saveToStorage. now destruct ok. Qed.

Lemma app_selectionEffect (before : option string) (s : Session) :
  app (selectionEffect before s) = app s.
Proof. unfold selectionEffect. now destruct (sameSelection _ _). Qed.

Lemma storage_selectionEffect (before : option string) (s : Session) :
  storage (selectionEffect before s) = storage s.
Proof. unfold selectionEffect. now destruct (sameSelection _ _). Qed.

Lemma app_handleSwitchLayout (newLayoutId : string) (ok : bool) (now : Date)
  (s : Session) :
  newLayoutId <> activeLayoutId (app s) ->
  app (handleSwitchLayout newLayoutId ok now s) =
    match find (fun l => layoutId l =? newLayoutId) (layouts (app s)) with
    | Some targetLayout =>
        mkApp (layouts (app s)) newLayoutId (layoutNodes targetLayout) None
    | None => app s
    end.
Proof.
  intros Hne. unfold handleSwitchLayout.
  destruct (String.eqb_spec newLayoutId (activeLayoutId (app s)));
    [contradiction|].
  destruct (find _ (layouts (app s))).
  - now rewrite app_selectionEffect.
  - apply app_saveToStorage.
Qed.

Lemma storage_handleSwitchLayout (newLayoutId : string) (now : Date)
  (s : Session) :
  newLayoutId <> activeLayoutId (app s) ->
  storage (handleSwitchLayout newLayoutId true now s) =
    mkStorage (Some (currentData s)) None.
Proof.
  intros Hne. unfold handleSwitchLayout.
  destruct (String.eqb_spec newLayoutId (activeLayoutId (app s)));
    [contradiction|].
  destruct (find _ (layouts (app s))); [|reflexivity].
  now rewrite storage_selectionEffect.
Qed.

(** X15. Switching to another layout writes the outgoing state first, under
    the outgoing active identifier.  The switch then shows the target's
    nodes with nothing selected, or changes nothing when the target is
    unknown; a session started on the storage right after the switch opens
    the layout that was left, with the nodes it had on the canvas. *)
Theorem switch_saves_outgoing (s : Session) (b : string) (now now' : Date) :
  activeLayoutId (app s) <> "" ->
  (exists l, In l (layouts (app s)) /\ layoutId l = activeLayoutId (app s)) ->
  b <> activeLayoutId (app s) ->
  let s1 := handleSwitchLayout b true now s in
  let s' := loadEffect now' (initialSession (storage s1)) in
  FLOWDAY_APP_DATA (storage s1) = Some (currentData s) /\
  app s1 =
    match find (fun l => layoutId l =? b) (layouts (app s)) with
    | Some targetLayout =>
        mkApp (layouts (app s)) b (layoutNodes targetLayout) None
    | None => app s
    end /\
  activeLayoutId (app s') = activeLayoutId (app s) /\
  nodes (app s') = nodes (app s).
Proof.
  intros Hne Hex Hb. cbv zeta.
  rewrite (storage_handleSwitchLayout b now s Hb).
  split; [reflexivity|].
  split; [exact (app_handleSwitchLayout b true now s Hb)|].
  rewrite (loadEffect_app now' _ (currentData s)) by reflexivity.
  unfold currentData. rewrite (loadOnMount_of_merged _ _ _ _ Hne Hex).
  split; reflexivity.
Qed.

Lemma switch_saves_outgoing_witness :
  let s := mkSession (mkApp DEFAULT_LAYOUTS "layout_weekend" [] None)
                     unsaved "" None (mkStorage None None) in
  let s1 := handleSwitchLayout "layout_weekday" true (mkDate 9 5) s in
  activeLayoutId
    (app (loadEffect (mkDate 9 6) (initialSession (storage s1))))
  = "layout_weekend".
Proof.
  cbv zeta.
  set (s := mkSession (mkApp DEFAULT_LAYOUTS "layout_weekend" [] None)
                      unsaved "" None (mkStorage None None)).
  assert (Hne : activeLayoutId (app s) <> "") by discriminate.
  assert (Hex : exists l, In l (layouts (app s)) /\
                          layoutId l = activeLayoutId (app s)).
  { exists (mkLayout "layout_weekend" "周末 (Weekend)" WEEKEND_NODES).
    split; [right; left; reflexivity | reflexivity]. }
  assert (Hb : "layout_weekday" <> activeLayoutId (app s)) by discriminate.
  destruct (switch_saves_outgoing s "layout_weekday" (mkDate 9 5) (mkDate 9 6)
              Hne Hex Hb) as (_ & _ & Ha & _).
  exact Ha.
Defined.

Lemma app_syncEffect (s : Session) :
  app (syncEffect s) =
    mkApp (savedLayouts (currentData s)) (activeLayoutId (app s))
          (nodes (app s)) (selectedNodeId (app s)).
Proof. reflexivity. Qed.

Lemma find_merged_other (x a : string) (ns : list FlowNode)
  (ls : list Layout) (lx : Layout) :
  find (fun l => layoutId l =? x) ls = Some lx -> x <> a ->
  find (fun l => layoutId l =? x) (savedLayouts (getPersistentData ls a ns))
  = Some lx.
Proof.
  intros Hf Hne. unfold getPersistentData. cbn [savedLayouts].
  rewrite find_merged, Hf. simpl.
  apply find_some in Hf. destruct Hf as [_ E]. apply String.eqb_eq in E.
  rewrite E. apply String.eqb_neq in Hne. now rewrite Hne.
Qed.

Lemma find_merged_same (a : string) (ns : list FlowNode) (ls : list Layout)
  (la : Layout) :
  find (fun l => layoutId l =? a) ls = Some la ->
  find (fun l => layoutId l =? a) (savedLayouts (getPersistentData ls a ns))
  = Some (mkLayout a (name la) ns).
Proof.
  intros Hf. unfold getPersistentData. cbn [savedLayouts].
  rewrite find_merged, Hf. simpl.
  apply find_some in Hf. destruct Hf as [_ E]. apply String.eqb_eq in E.
  now rewrite E, String.eqb_refl.
Qed.

Lemma switch_after_sync (newLayoutId : string) (ok : bool) (now : Date)
  (s : Session) (target : Layout) :
  newLayoutId <> activeLayoutId (app s) ->
  find (fun l => layoutId l =? newLayoutId) (savedLayouts (currentData s))
  = Some target ->
  app (handleSwitchLayout newLayoutId ok now (syncEffect s)) =
    mkApp (savedLayouts (currentData s)) newLayoutId (layoutNodes target) None.
Proof.
  intros Hne Hf.
  rewrite app_handleSwitchLayout by (rewrite app_syncEffect; exact Hne).
  rewrite app_syncEffect. cbn [layouts]. now rewrite Hf.
Qed.

(** X16. Going to another layout and back loses nothing, whether or not
    the writes succeed: once the effect on [[nodes, activeLayoutId]] has
    run, switching from layout [a] to a known layout [b] and, after the
    effect has run again, back to [a] shows the nodes that were on the
    canvas, with [a] active. *)
Theorem switch_round_trip (s : Session) (b : string) (ok1 ok2 : bool)
  (now1 now2 : Date) :
  (exists l, In l (layouts (app s)) /\ layoutId l = activeLayoutId (app s)) ->
  (exists l, In l (layouts (app s)) /\ layoutId l = b) ->
  b <> activeLayoutId (app s) ->
  let s1 := handleSwitchLayout b ok1 now1 (syncEffect s) in
  let s2 := handleSwitchLayout (activeLayoutId (app s)) ok2 now2
                               (syncEffect s1) in
  activeLayoutId (app s1) = b /\
  activeLayoutId (app s2) = activeLayoutId (app s) /\
  nodes (app s2) = nodes (app s).
Proof.
  intros Ha Hb Hne. cbv zeta.
  destruct (find_present _ _ Ha) as (la & Hfa & Hida).
  destruct (find_present _ _ Hb) as (lb & Hfb & Hidb).
  assert (H1 : app (handleSwitchLayout b ok1 now1 (syncEffect s)) =
               mkApp (savedLayouts (currentData s)) b (layoutNodes lb) None).
  { apply switch_after_sync; [exact Hne|].
    unfold currentData. now apply find_merged_other. }
  split; [now rewrite H1|].
  set (s1 := handleSwitchLayout b ok1 now1 (syncEffect s)) in *.
  assert (H2 : app (handleSwitchLayout (activeLayoutId (app s)) ok2 now2
                                       (syncEffect s1)) =
               mkApp (savedLayouts (currentData s1)) (activeLayoutId (app s))
                     (nodes (app s)) None).
  { apply (switch_after_sync _ ok2 now2 s1
             (mkLayout (activeLayoutId (app s)) (name la) (nodes (app s)))).
    - rewrite H1. simpl. intros E. now apply Hne.
    - unfold currentData at 1. rewrite H1. cbn [layouts activeLayoutId nodes].
      apply find_merged_other; [|intros E; now apply Hne].
      unfold currentData. now apply find_merged_same. }
  rewrite H2. split; reflexivity.
Qed.

Lemma switch_round_trip_witness :
  let s := mkSession (mkApp DEFAULT_LAYOUTS "layout_weekend" [] None)
                     unsaved "" None (mkStorage None None) in
  let s1 := handleSwitchLayout "layout_weekday" false (mkDate 9 5)
                               (syncEffect s) in
  nodes (app (handleSwitchLayout "layout_weekend" true (mkDate 9 6)
                                 (syncEffect s1))) = [].
Proof.
  cbv zeta.
  set (s := mkSession (mkApp DEFAULT_LAYOUTS "layout_weekend" [] None)
                      unsaved "" None (mkStorage None None)).
  assert (Ha : exists l, In l (layouts (app s)) /\
                         layoutId l = activeLayoutId (app s)).
  { exists (mkLayout "layout_weekend" "周末 (Weekend)" WEEKEND_NODES).
    split; [right; left; reflexivity | reflexivity]. }
  assert (Hb : exists l, In l (layouts (app s)) /\
                         layoutId l = "layout_weekday").
  { exists (mkLayout "layout_weekday" "工作日 (Weekday)" INITIAL_NODES).
    split; [left; reflexivity | reflexivity]. }
  assert (Hne : "layout_weekday" <> activeLayoutId (app s)) by discriminate.
  destruct (switch_round_trip s "layout_weekday" false true (mkDate 9 5)
              (mkDate 9 6) Ha Hb Hne) as (_ & _ & Hn).
  exact Hn.
Defined.

(** X17. Creating a layout, once the effect on [[nodes, activeLayoutId]]
    has run and with a clock-derived identifier that no layout has yet:
    the new layout is appended, empty and active, nothing is selected, and
    the layouts that were there keep their place.  The record that the
    deferred write stores ends with the new layout, still holds the
    outgoing layout with the nodes that were on the canvas, and a session
    started on it opens the new, empty layout.  A dismissed or empty
    prompt changes nothing and schedules no write. *)
Theorem create_layout (s : Session) (layoutName : string) (nowMs : N)
  (ok : bool) (now : Date) (st0 : App) :
  layoutName <> "" ->
  (forall l, In l (layouts (app s)) ->
             layoutId l <> ("layout_" ++ toString nowMs)%string) ->
  let newId := ("layout_" ++ toString nowMs)%string in
  let newLayout := mkLayout newId layoutName [] in
  let merged := savedLayouts (currentData s) in
  let result := handleCreateLayout (Some layoutName) nowMs ok now
                                   (syncEffect s) in
  app (fst result) = mkApp (merged ++ [newLayout]) newId [] None /\
  (exists rec,
     snd result = Some rec /\
     savedLayouts rec = merged ++ [newLayout] /\
     savedActiveLayoutId rec = Some newId /\
     activeLayoutId (loadOnMount (Some rec) st0) = newId /\
     nodes (loadOnMount (Some rec) st0) = []) /\
  handleCreateLayout None nowMs ok now s = (s, None) /\
  handleCreateLayout (Some "") nowMs ok now s = (s, None).
Proof.
  intros Hname Hfresh. cbv zeta.
  assert (Hfresh' : forall l, In l (savedLayouts (currentData s)) ->
                      layoutId l <> ("layout_" ++ toString nowMs)%string).
  { intros l Hl. unfold currentData, getPersistentData in Hl.
    cbn [savedLayouts] in Hl. apply in_map_iff in Hl.
    destruct Hl as (l0 & <- & Hl0). specialize (Hfresh l0 Hl0).
    now destruct (layoutId l0 =? activeLayoutId (app s)). }
  unfold handleCreateLayout. simpl truthy.
  destruct (String.eqb_spec layoutName "") as [E | _]; [contradiction|].
  simpl negb. cbv iota. cbn [fst snd].
  rewrite app_selectionEffect. cbn [app setApp].
  rewrite app_syncEffect. cbn [layouts].
  split; [reflexivity|]. split; [|split; reflexivity].
  set (newId := ("layout_" ++ toString nowMs)%string) in *.
  set (newLayout := mkLayout newId layoutName []).
  set (merged := savedLayouts (currentData s)) in *.
  assert (Hrec : savedLayouts (getPersistentData (merged ++ [newLayout])
                                                 newId [])
                 = merged ++ [newLayout]).
  { unfold getPersistentData. cbn [savedLayouts]. rewrite map_app. simpl.
    rewrite String.eqb_refl. f_equal.
    rewrite <- (map_id merged) at 2. apply map_ext_in. intros l Hl.
    destruct (String.eqb_spec (layoutId l) newId) as [E | _]; [|reflexivity].
    exfalso. exact (Hfresh' l Hl E). }
  eexists. split; [reflexivity|]. split; [exact Hrec|].
  split; [reflexivity|].
  assert (Hne : newId <> "") by discriminate.
  assert (Hex : exists l, In l (merged ++ [newLayout]) /\ layoutId l = newId).
  { exists newLayout. split; [|reflexivity]. apply in_or_app. right. now left. }
  rewrite (loadOnMount_of_merged _ _ _ st0 Hne Hex). split; reflexivity.
Qed.

Lemma create_layout_witness :
  let s := mkSession (mkApp DEFAULT_LAYOUTS "layout_weekend" [] None)
                     unsaved "" None (mkStorage None None) in
  activeLayoutId
    (app (fst (handleCreateLayout (Some "假期") 1700000000000 true
                                  (mkDate 9 5) (syncEffect s))))
  = "layout_1700000000000".
Proof.
  cbv zeta.
  set (s := mkSession (mkApp DEFAULT_LAYOUTS "layout_weekend" [] None)
                      unsaved "" None (mkStorage None None)).
  assert (Hname : "假期" <> "") by discriminate.
  assert (Hfresh : forall l, In l (layouts (app s)) ->
                     layoutId l <> ("layout_" ++ toString 1700000000000)%string).
  { intros l Hl E. simpl in Hl. destruct Hl as [<- | [<- | []]];
      vm_compute in E; discriminate E. }
  destruct (create_layout s "假期" 1700000000000 true (mkDate 9 5) (app s)
              Hname Hfresh) as (Happ & _).
  rewrite Happ. reflexivity.
Defined.

(** ** The save status *)

Lemma sessionStep_saving (s : Session) (ev : SessionEvent) :
  saveStatus s = saving ->
  saveStatus (sessionStep s ev) = saving /\
  storage (sessionStep s ev) = storage s.
Proof.
  intros Hs. destruct ev as [op | | ok now]; simpl.
  - unfold applyOp, selectionEffect.
    destruct (sameSelection _ _); split; assumption || reflexivity.
  - unfold syncEffect. simpl. rewrite Hs. split; reflexivity.
  - unfold autoSaveTimer. rewrite Hs. split; [exact Hs | reflexivity].
Qed.

Lemma run_saving (evs : list SessionEvent) (s : Session) :
  saveStatus s = saving ->
  saveStatus (fold_left sessionStep evs s) = saving /\
  storage (fold_left sessionStep evs s) = storage s.
Proof.
  revert s. induction evs as [|ev evs IH]; intros s Hs; [now split|].
  simpl. destruct (sessionStep_saving s ev Hs) as [H1 H2].
  destruct (IH _ H1) as [H3 H4]. split; [exact H3 | now rewrite H4].
Qed.

(** X18. A timer write that succeeds stores the current data and returns
    the status to [saved].  A timer write that fails leaves the status at
    [saving], and from there no edit, no run of the sync effect and no
    later firing of the timer writes again or changes the status, even a
    firing whose write would succeed: only the other save paths (tab
    hidden, layout switch, new layout) write. *)
Theorem failed_autosave_sticks (s : Session) (now : Date)
  (evs : list SessionEvent) :
  saveStatus s = unsaved ->
  (saveStatus (autoSaveTimer true now s) = saved /\
   FLOWDAY_APP_DATA (storage (autoSaveTimer true now s))
     = Some (currentData s)) /\
  let s' := fold_left sessionStep evs (autoSaveTimer false now s) in
  saveStatus s' = saving /\ storage s' = storage s.
Proof.
  intros Hs. split.
  - unfold autoSaveTimer. rewrite Hs. split; reflexivity.
  - cbv zeta.
    assert (H0 : saveStatus (autoSaveTimer false now s) = saving /\
                 storage (autoSaveTimer false now s) = storage s).
    { unfold autoSaveTimer. rewrite Hs. split; reflexivity. }
    destruct H0 as [H1 H2].
    destruct (run_saving evs _ H1) as [H3 H4].
    split; [exact H3 | now rewrite H4].
Qed.

Lemma failed_autosave_sticks_witness :
  let s := mkSession (mkApp DEFAULT_LAYOUTS "layout_weekend" WEEKEND_NODES
                            None)
                     unsaved "" None (mkStorage None None) in
  let evs := [ Edited (DeleteNode "w2"); Synced;
               TimerFired true (mkDate 9 6) ] in
  storage (fold_left sessionStep evs (autoSaveTimer false (mkDate 9 5) s))
  = mkStorage None None.
Proof.
  cbv zeta.
  set (s := mkSession (mkApp DEFAULT_LAYOUTS "layout_weekend" WEEKEND_NODES
                             None)
                      unsaved "" None (mkStorage None None)).
  destruct (failed_autosave_sticks s (mkDate 9 5)
              [ Edited (DeleteNode "w2"); Synced;
                TimerFired true (mkDate 9 6) ] eq_refl) as (_ & _ & H).
  exact H.
Defined.

(** ** Deleting with the keyboard *)

Lemma handleKeyDown_backspace (tag : string) (editable : bool) (s : Session)
  (i : string) :
  (tag =? "input") || (tag =? "textarea") || editable = false ->
  selectedNodeId (app s) = Some i -> i <> "" ->
  handleKeyDown "Backspace" tag editable s =
    if strictEq (deleteConfirmId s) (Some i)
    then (setDeleteConfirmId None (applyOp (DeleteNode i) s), None)
    else (setDeleteConfirmId (Some i) s, Some i).
Proof.
  intros Hfocus Hsel Hne. unfold handleKeyDown. rewrite Hfocus, Hsel.
  simpl truthy. destruct (String.eqb_spec i "") as [E | _]; [contradiction|].
  reflexivity.
Qed.

Lemma nodes_applyOp_delete (i : string) (s : Session) :
  nodes (app (applyOp (DeleteNode i) s)) = deleteRecursive i (nodes (app s)).
Proof.
  unfold applyOp. rewrite app_selectionEffect. simpl.
  unfold handleDeleteNode. now destruct (strictEq _ _).
Qed.

Lemma selected_applyOp_delete (i : string) (s : Session) :
  selectedNodeId (app s) = Some i ->
  selectedNodeId (app (applyOp (DeleteNode i) s)) = None.
Proof.
  intros Hsel. unfold applyOp. rewrite app_selectionEffect. simpl.
  unfold handleDeleteNode. rewrite Hsel. simpl. now rewrite String.eqb_refl.
Qed.

(** X19. Backspace deletes the selected node only on the second of two
    presses.  With the focus outside a text field and no confirmation
    pending for the selected node, a press changes no node and arms the
    confirmation (and its timer) for that node; a second press deletes the
    node, clears the selection and the confirmation.  If the timer has
    fired in between, or another node has been selected, the second press
    deletes nothing. *)
Theorem backspace_needs_two_presses (tag : string) (editable : bool)
  (s : Session) (i : string) :
  (tag =? "input") || (tag =? "textarea") || editable = false ->
  selectedNodeId (app s) = Some i -> i <> "" ->
  strictEq (deleteConfirmId s) (Some i) = false ->
  let press := fun s => fst (handleKeyDown "Backspace" tag editable s) in
  (nodes (app (press s)) = nodes (app s) /\
   deleteConfirmId (press s) = Some i /\
   snd (handleKeyDown "Backspace" tag editable s) = Some i) /\
  (nodes (app (press (press s))) = deleteRecursive i (nodes (app s)) /\
   selectedNodeId (app (press (press s))) = None /\
   deleteConfirmId (press (press s)) = None) /\
  nodes (app (press (confirmTimeout i (press s)))) = nodes (app s) /\
  (forall j, j <> i -> j <> "" ->
     nodes (app (press (selectNode (Some j) (press s)))) = nodes (app s)).
Proof.
  intros Hfocus Hsel Hne Hnot. cbv beta zeta.
  assert (H1 : handleKeyDown "Backspace" tag editable s =
               (setDeleteConfirmId (Some i) s, Some i)).
  { rewrite (handleKeyDown_backspace tag editable s i Hfocus Hsel Hne).
    now rewrite Hnot. }
  rewrite H1. cbn [fst snd]. split; [repeat split; reflexivity|].
  set (s1 := setDeleteConfirmId (Some i) s).
  assert (Hsel1 : selectedNodeId (app s1) = Some i) by exact Hsel.
  split; [|split].
  - rewrite (handleKeyDown_backspace tag editable s1 i Hfocus Hsel1 Hne).
    cbn [s1 setDeleteConfirmId deleteConfirmId strictEq].
    rewrite String.eqb_refl. cbn [fst].
    split; [exact (nodes_applyOp_delete i s1)|].
    split; [|reflexivity].
    exact (selected_applyOp_delete i s1 Hsel1).
  - unfold confirmTimeout.
    cbn [s1 setDeleteConfirmId deleteConfirmId strictEq].
    rewrite String.eqb_refl.
    rewrite (handleKeyDown_backspace tag editable (setDeleteConfirmId None s1)
               i Hfocus Hsel Hne).
    reflexivity.
  - intros j Hj Hj0.
    assert (Hselj : selectedNodeId (app (selectNode (Some j) s1)) = Some j).
    { unfold selectNode. now rewrite app_selectionEffect. }
    rewrite (handleKeyDown_backspace tag editable _ j Hfocus Hselj Hj0).
    assert (Hc : deleteConfirmId (selectNode (Some j) s1) = None).
    { unfold selectNode, selectionEffect. cbn [app setApp s1
        setDeleteConfirmId setSelectedNodeId selectedNodeId].
      rewrite Hsel. simpl sameSelection.
      assert (E : (i =? j) = false) by (apply String.eqb_neq; congruence).
      now rewrite E. }
    rewrite Hc. cbn [strictEq fst setDeleteConfirmId app].
    unfold selectNode. now rewrite app_selectionEffect.
Qed.

Lemma backspace_needs_two_presses_witness :
  let s := mkSession (mkApp DEFAULT_LAYOUTS "layout_weekend" WEEKEND_NODES
                            (Some "w2"))
                     saved "" None (mkStorage None None) in
  let press := fun s => fst (handleKeyDown "Backspace" "body" false s) in
  nodes (app (press s)) = WEEKEND_NODES /\
  nodes (app (press (press s))) = deleteRecursive "w2" WEEKEND_NODES.
Proof.
  cbv zeta.
  set (s := mkSession (mkApp DEFAULT_LAYOUTS "layout_weekend" WEEKEND_NODES
                             (Some "w2"))
                      saved "" None (mkStorage None None)).
  assert (Hne : "w2" <> "") by discriminate.
  destruct (backspace_needs_two_presses "body" false s "w2" eq_refl eq_refl
              Hne eq_refl) as ((H1 & _) & (H2 & _) & _).
  cbv beta in H1, H2. split; [exact H1 | exact H2].
Defined.

(** ** Panning *)

Lemma last_cons {A} (a d : A) (l : list A) : last (a :: l) d = last l a.
Proof.
  revert a d. induction l as [|b l IH]; intros a d; [reflexivity|].
  change (last (a :: b :: l) d) with (last (b :: l) d).
  rewrite (IH b d). symmetry. apply (IH b a).
Qed.

Lemma setPan_pan (c : Doubles.Canvas) : Doubles.setPan (Doubles.pan c) c = c.
Proof. now destruct c. Qed.

Lemma idle_moves (moves : list Doubles.Event) (r : Doubles.CanvasRefs) :
  Doubles.isPanning (Doubles.canvasState r) = false ->
  fold_left (fun r e => Doubles.handleMouseMove e r) moves r = r.
Proof.
  intros Hp. induction moves as [|e moves IH]; [reflexivity|].
  simpl. unfold Doubles.handleMouseMove at 2. rewrite Hp. exact IH.
Qed.

Lemma panning_moves (moves : list Doubles.Event) :
  forall (d : Doubles.Event) (r : Doubles.CanvasRefs),
    Doubles.isPanning (Doubles.canvasState r) = true ->
    Doubles.lastMousePos r
      = Doubles.mkPan (Doubles.clientX d) (Doubles.clientY d) ->
    let r' := fold_left (fun r e => Doubles.handleMouseMove e r) moves r in
    Doubles.canvasState r' =
      Doubles.setPan
        (fold_left Doubles.panBy (combine (d :: moves) moves)
                   (Doubles.pan (Doubles.canvasState r)))
        (Doubles.canvasState r) /\
    Doubles.lastMousePos r' =
      Doubles.mkPan (Doubles.clientX (last moves d))
                    (Doubles.clientY (last moves d)).
Proof.
  induction moves as [|e moves IH]; intros d r Hp Hl; cbv zeta.
  - simpl. split; [symmetry; apply setPan_pan | exact Hl].
  - rewrite last_cons.
    change (combine (d :: e :: moves) (e :: moves))
      with ((d, e) :: combine (e :: moves) moves).
    cbn [fold_left].
    assert (Hstep : Doubles.handleMouseMove e r =
                    Doubles.mkRefs
                      (Doubles.setPan
                         (Doubles.panBy (Doubles.pan (Doubles.canvasState r))
                                        (d, e))
                         (Doubles.canvasState r))
                      (Doubles.mkPan (Doubles.clientX e) (Doubles.clientY e))).
    { unfold Doubles.handleMouseMove. rewrite Hp, Hl. reflexivity. }
    rewrite Hstep.
    destruct (IH e
                (Doubles.mkRefs
                   (Doubles.setPan
                      (Doubles.panBy (Doubles.pan (Doubles.canvasState r))
                                     (d, e))
                      (Doubles.canvasState r))
                   (Doubles.mkPan (Doubles.clientX e) (Doubles.clientY e)))
                Hp eq_refl) as [Hc Hlast].
    split; [|exact Hlast].
    rewrite Hc. reflexivity.
Qed.

(** X20. A press with the middle or right button starts a pan gesture.
    Each move that follows adds to the pan, in doubles, the displacement
    from the previous pointer position (from the press position for the
    first move) and changes nothing else of the canvas; the ref ends on the
    last pointer position.  Once the button is up, and after a press with
    any other button while no gesture is going, moves change nothing. *)
Theorem pan_follows_pointer (button : nat) (down : Doubles.Event)
  (moves : list Doubles.Event) (r : Doubles.CanvasRefs) :
  button = 2%nat \/ button = 1%nat ->
  let drag := fun r =>
    fold_left (fun r e => Doubles.handleMouseMove e r) moves r in
  let r' := drag (Doubles.handleMouseDown button down r) in
  Doubles.canvasState r' =
    Doubles.setPan
      (fold_left Doubles.panBy (combine (down :: moves) moves)
                 (Doubles.pan (Doubles.canvasState r)))
      (Doubles.setIsPanning true (Doubles.canvasState r)) /\
  Doubles.lastMousePos r' =
    Doubles.mkPan (Doubles.clientX (last moves down))
                  (Doubles.clientY (last moves down)) /\
  drag (Doubles.handleMouseUp r') = Doubles.handleMouseUp r' /\
  (Doubles.isPanning (Doubles.canvasState r) = false ->
   forall b, b <> 2%nat -> b <> 1%nat ->
             drag (Doubles.handleMouseDown b down r) = r).
Proof.
  intros Hb. cbv beta zeta.
  assert (Hdown : Doubles.handleMouseDown button down r =
                  Doubles.mkRefs
                    (Doubles.setIsPanning true (Doubles.canvasState r))
                    (Doubles.mkPan (Doubles.clientX down)
                                   (Doubles.clientY down)))
    by (destruct Hb as [-> | ->]; reflexivity).
  rewrite Hdown.
  destruct (panning_moves moves down
              (Doubles.mkRefs
                 (Doubles.setIsPanning true (Doubles.canvasState r))
                 (Doubles.mkPan (Doubles.clientX down) (Doubles.clientY down)))
              eq_refl eq_refl) as [Hc Hl].
  split; [exact Hc|]. split; [exact Hl|]. split.
  - apply idle_moves. reflexivity.
  - intros Hidle b H2 H1.
    assert (Hno : Doubles.handleMouseDown b down r = r).
    { unfold Doubles.handleMouseDown.
      destruct (Nat.eqb_spec b 2) as [E | _]; [contradiction|].
      destruct (Nat.eqb_spec b 1) as [E | _]; [contradiction|].
      reflexivity. }
    rewrite Hno. apply idle_moves, Hidle.
Qed.

Lemma pan_follows_pointer_witness :
  let c := Doubles.mkCanvas vertical false false 1
                            (Doubles.mkPan 0 0) false None None in
  let at_ := fun x y => Doubles.mkEvent 0 false x y 0 0 in
  let r' := fold_left (fun r e => Doubles.handleMouseMove e r)
                      [at_ 300 5; at_ 40 70]%float
                      (Doubles.handleMouseDown 1 (at_ 10 10)%float
                         (Doubles.mkRefs c (Doubles.mkPan 0 0))) in
  Doubles.pan (Doubles.canvasState r') = Doubles.mkPan 30 60.
Proof.
  cbv beta zeta.
  destruct (pan_follows_pointer 1
              (Doubles.mkEvent 0 false 10 10 0 0)
              [Doubles.mkEvent 0 false 300 5 0 0;
               Doubles.mkEvent 0 false 40 70 0 0]
              (Doubles.mkRefs
                 (Doubles.mkCanvas vertical false false 1
                                   (Doubles.mkPan 0 0) false None None)
                 (Doubles.mkPan 0 0))
              (or_intror eq_refl)) as (Hc & _).
  cbv beta zeta in Hc. rewrite Hc. vm_compute. reflexivity.
Defined.

(** ** Zooming *)

Lemma canvasStep_zoomInRange (r : CanvasRefs) (ev : CanvasEvent) :
  zoomInRange r -> zoomInRange (canvasStep r ev).
Proof.
  unfold zoomInRange. intros [Hlo Hhi].
  destruct ev as [ | | | | e rect | button e | e | | | b | e rect i index
                 | | | transfer]; simpl.
  - split.
    + apply Q.min_glb; lra.
    + eapply Qle_trans; [apply Q.le_min_r | lra].
  - split.
    + apply Q.le_max_r.
    + apply Q.max_lub; lra.
  - split; lra.
  - split; lra.
  - unfold handleWheel. destruct ((buttons e =? 2)%nat || ctrlKey e).
    + destruct rect as [rc|]; [|split; assumption].
      simpl. apply clamp_bounds. lra.
    + simpl. split; assumption.
  - unfold handleMouseDown.
    destruct ((button =? 2)%nat || (button =? 1)%nat); simpl; split;
      assumption.
  - unfold handleMouseMove. destruct (isPanning (canvasState r)); simpl;
      split; assumption.
  - split; assumption.
  - split; assumption.
  - unfold handleDragOver. destruct b; simpl; split; assumption.
  - unfold nodeDragOver. destruct (viewMode (canvasState r)); simpl;
      split; assumption.
  - split; assumption.
  - split; assumption.
  - rewrite handleDrop_resets. simpl. split; assumption.
Qed.

(** X23. Whatever the user does on the canvas (zoom buttons, reset, view
    toggle, wheel with or without modifier, panning, every step of a drag
    and drop), the zoom stays between 0.2 and 3; in particular it is never
    zero, so the divisions by the zoom in the wheel and resize handlers are
    by a positive number in every reachable state. *)
Theorem zoom_stays_in_range (evs : list CanvasEvent) :
  let r := fold_left canvasStep evs initialCanvas in
  (2 # 10) <= zoom (canvasState r) /\ zoom (canvasState r) <= 3 /\
  0 < zoom (canvasState r).
Proof.
  cbv zeta.
  assert (H : forall r0, zoomInRange r0 ->
                         zoomInRange (fold_left canvasStep evs r0)).
  { induction evs as [|ev evs IH]; intros r0 H0; [exact H0|].
    simpl. apply IH, canvasStep_zoomInRange, H0. }
  assert (H0 : zoomInRange initialCanvas) by (split; vm_compute; discriminate).
  destruct (H _ H0) as [Hlo Hhi].
  split; [exact Hlo|]. split; [exact Hhi|]. lra.
Qed.

(** ** The map layout *)

Lemma succ_divmod (i : nat) :
  ((i mod 4 < 3)%nat /\ (S i / 4 = i / 4)%nat /\
   (S i mod 4 = S (i mod 4))%nat) \/
  ((i mod 4 = 3)%nat /\ (S i / 4 = S (i / 4))%nat /\ (S i mod 4 = 0)%nat).
Proof.
  pose proof (Nat.div_mod_eq i 4). pose proof (Nat.div_mod_eq (S i) 4).
  pose proof (Nat.mod_upper_bound i 4). pose proof (Nat.mod_upper_bound (S i) 4).
  lia.
Qed.

Lemma succ_even (q : nat) :
  (S q mod 2 =? 0)%nat = negb (q mod 2 =? 0)%nat.
Proof.
  pose proof (Nat.div_mod_eq q 2). pose proof (Nat.div_mod_eq (S q) 2).
  pose proof (Nat.mod_upper_bound q 2). pose proof (Nat.mod_upper_bound (S q) 2).
  destruct (Nat.eqb_spec (S q mod 2) 0), (Nat.eqb_spec (q mod 2) 0);
    simpl; try reflexivity; lia.
Qed.

(** X25. Along the snake, the path from one position to the next is a
    straight line inside a row and a turn at the end of a row: the turn
    is taken exactly when the current position is flagged as a right end
    or a left end, and then the next position is straight below (same x,
    next row). The third way of drawing a segment, for a change of row
    with a change of x, is never used between consecutive positions. *)
Theorem snake_segments (i : nat) :
  let curr := positionAt i in
  let next := positionAt (S i) in
  segmentKind curr next =
    (if isRightEnd curr || isLeftEnd curr then TurnCurve else Line) /\
  segmentKind curr next <> OutwardCurve /\
  (segmentKind curr next = TurnCurve ->
   posX next = posX curr /\ posY next = (posY curr + GRID_H)%nat).
Proof.
  cbv zeta.
  assert (H : segmentKind (positionAt i) (positionAt (S i)) =
              (if isRightEnd (positionAt i) || isLeftEnd (positionAt i)
               then TurnCurve else Line) /\
              (segmentKind (positionAt i) (positionAt (S i)) = TurnCurve ->
               posX (positionAt (S i)) = posX (positionAt i) /\
               posY (positionAt (S i)) = (posY (positionAt i) + GRID_H)%nat)).
  { unfold segmentKind, positionAt, COLS.
    cbn [posX posY posRow isRightEnd isLeftEnd].
    pose proof (Nat.mod_upper_bound i 4 ltac:(discriminate)) as Hr.
    destruct (succ_divmod i) as [(Hlt & Hq & Hm) | (Heq & Hq & Hm)];
      rewrite Hq, Hm.
    - rewrite Nat.eqb_refl.
      remember (i mod 4)%nat as r eqn:Er.
      destruct (i / 4 mod 2 =? 0)%nat;
        (destruct r as [|[|[|r]]]; [| | |lia]);
        (split; [reflexivity | discriminate]).
    - rewrite succ_even, Heq.
      assert (Hne : (i / 4 =? S (i / 4))%nat = false)
        by (apply Nat.eqb_neq; lia).
      rewrite Hne.
      destruct (i / 4 mod 2 =? 0)%nat; cbn [negb];
        (split; [reflexivity | intros _; split; [reflexivity|]]);
        unfold GRID_H, OFFSET_Y; lia. }
  destruct H as [H1 H2]. split; [exact H1|]. split; [|exact H2].
  rewrite H1. destruct (isRightEnd _ || isLeftEnd _); discriminate.
Qed.

Lemma snake_segments_witness :
  posX (positionAt 4) = posX (positionAt 3) /\
  posY (positionAt 4) = (posY (positionAt 3) + GRID_H)%nat.
Proof.
  destruct (snake_segments 3) as (_ & _ & H). apply H. reflexivity.
Defined.

Lemma positionAt_row (i : nat) : posRow (positionAt i) = (i / 4)%nat.
Proof. reflexivity. Qed.

Lemma positionAt_y (i : nat) :
  posY (positionAt i) = (i / 4 * 220 + 150)%nat.
Proof. reflexivity. Qed.

Lemma positionAt_x (i : nat) :
  posX (positionAt i) =
    ((if (i / 4 mod 2 =? 0)%nat then i mod 4 else 3 - i mod 4) * 260 + 150)%nat.
Proof. reflexivity. Qed.

(** X26. No two nodes of the map share a place: the positions of two
    different indices differ in x or in y. *)
Theorem positionAt_injective (i j : nat) :
  i <> j ->
  posX (positionAt i) <> posX (positionAt j) \/
  posY (positionAt i) <> posY (positionAt j).
Proof.
  intros Hij. rewrite !positionAt_x, !positionAt_y.
  destruct (Nat.eq_dec (i / 4) (j / 4)) as [Hq | Hq]; [left | right; lia].
  rewrite Hq. intros Hx. apply Hij.
  pose proof (Nat.mod_upper_bound i 4 ltac:(discriminate)).
  pose proof (Nat.mod_upper_bound j 4 ltac:(discriminate)).
  assert (Hm : (i mod 4 = j mod 4)%nat)
    by (destruct (j / 4 mod 2 =? 0)%nat; lia).
  rewrite (Nat.div_mod_eq i 4), (Nat.div_mod_eq j 4), Hq, Hm. reflexivity.
Qed.

Lemma positionAt_injective_witness :
  posX (positionAt 3) <> posX (positionAt 4) \/
  posY (positionAt 3) <> posY (positionAt 4).
Proof. apply (positionAt_injective 3 4). discriminate. Defined.

Lemma fold_max_ge (f : MapPosition -> nat) (l : list MapPosition) (m : nat) :
  (m <= fold_left (fun m p => if (m <? f p)%nat then f p else m) l m)%nat /\
  forall p, In p l ->
    (f p <= fold_left (fun m p => if (m <? f p)%nat then f p else m) l m)%nat.
Proof.
  revert m. induction l as [|a l IH]; intros m; simpl.
  - split; [lia | intros p []].
  - destruct (IH (if (m <? f a)%nat then f a else m)) as [H1 H2].
    assert (Hm : (m <= (if (m <? f a)%nat then f a else m))%nat /\
                 (f a <= (if (m <? f a)%nat then f a else m))%nat)
      by (destruct (Nat.ltb_spec m (f a)); lia).
    split; [lia|].
    intros p [<- | Hp]; [lia | apply H2, Hp].
Qed.

(** X27. The content area of the map holds every node with its padding:
    for each position, x + 250 is within the width and y + 300 within the
    height, and neither dimension is below 800. *)
Theorem contentSize_contains (nodes : list FlowNode) (p : MapPosition) :
  In p (positions nodes) ->
  (posX p + 250 <= fst (contentSize nodes))%nat /\
  (posY p + 300 <= snd (contentSize nodes))%nat /\
  (800 <= fst (contentSize nodes))%nat /\
  (800 <= snd (contentSize nodes))%nat.
Proof.
  intros Hp. unfold contentSize. cbv zeta. cbn [fst snd].
  pose proof (proj2 (fold_max_ge posX (positions nodes) 0%nat) p Hp) as Hx.
  pose proof (proj2 (fold_max_ge posY (positions nodes) 0%nat) p Hp) as Hy.
  repeat split; lia.
Qed.

Lemma contentSize_contains_witness :
  (posX (positionAt 3) + 250 <= fst (contentSize WEEKEND_NODES))%nat.
Proof.
  apply (contentSize_contains WEEKEND_NODES (positionAt 3)).
  vm_compute. auto 10.
Defined.

(** ** Manual save and reset *)

Lemma handleManualSave_saving (s : Session) :
  saveStatus (fst (handleManualSave s)) = saving /\
  snd (handleManualSave s) = currentData s.
Proof. split; reflexivity. Qed.

(** X28. The manual save writes the data of the moment of the click.
    Whatever is edited between the click and the delayed write (with the
    sync effect and the one-second timer running in between) is in the
    state afterwards but not in the storage, the status reads [saved], and
    the next firing of the auto-save timer writes nothing. *)
Theorem manual_save_writes_click_data (s : Session)
  (evs : list SessionEvent) (now now' : Date) (writeOk : bool) :
  let s1 := fst (handleManualSave s) in
  let data := snd (handleManualSave s) in
  let s2 := fold_left sessionStep evs s1 in
  let s3 := saveToStorage data true now s2 in
  storage s2 = storage s /\
  saveStatus s3 = saved /\
  FLOWDAY_APP_DATA (storage s3) = Some (currentData s) /\
  app s3 = app s2 /\
  autoSaveTimer writeOk now' s3 = s3.
Proof.
  cbv zeta. destruct (handleManualSave_saving s) as [H1 H2].
  destruct (run_saving evs _ H1) as [_ H4].
  split; [exact H4|]. rewrite H2.
  repeat split; reflexivity.
Qed.

(** X29. After a confirmed reset the state is the initial one and both
    storage keys are gone, so a reload starts from the defaults; after the
    sync effect and a successful auto-save the storage holds the defaults
    and a reload gives the same state again.  A reset that is not
    confirmed changes nothing. *)
Theorem reset_then_reload (s : Session) (now now' : Date) :
  let r := handleResetData true s in
  storage r = mkStorage None None /\
  app r = app (initialSession (storage r)) /\
  app (loadEffect now (initialSession (storage r))) = app r /\
  (let r' := autoSaveTimer true now' (syncEffect r) in
   saveStatus r' = saved /\
   app (loadEffect now (initialSession (storage r'))) = app r) /\
  handleResetData false s = s.
Proof.
  cbv zeta. unfold handleResetData, selectionEffect.
  destruct (sameSelection _ _); repeat split; vm_compute; reflexivity.
Qed.
